(** * TerraPrint3D: the terrain-to-solid geometry pipeline

    A shallow embedding of the mesh generators of [terraprint3d]
    ([mesh/generator.py], [mesh/simple_multicolor.py], [mesh/multicolor.py],
    [mesh/colored_export.py]) and of the configuration validator
    ([config/parser.py]), with the properties of the specification stated
    and settled against it.

    Conventions.
    - Vertex indices and loop counters are [nat]; Python's [range(n)] is
      [seq 0 n], and [range(rows - 1)] with [rows = 0] is empty, as is
      [seq 0 (0 - 1)].
    - A 2-D numpy array is a list of rows; [shape] reads the row count and the
      length of the first row.
    - Floating-point numbers are kept abstract behind the class [Scalar]:
      the code is written once and read at two instances, exact rationals
      [Q] (the idealised reals the specification speaks about) and IEEE
      binary64 [PrimFloat.float] (what numpy computes, with infinities and
      NaN).
    - Python exceptions are the left summand of [result]. *)

From stdpp Require Import gmap strings pretty.
From Stdlib Require Import List Arith Lia ZArith QArith Qround Qabs Bool Lqa.
From Stdlib Require PrimFloat Uint63.
Import ListNotations.

Local Open Scope nat_scope.

(** ** Triangles, edges and the watertight invariant *)

Section Edges.
Context {V : Type} `{EqDecision V}.

(** The three directed edges of a triangle, in winding order. *)
Definition dedges (f : V * V * V) : list (V * V) :=
  let '(x, y, z) := f in [(x, y); (y, z); (z, x)].

(** [same_edge a b x y]: the undirected edges {a,b} and {x,y} coincide. *)
Definition same_edge (a b x y : V) : bool :=
  bool_decide (a = x /\ b = y) || bool_decide (a = y /\ b = x).

(** The triangle [f] has {a,b} among its three undirected edges. *)
Definition has_edge (a b : V) (f : V * V * V) : bool :=
  existsb (fun e => same_edge a b (fst e) (snd e)) (dedges f).

(** Number of faces of [fs] that border the undirected edge {a,b}. *)
Fixpoint edge_face_count (a b : V) (fs : list (V * V * V)) : nat :=
  match fs with
  | [] => 0
  | f :: fs' => (if has_edge a b f then 1 else 0) + edge_face_count a b fs'
  end.

Definition tri_distinct (f : V * V * V) : Prop :=
  let '(x, y, z) := f in x <> y /\ y <> z /\ x <> z.

(** Every undirected edge of the face set borders exactly two faces. *)
Definition watertight (fs : list (V * V * V)) : Prop :=
  forall f, In f fs -> forall a b, In (a, b) (dedges f) ->
  edge_face_count a b fs = 2.

Definition flip_face (f : V * V * V) : V * V * V :=
  let '(x, y, z) := f in (x, z, y).

Definition swap_edge (e : V * V) : V * V := (snd e, fst e).

Definition edge_eq_dec : forall x y : V * V, {x = y} + {x <> y} :=
  fun x y => decide (x = y).

Definition dcount (e : V * V) (l : list (V * V)) : nat :=
  count_occ edge_eq_dec l e.
End Edges.

Definition face : Type := nat * nat * nat.

(** ** The grid triangulation *)

(** [_create_surface_mesh], the body of the inner loop: the two triangles of
    the quad whose upper-left corner is cell [(i, j)]. *)
Definition quad_faces (cols i j : nat) : list face :=
  let v1 := i * cols + j in
  let v2 := i * cols + (j + 1) in
  let v3 := (i + 1) * cols + j in
  let v4 := (i + 1) * cols + (j + 1) in
  [(v1, v2, v3); (v2, v4, v3)].

(** [_create_surface_mesh], the face loop:
    [for i in range(rows - 1): for j in range(cols - 1): ...]. *)
Definition surface_faces (rows cols : nat) : list face :=
  flat_map (fun i => flat_map (fun j => quad_faces cols i j) (seq 0 (cols - 1)))
           (seq 0 (rows - 1)).

Definition face_distinct (f : face) : Prop := tri_distinct f.

Definition face_valid (n : nat) (f : face) : Prop :=
  let '(a, b, c) := f in a < n /\ b < n /\ c < n.

Lemma length_flat_map_const {A B} (f : A -> list B) (l : list A) (k : nat) :
  (forall x, In x l -> length (f x) = k) ->
  length (flat_map f l) = length l * k.
Proof.
  induction l as [|x l IH]; intros H; simpl; [reflexivity|].
  rewrite length_app, H by (left; reflexivity).
  rewrite IH by (intros y Hy; apply H; right; exact Hy). reflexivity.
Qed.

Lemma surface_faces_length (rows cols : nat) :
  length (surface_faces rows cols) = 2 * (rows - 1) * (cols - 1).
Proof.
  unfold surface_faces.
  rewrite (length_flat_map_const _ _ ((cols - 1) * 2)).
  - rewrite length_seq. lia.
  - intros i _. rewrite (length_flat_map_const _ _ 2).
    + rewrite length_seq. reflexivity.
    + intros j _. reflexivity.
Qed.


Lemma cell_index_lt (rows cols i j : nat) :
  i < rows -> j < cols -> i * cols + j < rows * cols.
Proof. intros Hi Hj. nia. Qed.



(** ** Counting faces around an edge through directed edges *)

Section EdgeFacts.
Context {V : Type} `{EqDecision V}.
Implicit Types (a b : V) (e : V * V) (f : V * V * V) (fs : list (V * V * V)).

Lemma edge_face_count_app a b fs gs :
  edge_face_count a b (fs ++ gs) = edge_face_count a b fs + edge_face_count a b gs.
Proof. induction fs as [|f fs IH]; simpl; [reflexivity|]. rewrite IH. lia. Qed.

Lemma same_edge_sym a b x y : same_edge a b y x = same_edge a b x y.
Proof. unfold same_edge. apply orb_comm. Qed.

Lemma has_edge_flip a b f : has_edge a b (flip_face f) = has_edge a b f.
Proof.
  destruct f as [[x y] z]. unfold has_edge. simpl.
  rewrite !orb_false_r, (same_edge_sym a b z x), (same_edge_sym a b y z),
    (same_edge_sym a b x y).
  destruct (same_edge a b x y), (same_edge a b y z), (same_edge a b z x); reflexivity.
Qed.

Lemma edge_face_count_flip a b fs :
  edge_face_count a b (map flip_face fs) = edge_face_count a b fs.
Proof.
  induction fs as [|f fs IH]; simpl; [reflexivity|].
  rewrite has_edge_flip, IH. reflexivity.
Qed.

Lemma dcount_app e (l1 l2 : list (V * V)) :
  dcount e (l1 ++ l2) = dcount e l1 + dcount e l2.
Proof. apply count_occ_app. Qed.

Lemma dcount_cons e e' (l : list (V * V)) :
  dcount e (e' :: l) = (if bool_decide (e' = e) then 1 else 0) + dcount e l.
Proof.
  unfold dcount. simpl. unfold edge_eq_dec at 1.
  destruct (decide (e' = e)) as [Heq|Hne].
  - rewrite bool_decide_eq_true_2 by exact Heq. reflexivity.
  - rewrite bool_decide_eq_false_2 by exact Hne. reflexivity.
Qed.

Lemma has_edge_dcount a b f :
  tri_distinct f ->
  (if has_edge a b f then 1 else 0) =
  dcount (a, b) (dedges f) + dcount (b, a) (dedges f).
Proof.
  destruct f as [[x y] z]. intros (Hxy & Hyz & Hxz).
  unfold has_edge, dedges. rewrite !dcount_cons. unfold dcount, same_edge. simpl.
  destruct (decide (a = x)) as [->|Hax];
    [|destruct (decide (a = y)) as [->|Hay]; [|destruct (decide (a = z)) as [->|Haz]]];
  (destruct (decide (b = x)) as [->|Hbx];
    [|destruct (decide (b = y)) as [->|Hby]; [|destruct (decide (b = z)) as [->|Hbz]]]);
  repeat match goal with
  | |- context [bool_decide ?P] =>
      first [ rewrite (bool_decide_eq_true_2 P) by (repeat split; congruence)
            | rewrite (bool_decide_eq_false_2 P) by (let Hc := fresh in intros Hc; inversion Hc; congruence) ]
  end; reflexivity.
Qed.

Lemma edge_face_count_dcount a b fs :
  Forall tri_distinct fs ->
  edge_face_count a b fs =
  dcount (a, b) (flat_map dedges fs) + dcount (b, a) (flat_map dedges fs).
Proof.
  induction 1 as [|f fs Hf _ IH]; simpl; [reflexivity|].
  rewrite !dcount_app, IH, (has_edge_dcount a b f Hf). lia.
Qed.

Lemma swap_edge_involutive e : swap_edge (swap_edge e) = e.
Proof. destruct e; reflexivity. Qed.

Lemma swap_edge_inj e e' : swap_edge e = swap_edge e' -> e = e'.
Proof. intros H0. rewrite <- (swap_edge_involutive e), H0. apply swap_edge_involutive. Qed.

Lemma dcount_swap e (l : list (V * V)) :
  dcount e (map swap_edge l) = dcount (swap_edge e) l.
Proof.
  induction l as [|x l IH]; [reflexivity|].
  change (map swap_edge (x :: l)) with (swap_edge x :: map swap_edge l).
  rewrite !dcount_cons, IH. f_equal.
  repeat case_bool_decide; try reflexivity; exfalso.
  - subst e. rewrite swap_edge_involutive in *. congruence.
  - subst x. rewrite swap_edge_involutive in *. congruence.
Qed.

Lemma in_map_swap e (l : list (V * V)) :
  In e (map swap_edge l) <-> In (swap_edge e) l.
Proof.
  rewrite in_map_iff. split.
  - intros (x & <- & Hx). rewrite swap_edge_involutive. exact Hx.
  - intros Hx. exists (swap_edge e). split; [apply swap_edge_involutive|exact Hx].
Qed.

(** A duplicate-free list of directed edges that contains the reverse of each
    of its members meets every undirected edge it touches exactly twice. *)
Lemma closed_nodup_dcount (D : list (V * V)) :
  NoDup D ->
  (forall e, In e D -> In (swap_edge e) D) ->
  forall a b, In (a, b) D \/ In (b, a) D ->
  dcount (a, b) D + dcount (b, a) D = 2.
Proof.
  intros Hnd Hcl a b Hin.
  assert (Hab : In (a, b) D /\ In (b, a) D).
  { destruct Hin as [Hin|Hin]; split; try exact Hin;
      apply (Hcl _ Hin). }
  destruct Hab as [H1 H2].
  pose proof (proj1 (NoDup_count_occ' edge_eq_dec D) Hnd) as Hc.
  unfold dcount. rewrite (Hc _ H1), (Hc _ H2). reflexivity.
Qed.

Lemma NoDup_flat_map_disjoint {A B} (g : A -> list B) (l : list A) :
  NoDup l ->
  (forall x, In x l -> NoDup (g x)) ->
  (forall x y z, In x l -> In y l -> In z (g x) -> In z (g y) -> x = y) ->
  NoDup (flat_map g l).
Proof.
  induction 1 as [|x l Hx Hl IH]; intros Hg Hd; simpl; [constructor|].
  apply NoDup_app.
  - apply Hg. left; reflexivity.
  - apply IH.
    + intros y Hy. apply Hg. right; exact Hy.
    + intros y1 y2 z H1 H2. apply Hd; right; assumption.
  - intros z Hz1 Hz2. apply in_flat_map in Hz2 as (y & Hy & Hz2).
    assert (x = y) by (apply (Hd x y z); simpl; auto). subst y. contradiction.
Qed.
End EdgeFacts.

(** ** A prism over a triangulated disc

    The shape [_add_base] builds, stated over an arbitrary vertex type: a
    triangulated top surface [S], the same triangulation flipped as floor, and
    two wall triangles per consecutive pair of a boundary loop [L].  A vertex
    of the prism is a pair of a level ([false] = surface, [true] = floor) and
    a vertex of [S]. *)

Section Prism.
Context {P : Type} `{EqDecision P}.
Variables (S : list (P * P * P)) (L : list P) (d : P).

Definition lift_face (b : bool) (f : P * P * P) : (bool * P) * (bool * P) * (bool * P) :=
  let '(x, y, z) := f in ((b, x), (b, y), (b, z)).

Definition lift_edge (b : bool) (e : P * P) : (bool * P) * (bool * P) :=
  ((b, fst e), (b, snd e)).

Definition succ_idx (k : nat) : nat := (k + 1) mod length L.

Definition prism_wall (k : nat) : list ((bool * P) * (bool * P) * (bool * P)) :=
  let p := nth k L d in
  let q := nth (succ_idx k) L d in
  [((false, p), (false, q), (true, p)); ((false, q), (true, q), (true, p))].

Definition prism_walls : list ((bool * P) * (bool * P) * (bool * P)) :=
  flat_map prism_wall (seq 0 (length L)).

Definition prism : list ((bool * P) * (bool * P) * (bool * P)) :=
  map (lift_face false) S ++ prism_walls ++ map flip_face (map (lift_face true) S).

Definition wall_edges (k : nat) : list ((bool * P) * (bool * P)) :=
  flat_map dedges (prism_wall k).

Lemma succ_idx_spec k :
  k < length L ->
  (k + 1 < length L /\ succ_idx k = k + 1) \/ (k + 1 = length L /\ succ_idx k = 0).
Proof.
  intros Hk. unfold succ_idx.
  destruct (Nat.eq_dec (k + 1) (length L)) as [Heq|Hne].
  - right. split; [exact Heq|]. rewrite Heq. apply Nat.Div0.mod_same.
  - left. split; [lia|]. apply Nat.mod_small. lia.
Qed.

Lemma succ_idx_lt k : k < length L -> succ_idx k < length L.
Proof. intros Hk. destruct (succ_idx_spec k Hk) as [[? ->]|[? ->]]; lia. Qed.

Lemma succ_idx_inj k1 k2 :
  k1 < length L -> k2 < length L -> succ_idx k1 = succ_idx k2 -> k1 = k2.
Proof.
  intros H1 H2.
  destruct (succ_idx_spec k1 H1) as [[? ->]|[? ->]],
           (succ_idx_spec k2 H2) as [[? ->]|[? ->]]; lia.
Qed.

Lemma succ_idx_surj k :
  k < length L -> exists k0, k0 < length L /\ succ_idx k0 = k.
Proof.
  intros Hk. destruct k as [|k].
  - exists (length L - 1). split; [lia|].
    destruct (succ_idx_spec (length L - 1)) as [[? ->]|[? ->]]; lia.
  - exists k. split; [lia|].
    destruct (succ_idx_spec k) as [[? ->]|[? ->]]; lia.
Qed.

Lemma dedges_lift b f : dedges (lift_face b f) = map (lift_edge b) (dedges f).
Proof. destruct f as [[x y] z]. reflexivity. Qed.

Lemma dedges_lift_all b (fs : list (P * P * P)) :
  flat_map dedges (map (lift_face b) fs) = map (lift_edge b) (flat_map dedges fs).
Proof.
  induction fs as [|f fs IH]; simpl; [reflexivity|].
  rewrite IH, dedges_lift, map_app. reflexivity.
Qed.

Lemma lift_edge_inj b e e' : lift_edge b e = lift_edge b e' -> e = e'.
Proof. destruct e, e'. unfold lift_edge. simpl. congruence. Qed.

Lemma NoDup_map_inj {A B} (g : A -> B) (l : list A) :
  (forall x y, g x = g y -> x = y) -> NoDup l -> NoDup (map g l).
Proof.
  intros Hg. induction 1 as [|x l Hx Hl IH]; simpl; constructor; [|exact IH].
  intros Hin. apply in_map_iff in Hin as (y & Hy & Hin).
  apply Hg in Hy. subst y. contradiction.
Qed.

Lemma flat_map_flat_map {A B C} (f : A -> list B) (g : B -> list C) (l : list A) :
  flat_map g (flat_map f l) = flat_map (fun x => flat_map g (f x)) l.
Proof.
  induction l as [|x l IH]; simpl; [reflexivity|].
  rewrite flat_map_app, IH. reflexivity.
Qed.

Lemma in_wall_edges_all e :
  In e (flat_map dedges prism_walls) <->
  exists k, k < length L /\ In e (wall_edges k).
Proof.
  unfold prism_walls. rewrite flat_map_flat_map, in_flat_map. split.
  - intros (k & Hk & He). apply in_seq in Hk. exists k. split; [lia|exact He].
  - intros (k & Hk & He). exists k. split; [apply in_seq; lia|exact He].
Qed.

Lemma lift_face_distinct b f : tri_distinct f -> tri_distinct (lift_face b f).
Proof.
  destruct f as [[x y] z]. unfold tri_distinct. simpl.
  intros (H1 & H2 & H3). repeat split; congruence.
Qed.

Lemma dedges_flip_in (V : Type) (a b : V) (f : V * V * V) :
  In (a, b) (dedges (flip_face f)) -> In (b, a) (dedges f).
Proof.
  destruct f as [[x y] z]. simpl. intros [H0|[H0|[H0|[]]]]; inversion H0; subst; auto.
Qed.

Hypothesis S_distinct : Forall tri_distinct S.
Hypothesis DS_nodup : NoDup (flat_map dedges S).
Hypothesis L_nodup : NoDup L.
Hypothesis interior_or_boundary :
  forall a b, In (a, b) (flat_map dedges S) ->
  In (b, a) (flat_map dedges S) \/
  exists k, k < length L /\ a = nth k L d /\ b = nth (succ_idx k) L d.
Hypothesis boundary_in :
  forall k, k < length L ->
  In (nth k L d, nth (succ_idx k) L d) (flat_map dedges S) /\
  ~ In (nth (succ_idx k) L d, nth k L d) (flat_map dedges S).

Lemma loop_step_neq k : k < length L -> nth k L d <> nth (succ_idx k) L d.
Proof.
  intros Hk Heq. destruct (boundary_in k Hk) as [Hin Hnin].
  apply Hnin. rewrite <- Heq in *. exact Hin.
Qed.

Lemma loop_nth_inj i j :
  i < length L -> j < length L -> nth i L d = nth j L d -> i = j.
Proof. intros Hi Hj. apply (proj1 (NoDup_nth L d) L_nodup); assumption. Qed.

Lemma prism_walls_distinct : Forall tri_distinct prism_walls.
Proof.
  apply Forall_forall. intros f Hf. unfold prism_walls in Hf.
  apply in_flat_map in Hf as (k & Hk & Hf). apply in_seq in Hk.
  pose proof (loop_step_neq k ltac:(lia)) as Hpq.
  destruct Hf as [<-|[<-|[]]]; unfold tri_distinct; repeat split; congruence.
Qed.

(** The directed edges of the prism, with walls and floor read in reverse:
    the orientation under which the whole solid is wound consistently. *)
Definition prism_dedges : list ((bool * P) * (bool * P)) :=
  map (lift_edge false) (flat_map dedges S)
  ++ map swap_edge (flat_map dedges prism_walls)
  ++ map swap_edge (map (lift_edge true) (flat_map dedges S)).

Lemma prism_count a b :
  edge_face_count a b prism =
  dcount (a, b) prism_dedges + dcount (b, a) prism_dedges.
Proof.
  unfold prism, prism_dedges.
  rewrite !edge_face_count_app, edge_face_count_flip.
  rewrite (edge_face_count_dcount a b (map (lift_face false) S)),
    (edge_face_count_dcount a b prism_walls),
    (edge_face_count_dcount a b (map (lift_face true) S)).
  - rewrite !dedges_lift_all, !dcount_app, !dcount_swap. unfold swap_edge. simpl. lia.
  - apply Forall_map. eapply Forall_impl; [|exact S_distinct].
    intros f. apply lift_face_distinct.
  - apply prism_walls_distinct.
  - apply Forall_map. eapply Forall_impl; [|exact S_distinct].
    intros f. apply lift_face_distinct.
Qed.

Ltac wall_edge_cases H :=
  unfold wall_edges, prism_wall in H; simpl in H;
  destruct H as [H|[H|[H|[H|[H|[H|[]]]]]]].

Lemma wall_edges_nodup k : k < length L -> NoDup (wall_edges k).
Proof.
  intros Hk. pose proof (loop_step_neq k Hk) as Hpq.
  unfold wall_edges, prism_wall. simpl.
  repeat (apply NoDup_cons;
    [simpl; intros Hc;
     repeat (destruct Hc as [Hc|Hc]; [inversion Hc; congruence|]); exact Hc|]).
  apply NoDup_nil.
Qed.

Lemma wall_edges_disjoint k1 k2 e :
  k1 < length L -> k2 < length L ->
  In e (wall_edges k1) -> In e (wall_edges k2) -> k1 = k2.
Proof.
  intros H1 H2 He1 He2.
  pose proof (loop_step_neq k1 H1) as Hpq1.
  pose proof (loop_step_neq k2 H2) as Hpq2.
  pose proof (succ_idx_lt k1 H1) as Hs1.
  pose proof (succ_idx_lt k2 H2) as Hs2.
  wall_edge_cases He1; wall_edge_cases He2; subst e; inversion He2;
    first [ apply loop_nth_inj; [assumption|assumption|congruence]
          | apply succ_idx_inj; [assumption|assumption|];
            apply loop_nth_inj; [assumption|assumption|congruence]
          | exfalso; congruence ].
Qed.

Lemma prism_walls_dedges_nodup : NoDup (flat_map dedges prism_walls).
Proof.
  unfold prism_walls. rewrite flat_map_flat_map.
  apply NoDup_flat_map_disjoint.
  - apply seq_NoDup.
  - intros k Hk. apply in_seq in Hk. apply wall_edges_nodup. lia.
  - intros k1 k2 e Hk1 Hk2. apply in_seq in Hk1, Hk2.
    apply wall_edges_disjoint; lia.
Qed.

Lemma in_lift_edges b e :
  In e (map (lift_edge b) (flat_map dedges S)) <->
  exists x y, e = ((b, x), (b, y)) /\ In (x, y) (flat_map dedges S).
Proof.
  rewrite in_map_iff. split.
  - intros ([x y] & <- & Hin). exists x, y. split; [reflexivity|exact Hin].
  - intros (x & y & -> & Hin). exists (x, y). split; [reflexivity|exact Hin].
Qed.

Lemma prism_dedges_nodup : NoDup prism_dedges.
Proof.
  unfold prism_dedges. apply NoDup_app; [|apply NoDup_app|].
  - apply NoDup_map_inj; [apply lift_edge_inj|exact DS_nodup].
  - apply NoDup_map_inj; [apply swap_edge_inj|apply prism_walls_dedges_nodup].
  - apply NoDup_map_inj; [apply swap_edge_inj|].
    apply NoDup_map_inj; [apply lift_edge_inj|exact DS_nodup].
  - intros e Hw Hb. apply in_map_swap in Hw, Hb.
    apply in_wall_edges_all in Hw as (k & Hk & Hw).
    apply in_lift_edges in Hb as (x & y & Hb & Hin).
    destruct (boundary_in k Hk) as [_ Hnin].
    destruct e as [u v]. unfold swap_edge in *. simpl in *.
    wall_edge_cases Hw; rewrite Hb in Hw; inversion Hw; subst; contradiction.
  - intros e Ht Hr. apply in_lift_edges in Ht as (x & y & -> & Hin).
    apply in_app_iff in Hr as [Hw|Hb].
    + apply in_map_swap in Hw. apply in_wall_edges_all in Hw as (k & Hk & Hw).
      destruct (boundary_in k Hk) as [_ Hnin].
      unfold swap_edge in Hw. simpl in Hw.
      wall_edge_cases Hw; inversion Hw; subst; contradiction.
    + apply in_map_swap in Hb. apply in_lift_edges in Hb as (x' & y' & Hb & _).
      unfold swap_edge in Hb. simpl in Hb. inversion Hb.
Qed.

Lemma in_walls_intro k e :
  k < length L -> In e (wall_edges k) ->
  In (swap_edge e) prism_dedges.
Proof.
  intros Hk He. unfold prism_dedges. apply in_app_iff. right.
  apply in_app_iff. left. apply in_map_swap. rewrite swap_edge_involutive.
  apply in_wall_edges_all. exists k. split; assumption.
Qed.

Lemma in_top_intro x y :
  In (x, y) (flat_map dedges S) -> In ((false, x), (false, y)) prism_dedges.
Proof.
  intros Hin. unfold prism_dedges. apply in_app_iff. left.
  apply in_lift_edges. exists x, y. split; [reflexivity|exact Hin].
Qed.

Lemma in_floor_intro x y :
  In (x, y) (flat_map dedges S) -> In ((true, y), (true, x)) prism_dedges.
Proof.
  intros Hin. unfold prism_dedges. apply in_app_iff. right.
  apply in_app_iff. right. apply in_map_swap. apply in_lift_edges.
  exists x, y. split; [reflexivity|exact Hin].
Qed.

Lemma prism_dedges_closed e :
  In e prism_dedges -> In (swap_edge e) prism_dedges.
Proof.
  intros He. unfold prism_dedges in He.
  apply in_app_iff in He as [Ht|He]; [|apply in_app_iff in He as [Hw|Hb]].
  - apply in_lift_edges in Ht as (x & y & -> & Hin).
    destruct (interior_or_boundary x y Hin) as [Hrev|(k & Hk & -> & ->)].
    + apply (in_top_intro y x Hrev).
    + apply (in_walls_intro k ((false, nth k L d), (false, nth (succ_idx k) L d)) Hk).
      unfold wall_edges, prism_wall. simpl. auto.
  - apply in_map_swap in Hw. apply in_wall_edges_all in Hw as (k & Hk & Hw).
    destruct (boundary_in k Hk) as [Hin _].
    destruct (succ_idx_surj k Hk) as (k0 & Hk0 & Hk0s).
    pose proof (succ_idx_lt k Hk) as Hks.
    set (p := nth k L d) in *. set (q := nth (succ_idx k) L d) in *.
    wall_edge_cases Hw; rewrite <- Hw.
    + apply (in_top_intro p q Hin).
    + apply (in_walls_intro k ((true, p), (false, q)) Hk).
      unfold wall_edges, prism_wall. simpl. auto 10.
    + apply (in_walls_intro k0 ((false, p), (true, p)) Hk0).
      unfold wall_edges, prism_wall. simpl. rewrite Hk0s. fold p. auto 10.
    + apply (in_walls_intro (succ_idx k) ((true, q), (false, q)) Hks).
      unfold wall_edges, prism_wall. simpl. fold q. auto 10.
    + apply (in_floor_intro p q Hin).
    + apply (in_walls_intro k ((false, q), (true, p)) Hk).
      unfold wall_edges, prism_wall. simpl. auto 10.
  - apply in_map_swap in Hb. apply in_lift_edges in Hb as (x & y & Hb & Hin).
    destruct e as [u v]. unfold swap_edge in *. simpl in *.
    inversion Hb; subst.
    destruct (interior_or_boundary x y Hin) as [Hrev|(k & Hk & -> & ->)].
    + apply (in_floor_intro y x Hrev).
    + apply (in_walls_intro k ((true, nth (succ_idx k) L d), (true, nth k L d)) Hk).
      unfold wall_edges, prism_wall. simpl. auto 10.
Qed.

(** The prism is watertight whenever the top surface is a disc whose
    boundary is the loop [L]. *)
Lemma prism_watertight : watertight prism.
Proof.
  intros f Hf a b Hab. rewrite prism_count.
  apply closed_nodup_dcount; [apply prism_dedges_nodup|apply prism_dedges_closed|].
  unfold prism in Hf. apply in_app_iff in Hf as [Ht|Hf];
    [|apply in_app_iff in Hf as [Hw|Hb]].
  - left. unfold prism_dedges. apply in_app_iff. left.
    rewrite <- dedges_lift_all. apply in_flat_map. exists f. split; assumption.
  - right. unfold prism_dedges. apply in_app_iff. right. apply in_app_iff. left.
    apply in_map_swap. unfold swap_edge. simpl.
    apply in_flat_map. exists f. split; assumption.
  - left. unfold prism_dedges. apply in_app_iff. right. apply in_app_iff. right.
    apply in_map_swap. unfold swap_edge. simpl. rewrite <- dedges_lift_all.
    apply in_map_iff in Hb as (g & <- & Hg). apply dedges_flip_in in Hab.
    apply in_flat_map. exists g. split; assumption.
Qed.
End Prism.

(** ** The grid in cell coordinates

    The same triangulation and boundary walk as the source, written over
    cells [(i, j)] instead of row-major indices; the index form is the image
    of this one under [i * cols + j]. *)

Abbreviation cell := (nat * nat)%type.

Definition cquad (i j : nat) : list (cell * cell * cell) :=
  [((i, j), (i, j + 1), (i + 1, j)); ((i, j + 1), (i + 1, j + 1), (i + 1, j))].

Definition csurface (rows cols : nat) : list (cell * cell * cell) :=
  flat_map (fun i => flat_map (fun j => cquad i j) (seq 0 (cols - 1)))
           (seq 0 (rows - 1)).

Definition cloop (rows cols : nat) : list cell :=
  map (fun j => (0, j)) (seq 0 cols)
  ++ map (fun i => (i, cols - 1)) (seq 1 (rows - 2))
  ++ (if 1 <? rows then map (fun j => (rows - 1, j)) (rev (seq 0 cols)) else [])
  ++ map (fun i => (i, 0)) (rev (seq 1 (rows - 2))).

(** [pat rows cols i1 j1 i2 j2]: the directed edge (i1,j1) -> (i2,j2) is one
    of the six directed edges of some quad of the triangulation. *)
Definition pat (rows cols i1 j1 i2 j2 : nat) : Prop :=
  (i2 = i1 /\ j2 = j1 + 1 /\ i1 + 1 < rows /\ j1 + 1 < cols) \/
  (i2 = i1 + 1 /\ j1 = j2 + 1 /\ i1 + 1 < rows /\ j2 + 1 < cols) \/
  (i1 = i2 + 1 /\ j1 = j2 /\ i2 + 1 < rows /\ j2 + 1 < cols) \/
  (i2 = i1 + 1 /\ j2 = j1 /\ 1 <= j1 /\ i1 + 1 < rows /\ j1 < cols) \/
  (i2 = i1 /\ j1 = j2 + 1 /\ 1 <= i1 /\ i1 < rows /\ j2 + 1 < cols) \/
  (i1 = i2 + 1 /\ j2 = j1 + 1 /\ i2 + 1 < rows /\ j1 + 1 < cols).

Section Grid.
Variables rows cols : nat.

Lemma in_csurface_dedges (e : cell * cell) :
  In e (flat_map dedges (csurface rows cols)) <->
  exists i j, i + 1 < rows /\ j + 1 < cols /\ In e (flat_map dedges (cquad i j)).
Proof.
  unfold csurface. rewrite !flat_map_flat_map, in_flat_map. split.
  - intros (i & Hi & He). rewrite flat_map_flat_map in He.
    apply in_flat_map in He as (j & Hj & He).
    apply in_seq in Hi, Hj. exists i, j. repeat split; try lia. exact He.
  - intros (i & j & Hi & Hj & He). exists i. split; [apply in_seq; lia|].
    rewrite flat_map_flat_map. apply in_flat_map.
    exists j. split; [apply in_seq; lia|exact He].
Qed.

Lemma in_csurface_pat i1 j1 i2 j2 :
  In ((i1, j1), (i2, j2)) (flat_map dedges (csurface rows cols)) <->
  pat rows cols i1 j1 i2 j2.
Proof.
  rewrite in_csurface_dedges. unfold pat. split.
  - intros (i & j & Hi & Hj & He). simpl in He.
    destruct He as [He|[He|[He|[He|[He|[He|[]]]]]]]; inversion He; subst.
    + left. lia.
    + right; left. lia.
    + do 2 right; left. lia.
    + do 3 right; left. lia.
    + do 4 right; left. lia.
    + do 5 right. lia.
  - intros [H0|[H0|[H0|[H0|[H0|H0]]]]].
    + exists i1, j1. destruct H0 as (-> & -> & ? & ?).
      repeat split; [assumption|assumption|simpl; auto 10].
    + exists i1, j2. destruct H0 as (-> & -> & ? & ?).
      repeat split; [assumption|assumption|simpl; auto 10].
    + exists i2, j2. destruct H0 as (-> & -> & ? & ?).
      repeat split; [assumption|assumption|simpl; auto 10].
    + destruct j1 as [|j]; [lia|]. exists i1, j. destruct H0 as (-> & -> & ? & ? & ?).
      repeat split; [assumption|lia|]. replace (S j) with (j + 1) by lia.
      simpl; auto 10.
    + destruct i1 as [|i]; [lia|]. exists i, j2. destruct H0 as (-> & -> & ? & ? & ?).
      repeat split; [lia|assumption|]. replace (S i) with (i + 1) by lia.
      simpl; auto 10.
    + exists i2, j1. destruct H0 as (-> & -> & ? & ?).
      repeat split; [assumption|assumption|simpl; auto 10].
Qed.

Lemma csurface_distinct : Forall tri_distinct (csurface rows cols).
Proof.
  apply Forall_forall. intros f Hf. unfold csurface in Hf.
  apply in_flat_map in Hf as (i & _ & Hf). apply in_flat_map in Hf as (j & _ & Hf).
  destruct Hf as [<-|[<-|[]]]; unfold tri_distinct; repeat split;
    intros Hc; inversion Hc; lia.
Qed.

Lemma cquad_dedges_nodup i j : NoDup (flat_map dedges (cquad i j)).
Proof.
  simpl.
  repeat (apply NoDup_cons;
    [simpl; intros Hc;
     repeat (destruct Hc as [Hc|Hc]; [inversion Hc; lia|]); exact Hc|]).
  apply NoDup_nil.
Qed.

Lemma cquad_dedges_disjoint i j i' j' e :
  In e (flat_map dedges (cquad i j)) -> In e (flat_map dedges (cquad i' j')) ->
  i = i' /\ j = j'.
Proof.
  simpl. intros H1 H2.
  destruct H1 as [H1|[H1|[H1|[H1|[H1|[H1|[]]]]]]]; subst e;
  destruct H2 as [H2|[H2|[H2|[H2|[H2|[H2|[]]]]]]]; inversion H2; lia.
Qed.

Lemma csurface_dedges_nodup : NoDup (flat_map dedges (csurface rows cols)).
Proof.
  unfold csurface. rewrite flat_map_flat_map.
  apply NoDup_flat_map_disjoint.
  - apply seq_NoDup.
  - intros i _. rewrite flat_map_flat_map. apply NoDup_flat_map_disjoint.
    + apply seq_NoDup.
    + intros j _. apply cquad_dedges_nodup.
    + intros j j' e _ _ H1 H2.
      destruct (cquad_dedges_disjoint i j i j' e H1 H2) as [_ ?]. assumption.
  - intros i i' e _ _ H1 H2. rewrite flat_map_flat_map in H1, H2.
    apply in_flat_map in H1 as (j & _ & H1). apply in_flat_map in H2 as (j' & _ & H2).
    destruct (cquad_dedges_disjoint i j i' j' e H1 H2) as [? _]. assumption.
Qed.

Lemma nth_map_seq {A} (g : nat -> A) (a n k : nat) (d : A) :
  k < n -> nth k (map g (seq a n)) d = g (a + k).
Proof.
  intros Hk. rewrite (nth_indep _ d (g 0)) by (rewrite length_map, length_seq; lia).
  rewrite map_nth, seq_nth by lia. reflexivity.
Qed.

Lemma nth_map_rev_seq {A} (g : nat -> A) (a n k : nat) (d : A) :
  k < n -> nth k (map g (rev (seq a n))) d = g (a + (n - 1 - k)).
Proof.
  intros Hk.
  rewrite (nth_indep _ d (g 0)) by (rewrite length_map, length_rev, length_seq; lia).
  rewrite map_nth, rev_nth by (rewrite length_seq; lia).
  rewrite length_seq, seq_nth by lia. f_equal. lia.
Qed.

Hypothesis Hrows : 2 <= rows.
Hypothesis Hcols : 2 <= cols.

Lemma cloop_length : length (cloop rows cols) + 4 = 2 * cols + 2 * rows.
Proof.
  unfold cloop. destruct (Nat.ltb_spec 1 rows) as [_|?]; [|lia].
  rewrite !length_app, !length_map, !length_rev, !length_seq. lia.
Qed.

(** The cell the boundary walk visits at step [k]. *)
Lemma cloop_nth (k : nat) (d : cell) :
  k + 4 < 2 * cols + 2 * rows ->
  exists i j, nth k (cloop rows cols) d = (i, j) /\
    ((k < cols /\ i = 0 /\ j = k) \/
     (cols <= k /\ k + 2 < cols + rows /\ i + cols = k + 1 /\ j + 1 = cols) \/
     (cols + rows <= k + 2 /\ k + 2 < 2 * cols + rows /\
      i + 1 = rows /\ j + k + 3 = 2 * cols + rows) \/
     (2 * cols + rows <= k + 2 /\ i + k + 4 = 2 * rows + 2 * cols /\ j = 0)).
Proof.
  intros Hk. unfold cloop. destruct (Nat.ltb_spec 1 rows) as [_|?]; [|lia].
  destruct (Nat.lt_ge_cases k cols) as [H1|H1].
  { exists 0, k. split; [|left; lia].
    rewrite app_nth1 by (rewrite length_map, length_seq; lia).
    rewrite nth_map_seq by lia. reflexivity. }
  rewrite app_nth2 by (rewrite length_map, length_seq; lia).
  rewrite length_map, length_seq.
  destruct (Nat.lt_ge_cases (k + 2) (cols + rows)) as [H2|H2].
  { exists (k - cols + 1), (cols - 1). split; [|right; left; lia].
    rewrite app_nth1 by (rewrite length_map, length_seq; lia).
    rewrite nth_map_seq by lia. f_equal. lia. }
  rewrite app_nth2 by (rewrite length_map, length_seq; lia).
  rewrite length_map, length_seq.
  destruct (Nat.lt_ge_cases (k + 2) (2 * cols + rows)) as [H3|H3].
  { exists (rows - 1), (2 * cols + rows - 3 - k). split; [|do 2 right; left; lia].
    rewrite app_nth1 by (rewrite length_map, length_rev, length_seq; lia).
    rewrite nth_map_rev_seq by lia. f_equal. lia. }
  rewrite app_nth2 by (rewrite length_map, length_rev, length_seq; lia).
  rewrite length_map, length_rev, length_seq.
  exists (2 * rows + 2 * cols - 4 - k), 0. split; [|do 3 right; lia].
  rewrite nth_map_rev_seq by lia. f_equal. lia.
Qed.

Lemma cloop_nodup : NoDup (cloop rows cols).
Proof.
  apply (NoDup_nth _ (0, 0)). intros a b Ha Hb Heq.
  pose proof cloop_length as Hlen.
  destruct (cloop_nth a (0, 0) ltac:(lia)) as (i & j & Ea & Ca).
  destruct (cloop_nth b (0, 0) ltac:(lia)) as (i' & j' & Eb & Cb).
  rewrite Ea, Eb in Heq. inversion Heq. subst i' j'. clear Heq Ea Eb.
  destruct Ca as [Ca|[Ca|[Ca|Ca]]]; destruct Cb as [Cb|[Cb|[Cb|Cb]]]; lia.
Qed.

Lemma cloop_succ (k : nat) :
  k + 4 < 2 * cols + 2 * rows ->
  (k + 5 < 2 * cols + 2 * rows /\ succ_idx (cloop rows cols) k = k + 1) \/
  (k + 5 = 2 * cols + 2 * rows /\ succ_idx (cloop rows cols) k = 0).
Proof.
  intros Hk. pose proof cloop_length as Hlen.
  destruct (succ_idx_spec (cloop rows cols) k ltac:(lia)) as [[? ?]|[? ?]];
    [left|right]; split; (lia || assumption).
Qed.

Ltac pat_solve :=
  unfold pat;
  first [ left; lia | right; left; lia | do 2 right; left; lia
        | do 3 right; left; lia | do 4 right; left; lia | do 5 right; lia ].

Ltac pat_refute :=
  let H0 := fresh in
  unfold pat; intros [H0|[H0|[H0|[H0|[H0|H0]]]]]; lia.

(** The walk, read two consecutive steps at a time. *)
Lemma cloop_step (k : nat) :
  k + 4 < 2 * cols + 2 * rows ->
  exists i j i' j',
    nth k (cloop rows cols) (0, 0) = (i, j) /\
    nth (succ_idx (cloop rows cols) k) (cloop rows cols) (0, 0) = (i', j') /\
    ((i = 0 /\ j + 1 < cols /\ j = k /\ i' = 0 /\ j' = j + 1) \/
     (j + 1 = cols /\ i + 1 < rows /\ i + cols = k + 1 /\ i' = i + 1 /\ j' = j) \/
     (i + 1 = rows /\ 1 <= j < cols /\ j + k + 3 = 2 * cols + rows /\
      i' = i /\ j' + 1 = j) \/
     (j = 0 /\ 1 <= i < rows /\ i + k + 4 = 2 * rows + 2 * cols /\
      i' + 1 = i /\ j' = 0)).
Proof.
  intros Hk.
  destruct (cloop_nth k (0, 0) Hk) as (i & j & Ek & Ck).
  assert (Hs : succ_idx (cloop rows cols) k + 4 < 2 * cols + 2 * rows).
  { destruct (cloop_succ k Hk) as [[? ->]|[? ->]]; lia. }
  destruct (cloop_nth _ (0, 0) Hs) as (i' & j' & Es & Cs).
  exists i, j, i', j'. split; [exact Ek|]. split; [exact Es|]. clear Ek Es Hs.
  destruct (cloop_succ k Hk) as [[? Hn]|[? Hn]]; rewrite Hn in Cs; clear Hn;
    destruct Ck as [Ck|[Ck|[Ck|Ck]]]; destruct Cs as [Cs|[Cs|[Cs|Cs]]];
    first [ exfalso; lia | left; lia | right; left; lia
          | do 2 right; left; lia | do 3 right; lia ].
Qed.

(** Consecutive cells of the walk span a boundary edge of the surface, in the
    direction the surface triangle winds it. *)
Lemma cloop_boundary_in (k : nat) :
  k < length (cloop rows cols) ->
  In (nth k (cloop rows cols) (0, 0),
      nth (succ_idx (cloop rows cols) k) (cloop rows cols) (0, 0))
     (flat_map dedges (csurface rows cols)) /\
  ~ In (nth (succ_idx (cloop rows cols) k) (cloop rows cols) (0, 0),
        nth k (cloop rows cols) (0, 0))
       (flat_map dedges (csurface rows cols)).
Proof.
  intros Hk. pose proof cloop_length as Hlen.
  destruct (cloop_step k ltac:(lia)) as (i & j & i' & j' & -> & -> & C).
  rewrite !in_csurface_pat. clear Hk Hlen.
  destruct C as [C|[C|[C|C]]]; (split; [pat_solve|pat_refute]).
Qed.

Lemma cloop_edge_at (k i1 j1 i2 j2 : nat) :
  k + 4 < 2 * cols + 2 * rows ->
  ((i1 = 0 /\ j1 + 1 < cols /\ j1 = k /\ i2 = 0 /\ j2 = j1 + 1) \/
   (j1 + 1 = cols /\ i1 + 1 < rows /\ i1 + cols = k + 1 /\ i2 = i1 + 1 /\ j2 = j1) \/
   (i1 + 1 = rows /\ 1 <= j1 < cols /\ j1 + k + 3 = 2 * cols + rows /\
    i2 = i1 /\ j2 + 1 = j1) \/
   (j1 = 0 /\ 1 <= i1 < rows /\ i1 + k + 4 = 2 * rows + 2 * cols /\
    i2 + 1 = i1 /\ j2 = 0)) ->
  exists k0, k0 < length (cloop rows cols) /\
    (i1, j1) = nth k0 (cloop rows cols) (0, 0) /\
    (i2, j2) = nth (succ_idx (cloop rows cols) k0) (cloop rows cols) (0, 0).
Proof.
  intros Hk C. pose proof cloop_length as Hlen. exists k. split; [lia|].
  destruct (cloop_step k Hk) as (i & j & i' & j' & -> & -> & C').
  clear Hlen.
  destruct C as [C|[C|[C|C]]]; destruct C' as [C'|[C'|[C'|C']]];
    split; f_equal; lia.
Qed.

(** Every directed surface edge is either matched by its reverse inside the
    surface or spans two consecutive cells of the boundary walk. *)
Lemma csurface_interior_or_boundary (a b : cell) :
  In (a, b) (flat_map dedges (csurface rows cols)) ->
  In (b, a) (flat_map dedges (csurface rows cols)) \/
  exists k, k < length (cloop rows cols) /\
    a = nth k (cloop rows cols) (0, 0) /\
    b = nth (succ_idx (cloop rows cols) k) (cloop rows cols) (0, 0).
Proof.
  destruct a as [i1 j1], b as [i2 j2]. rewrite !in_csurface_pat.
  intros [Hp|[Hp|[Hp|[Hp|[Hp|Hp]]]]].
  - destruct (Nat.eq_dec i1 0) as [Hz|Hz].
    + right. apply (cloop_edge_at j1); [lia|left; lia].
    + left. pat_solve.
  - left. pat_solve.
  - destruct (Nat.eq_dec j1 0) as [Hz|Hz].
    + right. apply (cloop_edge_at (2 * rows + 2 * cols - 4 - i1)); [lia|do 3 right; lia].
    + left. pat_solve.
  - destruct (Nat.eq_dec (j1 + 1) cols) as [Hz|Hz].
    + right. apply (cloop_edge_at (cols + i1 - 1)); [lia|right; left; lia].
    + left. pat_solve.
  - destruct (Nat.eq_dec (i1 + 1) rows) as [Hz|Hz].
    + right. apply (cloop_edge_at (2 * cols + rows - 3 - j1)); [lia|do 2 right; left; lia].
    + left. pat_solve.
  - left. pat_solve.
Qed.

(** The solid over the grid, in cell coordinates, is watertight. *)
Lemma cprism_watertight :
  watertight (prism (csurface rows cols) (cloop rows cols) (0, 0)).
Proof.
  apply prism_watertight.
  - apply csurface_distinct.
  - apply csurface_dedges_nodup.
  - apply cloop_nodup.
  - apply csurface_interior_or_boundary.
  - apply cloop_boundary_in.
Qed.
End Grid.

(** ** Renaming vertices

    Face counts around an edge survive a renaming of the vertices that is
    injective on the vertices in use. *)

Definition map_face {V W : Type} (g : V -> W) (f : V * V * V) : W * W * W :=
  let '(x, y, z) := f in (g x, g y, g z).

Definition face_vertices {V : Type} (f : V * V * V) : list V :=
  let '(x, y, z) := f in [x; y; z].

Section Rename.
Context {V W : Type} `{EqDecision V} `{EqDecision W}.
Variables (g : V -> W) (Dom : V -> Prop).
Hypothesis g_inj : forall x y, Dom x -> Dom y -> g x = g y -> x = y.

Lemma same_edge_rename a b x y :
  Dom a -> Dom b -> Dom x -> Dom y ->
  same_edge (g a) (g b) (g x) (g y) = same_edge a b x y.
Proof.
  intros Ha Hb Hx Hy. unfold same_edge. f_equal; apply bool_decide_ext; split.
  - intros [H1 H2]. split; apply g_inj; assumption.
  - intros [-> ->]. split; reflexivity.
  - intros [H1 H2]. split; apply g_inj; assumption.
  - intros [-> ->]. split; reflexivity.
Qed.

Lemma has_edge_rename a b f :
  Dom a -> Dom b -> Forall Dom (face_vertices f) ->
  has_edge (g a) (g b) (map_face g f) = has_edge a b f.
Proof.
  destruct f as [[x y] z]. intros Ha Hb Hf. simpl in Hf.
  inversion Hf as [|? ? Hx Hf1]; subst. inversion Hf1 as [|? ? Hy Hf2]; subst.
  inversion Hf2 as [|? ? Hz _]; subst.
  unfold has_edge. simpl. rewrite !same_edge_rename by assumption. reflexivity.
Qed.

Lemma edge_face_count_rename a b fs :
  Dom a -> Dom b -> Forall (fun f => Forall Dom (face_vertices f)) fs ->
  edge_face_count (g a) (g b) (map (map_face g) fs) = edge_face_count a b fs.
Proof.
  intros Ha Hb. induction 1 as [|f fs Hf _ IH]; simpl; [reflexivity|].
  rewrite has_edge_rename, IH by assumption. reflexivity.
Qed.

Lemma dedges_in_vertices (a b : V) (f : V * V * V) :
  In (a, b) (dedges f) -> In a (face_vertices f) /\ In b (face_vertices f).
Proof.
  destruct f as [[x y] z]. simpl.
  intros [H1|[H1|[H1|[]]]]; inversion H1; subst; auto.
Qed.

Lemma watertight_rename fs :
  Forall (fun f => Forall Dom (face_vertices f)) fs ->
  watertight fs -> watertight (map (map_face g) fs).
Proof.
  intros Hdom Hw f' Hf' a' b' Hab.
  apply in_map_iff in Hf' as (f & <- & Hf).
  assert (Hfd : Forall Dom (face_vertices f)).
  { rewrite Forall_forall in Hdom. apply Hdom. exact Hf. }
  assert (Hex : exists a b, a' = g a /\ b' = g b /\ In (a, b) (dedges f)).
  { destruct f as [[x y] z]. simpl in Hab.
    destruct Hab as [H1|[H1|[H1|[]]]]; inversion H1; subst;
      eexists _, _; (split; [reflexivity|]); (split; [reflexivity|]); simpl; auto. }
  destruct Hex as (a & b & -> & -> & Hin).
  destruct (dedges_in_vertices a b f Hin) as [Hva Hvb].
  rewrite Forall_forall in Hfd.
  rewrite edge_face_count_rename; [|apply Hfd; assumption|apply Hfd; assumption|assumption].
  apply (Hw f Hf a b Hin).
Qed.
End Rename.

(** ** The solid of [_add_base], over row-major indices *)

(** [_get_ordered_boundary_indices]: top row left to right, right column
    downwards without its corners, bottom row right to left (guarded by
    [rows > 1]), left column upwards without its corners. *)
Definition _get_ordered_boundary_indices (rows cols : nat) : list nat :=
  seq 0 cols
  ++ map (fun i => i * cols + (cols - 1)) (seq 1 (rows - 2))
  ++ (if 1 <? rows
      then map (fun j => (rows - 1) * cols + j) (rev (seq 0 cols))
      else [])
  ++ map (fun i => i * cols) (rev (seq 1 (rows - 2))).

(** [_add_base], the wall loop: two triangles per consecutive pair of the
    boundary, the pair after the last wrapping to the first. [n] is
    [len(surface_vertices)]. *)
Definition side_faces (n : nat) (boundary_indices : list nat) : list face :=
  flat_map (fun i =>
              let next_i := (i + 1) mod length boundary_indices in
              let v1 := nth i boundary_indices 0 in
              let v2 := nth next_i boundary_indices 0 in
              let v3 := v1 + n in
              let v4 := v2 + n in
              [(v1, v2, v3); (v2, v4, v3)])
           (seq 0 (length boundary_indices)).

(** [_add_base]: [base_faces = faces + n], then columns [[0, 2, 1]]. *)
Definition base_faces (n : nat) (faces : list face) : list face :=
  map (fun f => let '(a, b, c) := f in (a + n, c + n, b + n)) faces.

(** [_add_base]: [np.vstack([faces, side_faces, base_faces])]. *)
Definition add_base_faces (rows cols n : nat) (faces : list face) : list face :=
  faces
  ++ side_faces n (_get_ordered_boundary_indices rows cols)
  ++ base_faces n faces.

(** Row-major index of a prism vertex: surface block first, floor block
    after it. *)
Definition vidx (cols n : nat) (v : bool * cell) : nat :=
  let '(b, (i, j)) := v in if b then i * cols + j + n else i * cols + j.

Definition vdom (rows cols : nat) (v : bool * cell) : Prop :=
  let '(_, (i, j)) := v in i < rows /\ j < cols.

Lemma map_flat_map {A B C} (f : A -> list B) (g : B -> C) (l : list A) :
  map g (flat_map f l) = flat_map (fun x => map g (f x)) l.
Proof.
  induction l as [|x l IH]; simpl; [reflexivity|].
  rewrite map_app, IH. reflexivity.
Qed.

Lemma nth_map_default {A B} (g : A -> B) (l : list A) (k : nat) (d : A) (d' : B) :
  g d = d' -> nth k (map g l) d' = g (nth k l d).
Proof. intros <-. apply map_nth. Qed.

Lemma cloop_indices (rows cols : nat) :
  map (fun c : cell => fst c * cols + snd c) (cloop rows cols) =
  _get_ordered_boundary_indices rows cols.
Proof.
  unfold cloop, _get_ordered_boundary_indices.
  rewrite !map_app. f_equal; [|f_equal; [|f_equal]].
  - rewrite map_map. simpl. apply map_id.
  - rewrite map_map. reflexivity.
  - destruct (1 <? rows); [|reflexivity]. rewrite map_map. reflexivity.
  - rewrite map_map. apply map_ext. intros i. simpl. lia.
Qed.

Lemma csurface_indices (rows cols : nat) :
  map (map_face (fun c : cell => fst c * cols + snd c)) (csurface rows cols) =
  surface_faces rows cols.
Proof.
  unfold csurface, surface_faces. rewrite map_flat_map.
  apply flat_map_ext. intros i. rewrite map_flat_map.
  apply flat_map_ext. intros j. reflexivity.
Qed.

Lemma prism_indices (rows cols n : nat) :
  map (map_face (vidx cols n)) (prism (csurface rows cols) (cloop rows cols) (0, 0)) =
  add_base_faces rows cols n (surface_faces rows cols).
Proof.
  unfold prism, add_base_faces. rewrite !map_app. f_equal; [|f_equal].
  - rewrite <- csurface_indices, !map_map. apply map_ext.
    intros [[[i1 j1] [i2 j2]] [i3 j3]]. reflexivity.
  - unfold prism_walls, side_faces. rewrite map_flat_map.
    rewrite <- cloop_indices, length_map.
    apply flat_map_ext. intros k. unfold prism_wall, succ_idx.
    rewrite !(nth_map_default _ _ _ (0, 0)) by reflexivity.
    destruct (nth k (cloop rows cols) (0, 0)) as [i j].
    destruct (nth ((k + 1) mod length (cloop rows cols)) (cloop rows cols) (0, 0))
      as [i' j'].
    reflexivity.
  - unfold base_faces. rewrite <- csurface_indices, !map_map. apply map_ext.
    intros [[[i1 j1] [i2 j2]] [i3 j3]]. reflexivity.
Qed.

Lemma row_major_inj (cols i j i' j' : nat) :
  j < cols -> j' < cols -> i * cols + j = i' * cols + j' -> i = i' /\ j = j'.
Proof.
  intros Hj Hj' Heq.
  assert (i = i').
  { destruct (Nat.lt_trichotomy i i') as [Hlt|[Heq'|Hgt]]; [|exact Heq'|]; exfalso; nia. }
  subst i'. split; [reflexivity|lia].
Qed.

Lemma vidx_inj (rows cols : nat) (x y : bool * cell) :
  vdom rows cols x -> vdom rows cols y ->
  vidx cols (rows * cols) x = vidx cols (rows * cols) y -> x = y.
Proof.
  destruct x as [b [i j]], y as [b' [i' j']]. unfold vdom, vidx.
  intros [Hi Hj] [Hi' Hj'] Heq.
  pose proof (cell_index_lt rows cols i j Hi Hj) as B.
  pose proof (cell_index_lt rows cols i' j' Hi' Hj') as B'.
  destruct b, b'; try (exfalso; lia);
    destruct (row_major_inj cols i j i' j' Hj Hj' ltac:(lia)) as [-> ->]; reflexivity.
Qed.

Lemma cprism_vertices_valid (rows cols : nat) :
  2 <= rows -> 2 <= cols ->
  Forall (fun f => Forall (vdom rows cols) (face_vertices f))
         (prism (csurface rows cols) (cloop rows cols) (0, 0)).
Proof.
  intros Hr Hc.
  assert (Hs : forall b f, In f (csurface rows cols) ->
               Forall (vdom rows cols) (face_vertices (lift_face b f))).
  { intros b f Hf. unfold csurface in Hf.
    apply in_flat_map in Hf as (i & Hi & Hf). apply in_flat_map in Hf as (j & Hj & Hf).
    apply in_seq in Hi, Hj.
    destruct Hf as [<-|[<-|[]]]; simpl; repeat constructor; lia. }
  unfold prism. rewrite !Forall_app. split; [|split].
  - apply Forall_forall. intros f Hf. apply in_map_iff in Hf as (f0 & <- & Hf0).
    apply Hs. exact Hf0.
  - apply Forall_forall. intros f Hf. unfold prism_walls in Hf.
    apply in_flat_map in Hf as (k & Hk & Hf). apply in_seq in Hk.
    pose proof (cloop_length rows cols Hr Hc) as Hlen.
    destruct (cloop_step rows cols Hr Hc k ltac:(lia))
      as (i & j & i' & j' & Ek & Es & C).
    unfold prism_wall in Hf. rewrite Ek, Es in Hf.
    assert (i < rows /\ j < cols /\ i' < rows /\ j' < cols) as (? & ? & ? & ?)
      by (destruct C as [C|[C|[C|C]]]; lia).
    destruct Hf as [<-|[<-|[]]]; simpl; repeat constructor; assumption.
  - apply Forall_forall. intros f Hf. apply in_map_iff in Hf as (f1 & <- & Hf1).
    apply in_map_iff in Hf1 as (f0 & <- & Hf0).
    specialize (Hs true f0 Hf0). destruct f0 as [[x y] z]. simpl in *.
    inversion Hs as [|? ? Hx Hs1]; subst. inversion Hs1 as [|? ? Hy Hs2]; subst.
    inversion Hs2 as [|? ? Hz _]; subst. repeat constructor; assumption.
Qed.

(** The face set [_add_base] assembles over a rows x cols grid of surface
    vertices is watertight. *)
Lemma solid_faces_watertight (rows cols : nat) :
  2 <= rows -> 2 <= cols ->
  watertight (add_base_faces rows cols (rows * cols) (surface_faces rows cols)).
Proof.
  intros Hr Hc. rewrite <- prism_indices.
  apply (watertight_rename (vidx cols (rows * cols)) (vdom rows cols)).
  - apply vidx_inj.
  - apply cprism_vertices_valid; assumption.
  - apply cprism_watertight; assumption.
Qed.

(** ** Python exceptions *)

Inductive exn : Type :=
| ValueError (msg : string)
| IndexError (msg : string)
| ZeroDivisionError (msg : string).

(** A computation that returns a value or raises: [inl e] is [raise e]. *)
Definition result (A : Type) : Type := (exn + A)%type.

Definition ret {A : Type} (x : A) : result A := inr x.

Definition raise {A : Type} (e : exn) : result A := inl e.

Definition bind {A B : Type} (c : result A) (k : A -> result B) : result B :=
  match c with
  | inl e => inl e
  | inr x => k x
  end.

Notation "x <- c ;; k" := (bind c (fun x => k))
  (at level 20, c at level 99, k at level 200, only parsing).
Notation "' p <- c ;; k" := (bind c (fun x => let 'p := x in k))
  (at level 20, p pattern, c at level 99, k at level 200, only parsing).

Definition returns {A : Type} (c : result A) : Prop := exists x, c = inr x.

(** ** Numbers

    The arithmetic the generators use on numpy float64 values. *)

Class Scalar (F : Type) : Type := {
  fzero : F;
  of_Z : Z -> F;                (* int -> float conversion *)
  fadd : F -> F -> F;
  fsub : F -> F -> F;
  fmul : F -> F -> F;
  fdiv : F -> F -> F;           (* numpy division: never raises *)
  fabs : F -> F;
  fle : F -> F -> bool;
  flt : F -> F -> bool;
  feq : F -> F -> bool;
  fisnan : F -> bool;           (* np.isnan *)
  flt_inf : F -> bool           (* x < float('inf') *)
}.

(** Exact rationals: the real numbers the specification reasons with. There
    is no NaN and no infinity; a division by zero, which numpy answers with
    an infinity or NaN, has no faithful value here (Rocq's [Qdiv] gives 0), so
    results about this instance are stated for non-zero divisors. *)
#[export] Instance Q_scalar : Scalar Q := {|
  fzero := 0%Q;
  of_Z := inject_Z;
  fadd := Qplus;
  fsub := Qminus;
  fmul := Qmult;
  fdiv := Qdiv;
  fabs := Qabs;
  fle := Qle_bool;
  flt := fun x y => negb (Qle_bool y x);
  feq := Qeq_bool;
  fisnan := fun _ => false;
  flt_inf := fun _ => true
|}.

Definition float_of_Z (z : Z) : PrimFloat.float :=
  match z with
  | Z0 => PrimFloat.zero
  | Zpos _ => PrimFloat.of_uint63 (Uint63.of_Z z)
  | Zneg p => PrimFloat.opp (PrimFloat.of_uint63 (Uint63.of_Z (Zpos p)))
  end.

(** IEEE binary64, as numpy computes (integers below 2^63 in magnitude). *)
#[export] Instance float_scalar : Scalar PrimFloat.float := {|
  fzero := PrimFloat.zero;
  of_Z := float_of_Z;
  fadd := PrimFloat.add;
  fsub := PrimFloat.sub;
  fmul := PrimFloat.mul;
  fdiv := PrimFloat.div;
  fabs := PrimFloat.abs;
  fle := PrimFloat.leb;
  flt := PrimFloat.ltb;
  feq := PrimFloat.eqb;
  fisnan := PrimFloat.is_nan;
  flt_inf := fun x => PrimFloat.ltb x PrimFloat.infinity
|}.

(** Rounding to integers, used by height stepping and vertex colouring. *)
Class RoundScalar (F : Type) : Type := {
  np_round : F -> F;            (* np.round: to nearest, ties to even *)
  floor_int : F -> Z;           (* np.floor(x).astype(int) *)
  trunc_int : F -> Z            (* int(x): towards zero *)
}.

Definition Qround_half_even (q : Q) : Z :=
  let f := Qfloor q in
  let r := (q - inject_Z f)%Q in
  if Qle_bool r (1 # 2)
  then (if Qeq_bool r (1 # 2) then (if Z.even f then f else (f + 1)%Z) else f)
  else (f + 1)%Z.

Definition Qtrunc (q : Q) : Z :=
  if Qle_bool 0 q then Qfloor q else Qceiling q.

#[export] Instance Q_round : RoundScalar Q := {|
  np_round := fun q => inject_Z (Qround_half_even q);
  floor_int := Qfloor;
  trunc_int := Qtrunc
|}.

(** ** Arrays *)

Section Arrays.
Context {F : Type} `{Scalar F}.

Definition grid : Type := list (list F).

Definition shape (g : grid) : nat * nat := (length g, length (hd [] g)).

Definition gget (g : grid) (i j : nat) : F := nth j (nth i g []) fzero.

Definition grid_map (f : F -> F) (g : grid) : grid := map (map f) g.

(** Python's builtin [min(a, b)]: the first argument unless the second is
    strictly smaller. *)
Definition py_min (a b : F) : F := if flt b a then b else a.

(** [np.minimum] and [np.maximum] on two scalars: NaN propagates. *)
Definition np_minimum (a b : F) : F :=
  if fisnan a then a else if fisnan b then b else if flt b a then b else a.

Definition np_maximum (a b : F) : F :=
  if fisnan a then a else if fisnan b then b else if flt a b then b else a.

(** [np.min] and [np.max] over a whole array; an empty array raises
    [ValueError]. *)
Definition np_min (g : grid) : result F :=
  match concat g with
  | [] => raise
      (ValueError "zero-size array to reduction operation minimum which has no identity")
  | x :: xs => ret (fold_left np_minimum xs x)
  end.

Definition np_max (g : grid) : result F :=
  match concat g with
  | [] => raise
      (ValueError "zero-size array to reduction operation maximum which has no identity")
  | x :: xs => ret (fold_left np_maximum xs x)
  end.

(** [np.nanmin] and [np.nanmax]: NaN entries are skipped; an all-NaN array
    gives NaN (with a warning), an empty one raises. *)
Definition np_nanmin (g : grid) : result F :=
  match concat g with
  | [] => raise
      (ValueError "zero-size array to reduction operation fmin which has no identity")
  | x :: xs =>
      match filter (fun v => negb (fisnan v)) (x :: xs) with
      | [] => ret x
      | y :: ys => ret (fold_left np_minimum ys y)
      end
  end.

Definition np_nanmax (g : grid) : result F :=
  match concat g with
  | [] => raise
      (ValueError "zero-size array to reduction operation fmax which has no identity")
  | x :: xs =>
      match filter (fun v => negb (fisnan v)) (x :: xs) with
      | [] => ret x
      | y :: ys => ret (fold_left np_maximum ys y)
      end
  end.
End Arrays.

Arguments grid F : clear implicits.

(** ** Configuration ([config/parser.py]) *)

Record BoundsConfig (F : Type) : Type := {
  north : F;
  south : F;
  east : F;
  west : F
}.

Record LocationConfig (F : Type) : Type := {
  address : option string;
  radius_km : option F;
  bounds : option (BoundsConfig F)
}.

Record OutputConfig : Type := {
  filename : string;
  printer_bed_mm : Z;
  format : string
}.

Record HeightSteppingConfig (F : Type) : Type := {
  hs_enabled : bool;
  step_height_mm : F;
  smooth_transitions : bool
}.

Record ColorConfig (F : Type) : Type := {
  colors_enabled : bool;
  num_colors : Z;
  color_mode : string;
  color_names : option (list string);
  layer_thickness_mm : F
}.

Record TerrainConfig (F : Type) : Type := {
  resolution_meters : Z;
  vertical_exaggeration : F;
  base_thickness_mm : F;
  height_stepping : HeightSteppingConfig F;
  colors : ColorConfig F
}.

Record Config (F : Type) : Type := {
  location : LocationConfig F;
  output : OutputConfig;
  terrain : TerrainConfig F
}.

Arguments north {F}. Arguments south {F}. Arguments east {F}. Arguments west {F}.
Arguments address {F}. Arguments radius_km {F}. Arguments bounds {F}.
Arguments hs_enabled {F}. Arguments step_height_mm {F}.
Arguments smooth_transitions {F}.
Arguments colors_enabled {F}. Arguments num_colors {F}. Arguments color_mode {F}.
Arguments color_names {F}. Arguments layer_thickness_mm {F}.
Arguments resolution_meters {F}. Arguments vertical_exaggeration {F}.
Arguments base_thickness_mm {F}. Arguments height_stepping {F}. Arguments colors {F}.
Arguments location {F}. Arguments output {F}. Arguments terrain {F}.

(** ** The single-solid path ([mesh/generator.py]) *)

Section Generator.
Context {F : Type} `{Scalar F}.

Definition vertex : Type := F * F * F.

(** [_normalize_to_printer_bed]. The three ranges are computed first (the
    reductions raise on an empty array); the divisions are numpy float64
    divisions and do not raise. *)
Definition _normalize_to_printer_bed (config : Config F) (x_grid y_grid z_grid : grid F)
  : result (grid F * grid F * grid F) :=
  x_max <- np_max x_grid ;; x_min <- np_min x_grid ;;
  let x_range := fsub x_max x_min in
  y_max <- np_max y_grid ;; y_min <- np_min y_grid ;;
  let y_range := fsub y_max y_min in
  z_max <- np_max z_grid ;; z_min <- np_min z_grid ;;
  let z_range := fsub z_max z_min in
  let bed_size := (printer_bed_mm (output config) - 20)%Z in
  let scale_factor :=
    py_min (fdiv (of_Z bed_size) x_range) (fdiv (of_Z bed_size) y_range) in
  let x_grid_norm := grid_map (fun v => fmul (fsub v x_min) scale_factor) x_grid in
  let y_grid_norm := grid_map (fun v => fmul (fsub v y_min) scale_factor) y_grid in
  let z_grid_norm := grid_map (fun v => fmul (fsub v z_min) scale_factor) z_grid in
  xn_max <- np_max x_grid_norm ;;
  let x_offset :=
    fdiv (fsub (of_Z (printer_bed_mm (output config))) xn_max) (of_Z 2) in
  yn_max <- np_max y_grid_norm ;;
  let y_offset :=
    fdiv (fsub (of_Z (printer_bed_mm (output config))) yn_max) (of_Z 2) in
  ret (grid_map (fun v => fadd v x_offset) x_grid_norm,
       grid_map (fun v => fadd v y_offset) y_grid_norm,
       z_grid_norm).

(** [_create_surface_mesh]: one vertex per cell in row-major order, two
    triangles per quad. *)
Definition _create_surface_mesh (x_grid y_grid z_grid : grid F)
  : list vertex * list face :=
  let '(rows, cols) := shape x_grid in
  let vertices :=
    flat_map (fun i => map (fun j => (gget x_grid i j, gget y_grid i j, gget z_grid i j))
                           (seq 0 cols))
             (seq 0 rows) in
  (vertices, surface_faces rows cols).

(** [_add_base], the arrays it builds from a two-dimensional face array; the
    stored [self._grid_rows, self._grid_cols] travel as arguments. *)
Definition _add_base (grid_rows grid_cols : nat) (vf : list vertex * list face)
  : list vertex * list face :=
  let '(vertices, faces) := vf in
  let surface_vertices := vertices in
  let base_vertices := map (fun v => let '(x, y, _) := v in (x, y, fzero)) surface_vertices in
  let all_vertices := surface_vertices ++ base_vertices in
  (all_vertices, add_base_faces grid_rows grid_cols (length surface_vertices) faces).

(** The call [self._add_base(vertices, faces)].  Over a grid with a single row
    or a single column [_create_surface_mesh] appends no face and returns
    [np.array([])], which is one-dimensional, so that
    [base_faces[:, [0, 2, 1]]] raises [IndexError]; on a face array with at
    least one row the call returns the arrays of [_add_base]. *)
Definition call_add_base (grid_rows grid_cols : nat) (vf : list vertex * list face)
  : result (list vertex * list face) :=
  match snd vf with
  | [] =>
      raise (IndexError
               "too many indices for array: array is 1-dimensional, but 2 were indexed")
  | _ :: _ => ret (_add_base grid_rows grid_cols vf)
  end.

(** [generate_mesh] up to the hand-over to trimesh: projection to the bed,
    base thickness, surface, base.  The planar grids are the output of
    [_latlon_to_meters]. *)
Definition generate_solid (config : Config F) (x_grid y_grid elevation_grid : grid F)
  : result (list vertex * list face) :=
  let z_grid :=
    grid_map (fun e => fmul e (vertical_exaggeration (terrain config))) elevation_grid in
  '(x_grid_norm, y_grid_norm, z_grid_norm) <-
    _normalize_to_printer_bed config x_grid y_grid z_grid ;;
  let z_grid_norm :=
    grid_map (fun v => fadd v (base_thickness_mm (terrain config))) z_grid_norm in
  let vf := _create_surface_mesh x_grid_norm y_grid_norm z_grid_norm in
  let '(rows, cols) := shape x_grid_norm in
  call_add_base rows cols vf.


Lemma create_surface_mesh_faces (x y z : grid F) :
  snd (_create_surface_mesh x y z) = surface_faces (fst (shape x)) (snd (shape x)).
Proof. unfold _create_surface_mesh. destruct (shape x). reflexivity. Qed.

Lemma surface_faces_nonempty (rows cols : nat) :
  2 <= rows -> 2 <= cols -> surface_faces rows cols <> [].
Proof.
  intros Hr Hc Hnil. pose proof (surface_faces_length rows cols) as Hlen.
  rewrite Hnil in Hlen. simpl in Hlen. nia.
Qed.


(** The call of [_add_base] on the surface of a grid returns exactly when the
    grid has two rows and two columns at least. *)
Lemma call_add_base_returns (x y z : grid F) (rows cols : nat) :
  shape x = (rows, cols) -> 2 <= rows -> 2 <= cols ->
  call_add_base rows cols (_create_surface_mesh x y z) =
  inr (_add_base rows cols (_create_surface_mesh x y z)).
Proof.
  intros Hs Hr Hc. unfold call_add_base. rewrite create_surface_mesh_faces, Hs.
  cbn [fst snd]. pose proof (surface_faces_nonempty rows cols Hr Hc) as Hne.
  destruct (surface_faces rows cols); [congruence|reflexivity].
Qed.


Lemma create_surface_mesh_vertices (x y z : grid F) :
  length (fst (_create_surface_mesh x y z)) = fst (shape x) * snd (shape x).
Proof.
  unfold _create_surface_mesh. destruct (shape x) as [rows cols]. simpl.
  rewrite (length_flat_map_const _ _ cols).
  - rewrite length_seq. reflexivity.
  - intros i _. rewrite length_map, length_seq. reflexivity.
Qed.

(** C1: over a grid with rows, cols >= 2 the face set the solid builder
    assembles (surface, walls along the boundary walk, reversed floor) has
    every undirected edge on exactly two faces; the statement is about the
    output of [_add_base], before any repair. *)
Theorem solid_builder_watertight (x_grid y_grid z_grid : grid F) (rows cols : nat) :
  shape x_grid = (rows, cols) -> 2 <= rows -> 2 <= cols ->
  watertight (snd (_add_base rows cols (_create_surface_mesh x_grid y_grid z_grid))).
Proof.
  intros Hs Hr Hc.
  pose proof (create_surface_mesh_vertices x_grid y_grid z_grid) as Hlen.
  unfold _create_surface_mesh in *. rewrite Hs in *. simpl in *.
  rewrite Hlen. apply solid_faces_watertight; assumption.
Qed.
End Generator.

Lemma solid_builder_watertight_witness :
  watertight (snd (_add_base 2 3
    (_create_surface_mesh [[0; 1; 2]; [0; 1; 2]]%Q [[0; 0; 0]; [1; 1; 1]]%Q
                          [[5; 6; 7]; [5; 7; 9]]%Q))).
Proof.
  apply (solid_builder_watertight (F := Q)); [reflexivity|lia|lia].
Defined.

(** ** Configuration validation ([Config.validate]) and the entry point *)

Definition ascii_lower (c : Ascii.ascii) : Ascii.ascii :=
  let n := Ascii.nat_of_ascii c in
  if (65 <=? n) && (n <=? 90) then Ascii.ascii_of_nat (n + 32) else c.

(** [str.lower] on a string of ASCII characters: the letters A-Z are
    lowered and nothing else changes.  On other characters Python lowers by
    the Unicode tables (the Kelvin sign becomes k), which a byte string does
    not follow; [ascii_only] marks the strings on which the two agree. *)
Fixpoint str_lower (s : string) : string :=
  match s with
  | String.EmptyString => String.EmptyString
  | String.String c s' => String.String (ascii_lower c) (str_lower s')
  end.

Fixpoint ascii_only (s : string) : bool :=
  match s with
  | String.EmptyString => true
  | String.String c s' => (Ascii.nat_of_ascii c <? 128) && ascii_only s'
  end.

(** Python's [x in list] on strings. *)
Definition str_in (s : string) (l : list string) : bool :=
  existsb (String.eqb s) l.

(** Truth value of an [Optional[str]]: [None] and the empty string are
    false. *)
Definition truthy_str (s : option string) : bool :=
  match s with
  | Some s' => negb (String.eqb s' "")
  | None => false
  end.

Definition is_none {A : Type} (o : option A) : bool :=
  match o with
  | Some _ => false
  | None => true
  end.

(** [if c: raise ValueError(msg)]. *)
Definition raise_if (c : bool) (msg : string) : result unit :=
  if c then raise (ValueError msg) else ret tt.

Section Validate.
Context {F : Type} `{Scalar F}.

Definition validate_bounds (b : option (BoundsConfig F)) : result unit :=
  match b with
  | Some b =>
      _ <- raise_if (fle (north b) (south b))
             "North bound must be greater than south bound" ;;
      raise_if (fle (east b) (west b))
        "East bound must be greater than west bound"
  | None => ret tt
  end.

Definition validate_colors (c : ColorConfig F) : result unit :=
  if colors_enabled c then
    _ <- raise_if (negb ((1 <=? num_colors c)%Z && (num_colors c <=? 6)%Z))
           "Number of colors must be between 1 and 6" ;;
    raise_if (negb (str_in (color_mode c) ["elevation"; "slope"]))
      "Color mode must be 'elevation' or 'slope'"
  else ret tt.

Definition validate_height_stepping (h : HeightSteppingConfig F) : result unit :=
  if hs_enabled h then
    raise_if (fle (step_height_mm h) (of_Z 0)) "Step height must be positive"
  else ret tt.

Definition validate (config : Config F) : result unit :=
  let loc := location config in
  _ <- raise_if (is_none (address loc) && is_none (bounds loc))
         "Either address or bounds must be specified" ;;
  _ <- raise_if (truthy_str (address loc) && is_none (radius_km loc))
         "radius_km must be specified when using address" ;;
  _ <- raise_if (negb (is_none (bounds loc)) && truthy_str (address loc))
         "Cannot specify both address and bounds" ;;
  _ <- validate_bounds (bounds loc) ;;
  _ <- validate_colors (colors (terrain config)) ;;
  _ <- validate_height_stepping (height_stepping (terrain config)) ;;
  raise_if (negb (str_in (str_lower (format (output config)))
                         ["stl"; "3mf"; "amf"; "obj"]))
    "Output format must be one of: ['stl', '3mf', 'amf', 'obj']".

(** The stages [main] goes through after the cache commands, in order. *)
Inductive stage : Type :=
| StValidate
| StFetchElevation
| StGenerateMesh.

(** [main]: load, validate, fetch the elevation grid, generate.  The
    collaborators are parameters; any exception is re-raised as a
    [click.ClickException] carrying its message.  The first component is the
    list of stages entered. *)
Definition exn_message (e : exn) : string :=
  match e with
  | ValueError m => m
  | IndexError m => m
  | ZeroDivisionError m => m
  end.

Definition main {Grids Out : Type}
    (fetch_elevation_grid : Config F -> result Grids)
    (generate : Config F -> Grids -> result Out)
    (config : Config F) : list stage * (string + Out) :=
  match validate config with
  | inl e => ([StValidate], inl (exn_message e))
  | inr _ =>
      match fetch_elevation_grid config with
      | inl e => ([StValidate; StFetchElevation], inl (exn_message e))
      | inr grids =>
          match generate config grids with
          | inl e => ([StValidate; StFetchElevation; StGenerateMesh], inl (exn_message e))
          | inr out => ([StValidate; StFetchElevation; StGenerateMesh], inr out)
          end
      end
  end.

Definition num_colors_out_of_range (config : Config F) : Prop :=
  ~ (1 <= num_colors (colors (terrain config)) <= 6)%Z.

Definition step_height_non_positive (config : Config F) : Prop :=
  fle (step_height_mm (height_stepping (terrain config))) (of_Z 0) = true.

Definition bounds_invalid (config : Config F) : Prop :=
  exists b, bounds (location config) = Some b /\
            (fle (north b) (south b) = true \/ fle (east b) (west b) = true).

Definition fails {A : Type} (c : result A) : Prop := exists e, c = inl e.

Lemma bind_fails {A B : Type} (c : result A) (k : A -> result B) :
  fails c -> fails (bind c k).
Proof. intros [e ->]. exists e. reflexivity. Qed.

Lemma bind_fails_later {A B : Type} (c : result A) (k : A -> result B) :
  (forall x, fails (k x)) -> fails (bind c k).
Proof.
  intros Hk. destruct c as [e|x]; simpl; [exists e; reflexivity|apply Hk].
Qed.

Lemma validate_bounds_fails (config : Config F) :
  bounds_invalid config -> fails (validate_bounds (bounds (location config))).
Proof.
  intros (b & -> & Hb). unfold validate_bounds, raise_if.
  destruct (fle (north b) (south b)) eqn:Hns; simpl.
  - eexists; reflexivity.
  - destruct Hb as [Hb|Hb]; [discriminate|]. rewrite Hb. eexists; reflexivity.
Qed.

Lemma validate_colors_fails (config : Config F) :
  colors_enabled (colors (terrain config)) = true ->
  num_colors_out_of_range config ->
  fails (validate_colors (colors (terrain config))).
Proof.
  unfold num_colors_out_of_range, validate_colors, raise_if. intros -> Hn.
  destruct ((1 <=? num_colors (colors (terrain config)))%Z &&
            (num_colors (colors (terrain config)) <=? 6)%Z) eqn:Hr; simpl.
  - apply andb_true_iff in Hr as [H1 H2]. exfalso. apply Hn. lia.
  - eexists; reflexivity.
Qed.

Lemma validate_height_stepping_fails (config : Config F) :
  hs_enabled (height_stepping (terrain config)) = true ->
  step_height_non_positive config ->
  fails (validate_height_stepping (height_stepping (terrain config))).
Proof.
  unfold step_height_non_positive, validate_height_stepping, raise_if.
  intros -> ->. eexists; reflexivity.
Qed.

(** C9, as the code has it: validation raises when colours are enabled and
    [num_colors] is outside [1, 6], when height stepping is enabled and the
    step height is not positive, or when bounds are given and invalid; and
    [main] then stops at the validation stage, before the elevation grid is
    fetched or any mesh generated. *)
Theorem validate_rejects_enabled_settings
    {Grids Out : Type} (fetch : Config F -> result Grids)
    (generate : Config F -> Grids -> result Out) (config : Config F) :
  (colors_enabled (colors (terrain config)) = true /\ num_colors_out_of_range config) \/
  (hs_enabled (height_stepping (terrain config)) = true /\
   step_height_non_positive config) \/
  bounds_invalid config ->
  fails (validate config) /\
  exists msg, main fetch generate config = ([StValidate], inl msg).
Proof.
  intros Hbad.
  assert (Hf : fails (validate config)).
  { unfold validate.
    do 3 (apply bind_fails_later; intros _).
    destruct Hbad as [[He Hn]|[[He Hs]|Hb]].
    - apply bind_fails_later; intros _. apply bind_fails.
      apply validate_colors_fails; assumption.
    - do 2 (apply bind_fails_later; intros _). apply bind_fails.
      apply validate_height_stepping_fails; assumption.
    - apply bind_fails. apply validate_bounds_fails; assumption. }
  split; [exact Hf|]. destruct Hf as [e He]. unfold main. rewrite He.
  eexists; reflexivity.
Qed.
End Validate.

(** A configuration over valid bounds, with the dataclass defaults except for
    the fields passed in. *)
Definition example_config {F : Type} `{Scalar F}
    (colors_on : bool) (n : Z) (stepping_on smooth : bool) (step_mm vexag : F)
  : Config F := {|
  location := {| address := None; radius_km := None;
                 bounds := Some {| north := of_Z 46; south := of_Z 45;
                                   east := of_Z 8; west := of_Z 7 |} |};
  output := {| filename := "terrain.stl"; printer_bed_mm := 220; format := "stl" |};
  terrain := {| resolution_meters := 30;
                vertical_exaggeration := vexag;
                base_thickness_mm := of_Z 5;
                height_stepping := {| hs_enabled := stepping_on;
                                      step_height_mm := step_mm;
                                      smooth_transitions := smooth |};
                colors := {| colors_enabled := colors_on; num_colors := n;
                             color_mode := "elevation"; color_names := None;
                             layer_thickness_mm := of_Z 2 |} |}
|}.

(** Colours disabled and [num_colors = 9]. *)
Definition config_colors_off : Config Q := example_config false 9 false true 2%Q 2%Q.

(** The same with colours enabled. *)
Definition config_colors_on : Config Q := example_config true 9 false true 2%Q 2%Q.

(** C9 fails as stated: [num_colors = 9] is outside [1, 6], yet validation
    accepts the configuration, because colours are disabled. *)
Lemma validate_accepts_out_of_range_colors_when_disabled :
  num_colors_out_of_range config_colors_off /\
  validate config_colors_off = inr tt.
Proof.
  split; [unfold num_colors_out_of_range; simpl; lia|reflexivity].
Qed.

Lemma validate_rejects_enabled_settings_witness :
  ((colors_enabled (colors (terrain config_colors_on)) = true /\
    num_colors_out_of_range config_colors_on) \/
   (hs_enabled (height_stepping (terrain config_colors_on)) = true /\
    step_height_non_positive config_colors_on) \/
   bounds_invalid config_colors_on) /\
  fails (validate config_colors_on) /\
  exists msg,
    main (fun _ => ret tt) (fun _ _ => ret tt) config_colors_on = ([StValidate], inl msg).
Proof.
  assert (Hc : (colors_enabled (colors (terrain config_colors_on)) = true /\
                num_colors_out_of_range config_colors_on) \/
               (hs_enabled (height_stepping (terrain config_colors_on)) = true /\
                step_height_non_positive config_colors_on) \/
               bounds_invalid config_colors_on).
  { left. split; [reflexivity|unfold num_colors_out_of_range; simpl; lia]. }
  split; [exact Hc|].
  apply (validate_rejects_enabled_settings (fun _ => ret tt) (fun _ _ => ret tt)
           config_colors_on Hc).
Defined.

(** ** Elevation zones *)

(** Python's [range(n)] for an int [n]: empty when [n <= 0]. *)
Definition py_range (n : Z) : list Z := map Z.of_nat (seq 0 (Z.to_nat n)).

Section ZoneCommon.
Context {F : Type} `{Scalar F}.

(** A zone is a pair [(zone_min, zone_max)]. *)
Definition zone : Type := F * F.

(** [zone_min <= elevation <= zone_max]. *)
Definition in_zone (elevation : F) (z : zone) : bool :=
  fle (fst z) elevation && fle elevation (snd z).

(** [abs(elevation - (zone_min + zone_max) / 2)]. *)
Definition zone_distance (elevation : F) (z : zone) : F :=
  fabs (fsub elevation (fdiv (fadd (fst z) (snd z)) (of_Z 2))).

(** The first loop of [_assign_elevation_to_zone], shared by both generators:
    [for idx, (zone_min, zone_max) in enumerate(color_zones)], returning
    [idx + 1] at the first zone that contains the elevation. *)
Fixpoint first_containing (elevation : F) (color_zones : list zone) (idx : nat)
  : option nat :=
  match color_zones with
  | [] => None
  | z :: zs =>
      if in_zone elevation z then Some (idx + 1)
      else first_containing elevation zs (S idx)
  end.

(** Python's builtin [min] of a list: the first element that no later one is
    strictly below; an empty list raises. *)
Definition py_list_min (l : list F) : result F :=
  match l with
  | [] => raise (ValueError "min() arg is an empty sequence")
  | x :: xs => ret (fold_left (fun m d => if flt d m then d else m) xs x)
  end.

(** [list.index(x)]: the first position holding [x] (the same object, which
    for a NaN taken from the list is the first NaN, or an equal value). *)
Fixpoint py_list_index (x : F) (l : list F) : result nat :=
  match l with
  | [] => raise (ValueError "x is not in list")
  | d :: ds =>
      if feq d x || (fisnan d && fisnan x) then ret 0
      else i <- py_list_index x ds ;; ret (S i)
  end.
End ZoneCommon.

Arguments zone F : clear implicits.

Module SimpleMultiColor.
Section Zones.
Context {F : Type} `{Scalar F}.

(** [SimpleMultiColorMeshGenerator._calculate_color_zones]. *)
Definition _calculate_color_zones (config : Config F) (z_grid : grid F)
  : result (list (zone F)) :=
  min_z <- np_nanmin z_grid ;;
  max_z <- np_nanmax z_grid ;;
  let num_colors := num_colors (colors (terrain config)) in
  let zone_height := fdiv (fsub max_z min_z) (of_Z num_colors) in
  ret ((min_z, max_z)
       :: map (fun i => (fadd min_z (fmul (of_Z i) zone_height),
                         fadd min_z (fmul (of_Z (i + 1)) zone_height)))
              (py_range num_colors)).

(** [SimpleMultiColorMeshGenerator._assign_elevation_to_zone]. *)
Definition _assign_elevation_to_zone (elevation : F) (zones : list (zone F))
  : result nat :=
  let color_zones := tl zones in
  match first_containing elevation color_zones 0 with
  | Some k => ret k
  | None =>
      let distances := map (zone_distance elevation) color_zones in
      m <- py_list_min distances ;;
      i <- py_list_index m distances ;;
      ret (i + 1)
  end.
End Zones.
End SimpleMultiColor.

Module MultiColor.
Section Zones.
Context {F : Type} `{Scalar F}.

(** [_calculate_color_zones_elevation_fallback]: no base zone. *)
Definition _calculate_color_zones_elevation_fallback
    (config : Config F) (elevation_grid : grid F) : result (list (zone F)) :=
  min_elev <- np_min elevation_grid ;;
  max_elev <- np_max elevation_grid ;;
  let num_colors := num_colors (colors (terrain config)) in
  let zone_height := fdiv (fsub max_elev min_elev) (of_Z num_colors) in
  ret (map (fun i =>
              let zone_min := fadd min_elev (fmul (of_Z i) zone_height) in
              let zone_max := fadd min_elev (fmul (of_Z (i + 1)) zone_height) in
              let zone_max :=
                if (i =? num_colors - 1)%Z
                then fadd max_elev (fdiv (of_Z 1) (of_Z 10))
                else zone_max in
              (zone_min, zone_max))
           (py_range num_colors)).

(** [MultiColorMeshGenerator._calculate_color_zones]; a colour mode other
    than "elevation" and "slope" falls off the end and returns [None]. *)
Definition _calculate_color_zones (config : Config F) (elevation_grid : grid F)
  : result (option (list (zone F))) :=
  min_elev <- np_min elevation_grid ;;
  max_elev <- np_max elevation_grid ;;
  let num_colors := num_colors (colors (terrain config)) in
  if String.eqb (color_mode (colors (terrain config))) "elevation" then
    let base := (fsub min_elev (of_Z 1), fadd max_elev (of_Z 1)) in
    let zone_height := fdiv (fsub max_elev min_elev) (of_Z num_colors) in
    let eps := fdiv (of_Z 1) (of_Z 1000) in
    ret (Some
      (base
       :: map (fun i =>
                 let zone_min := fadd min_elev (fmul (of_Z i) zone_height) in
                 let zone_max := fadd min_elev (fmul (of_Z (i + 1)) zone_height) in
                 let zone_min := if (0 <? i)%Z then fsub zone_min eps else zone_min in
                 let zone_max :=
                   if (i =? num_colors - 1)%Z
                   then fadd max_elev (of_Z 1)
                   else fadd zone_max eps in
                 (zone_min, zone_max))
              (py_range num_colors)))
  else if String.eqb (color_mode (colors (terrain config))) "slope" then
    zones <- _calculate_color_zones_elevation_fallback config elevation_grid ;;
    ret (Some zones)
  else ret None.

(** The fallback loop of [MultiColorMeshGenerator._assign_elevation_to_zone]:
    the state is [(min_distance, best_zone)], with [None] for the initial
    [float('inf')]. *)
Fixpoint nearest_scan (elevation : F) (color_zones : list (zone F)) (idx : nat)
    (st : option F * nat) : option F * nat :=
  match color_zones with
  | [] => st
  | z :: zs =>
      let distance := zone_distance elevation z in
      let closer :=
        match fst st with
        | None => flt_inf distance
        | Some min_distance => flt distance min_distance
        end in
      nearest_scan elevation zs (S idx)
        (if closer then (Some distance, idx + 1) else st)
  end.

(** [MultiColorMeshGenerator._assign_elevation_to_zone]. *)
Definition _assign_elevation_to_zone (elevation : F) (all_zones : list (zone F))
  : nat :=
  let color_zones := tl all_zones in
  match first_containing elevation color_zones 0 with
  | Some k => k
  | None => snd (nearest_scan elevation color_zones 0 (None, 1))
  end.
End Zones.
End MultiColor.

(** ** Zone assignment over the rationals *)

Lemma Q_fle_iff (x y : Q) : fle x y = true <-> (x <= y)%Q.
Proof. apply Qle_bool_iff. Qed.

Lemma Q_flt_iff (x y : Q) : flt x y = true <-> (x < y)%Q.
Proof.
  simpl. rewrite negb_true_iff. split.
  - intros Hle. apply Qnot_le_lt. intros Hc. apply Qle_bool_iff in Hc. congruence.
  - intros Hlt. destruct (Qle_bool y x) eqn:Hle; [|reflexivity].
    apply Qle_bool_iff in Hle. exfalso. apply (Qlt_not_le _ _ Hlt Hle).
Qed.

Lemma Q_flt_false_iff (x y : Q) : flt x y = false <-> (y <= x)%Q.
Proof.
  simpl. rewrite negb_false_iff. apply Qle_bool_iff.
Qed.

Lemma Q_feq_iff (x y : Q) : feq x y = true <-> (x == y)%Q.
Proof. apply Qeq_bool_iff. Qed.

Section FirstContaining.
Context {F : Type} `{Scalar F}.
Variable d0 : zone F.

Lemma first_containing_some (e : F) (zs : list (zone F)) (idx k : nat) :
  first_containing e zs idx = Some k ->
  exists p, k = idx + p + 1 /\ p < length zs /\
    in_zone e (nth p zs d0) = true /\
    forall q, q < p -> in_zone e (nth q zs d0) = false.
Proof.
  revert idx. induction zs as [|z zs IH]; intros idx Hk; simpl in Hk; [discriminate|].
  destruct (in_zone e z) eqn:Hz.
  - inversion Hk; subst. exists 0. simpl. repeat split; try lia. exact Hz.
  - destruct (IH _ Hk) as (p & -> & Hp & Hin & Hbefore).
    exists (S p). simpl. repeat split; try lia; [exact Hin|].
    intros [|q] Hq; [exact Hz|apply Hbefore; lia].
Qed.

Lemma first_containing_none (e : F) (zs : list (zone F)) (idx : nat) :
  first_containing e zs idx = None ->
  forall q, q < length zs -> in_zone e (nth q zs d0) = false.
Proof.
  revert idx. induction zs as [|z zs IH]; intros idx Hk q Hq; simpl in *; [lia|].
  destruct (in_zone e z) eqn:Hz; [discriminate|].
  destruct q as [|q]; [exact Hz|]. apply (IH _ Hk). lia.
Qed.
End FirstContaining.

(** [first_argmin ds i]: position [i] holds a least element of [ds], and every
    earlier element is strictly larger. *)
Definition first_argmin (ds : list Q) (i : nat) : Prop :=
  i < length ds /\
  (forall q, q < length ds -> (nth i ds 0 <= nth q ds 0)%Q) /\
  (forall q, q < i -> (nth i ds 0 < nth q ds 0)%Q).

Lemma fold_min_spec (xs : list Q) (x m : Q) :
  fold_left (fun m d => if flt d m then d else m) xs x = m ->
  (m = x \/ In m xs) /\ (m <= x)%Q /\ (forall d, In d xs -> (m <= d)%Q).
Proof.
  revert x. induction xs as [|y ys IH]; intros x Hm.
  - simpl in Hm. subst m.
    repeat split; [left; reflexivity|apply Qle_refl|intros d []].
  - change (fold_left (fun m d => if flt d m then d else m) ys
              (if flt y x then y else x) = m) in Hm.
    destruct (flt y x) eqn:Hyx.
    + apply Q_flt_iff in Hyx. destruct (IH y Hm) as (Hin & Hle & Hall).
      repeat split.
      * destruct Hin as [->|Hin]; right; simpl; auto.
      * apply Qlt_le_weak in Hyx. apply (Qle_trans _ _ _ Hle Hyx).
      * intros d [<-|Hd]; [exact Hle|apply Hall; exact Hd].
    + apply Q_flt_false_iff in Hyx. destruct (IH x Hm) as (Hin & Hle & Hall).
      repeat split.
      * destruct Hin as [->|Hin]; [left; reflexivity|right; simpl; auto].
      * exact Hle.
      * intros d [<-|Hd]; [apply (Qle_trans _ _ _ Hle Hyx)|apply Hall; exact Hd].
Qed.

Lemma py_list_index_spec (m : Q) (ds : list Q) :
  In m ds ->
  exists i, py_list_index m ds = inr i /\ i < length ds /\
    (nth i ds 0 == m)%Q /\ forall q, q < i -> ~ (nth q ds 0 == m)%Q.
Proof.
  induction ds as [|d ds IH]; intros Hin; [destruct Hin|].
  simpl py_list_index. rewrite ?andb_false_r, ?orb_false_r.
  destruct (Qeq_bool d m) eqn:Hd.
  - exists 0. simpl. repeat split; try lia. apply Qeq_bool_iff. exact Hd.
  - assert (Hin' : In m ds).
    { destruct Hin as [->|Hin]; [|exact Hin].
      rewrite (proj2 (Qeq_bool_iff m m) (Qeq_refl m)) in Hd. discriminate. }
    destruct (IH Hin') as (i & -> & Hi & Hnth & Hbefore).
    exists (S i). simpl. repeat split; try lia; [exact Hnth|].
    intros [|q] Hq.
    + simpl. intros Hc. apply Qeq_bool_iff in Hc. congruence.
    + apply Hbefore. lia.
Qed.

Lemma py_min_index_first_argmin (ds : list Q) :
  ds <> [] ->
  exists m i, py_list_min ds = inr m /\ py_list_index m ds = inr i /\
              first_argmin ds i.
Proof.
  destruct ds as [|x xs]; [congruence|]. intros _.
  set (m := fold_left (fun m d => if flt d m then d else m) xs x).
  destruct (fold_min_spec xs x m eq_refl) as (Hin & Hle & Hall).
  assert (Hin' : In m (x :: xs)) by (destruct Hin as [->|Hin]; simpl; auto).
  assert (Hmin : forall d, In d (x :: xs) -> (m <= d)%Q).
  { intros d [<-|Hd]; [exact Hle|apply Hall; exact Hd]. }
  destruct (py_list_index_spec m (x :: xs) Hin') as (i & Hi & Hlen & Hnth & Hbefore).
  exists m, i. split; [reflexivity|]. split; [exact Hi|].
  split; [exact Hlen|]. split.
  - intros q Hq. rewrite Hnth. apply Hmin. apply nth_In. exact Hq.
  - intros q Hq. rewrite Hnth.
    assert (Hle' : (m <= nth q (x :: xs) 0)%Q) by (apply Hmin, nth_In; lia).
    apply Qle_lt_or_eq in Hle' as [Hlt|Heq]; [exact Hlt|].
    exfalso. apply (Hbefore q Hq). symmetry. exact Heq.
Qed.

Lemma nearest_scan_cons (e : Q) (z : zone Q) (zs : list (zone Q)) (idx : nat)
    (m : Q) (b : nat) :
  MultiColor.nearest_scan e (z :: zs) idx (Some m, b) =
  MultiColor.nearest_scan e zs (S idx)
    (if flt (zone_distance e z) m then (Some (zone_distance e z), idx + 1)
     else (Some m, b)).
Proof. reflexivity. Qed.

Lemma nearest_scan_spec (e : Q) (zs : list (zone Q)) (idx : nat) (m : Q) (b : nat) :
  (snd (MultiColor.nearest_scan e zs idx (Some m, b)) = b /\
   forall q, q < length zs -> (m <= nth q (map (zone_distance e) zs) 0)%Q) \/
  (exists p, p < length zs /\
     snd (MultiColor.nearest_scan e zs idx (Some m, b)) = idx + p + 1 /\
     (nth p (map (zone_distance e) zs) 0 < m)%Q /\
     (forall q, q < length zs ->
        (nth p (map (zone_distance e) zs) 0 <= nth q (map (zone_distance e) zs) 0)%Q) /\
     (forall q, q < p ->
        (nth p (map (zone_distance e) zs) 0 < nth q (map (zone_distance e) zs) 0)%Q)).
Proof.
  revert idx m b. induction zs as [|z zs IH]; intros idx m b.
  - left. split; [reflexivity|]. intros q Hq. simpl in Hq. lia.
  - rewrite nearest_scan_cons. destruct (flt (zone_distance e z) m) eqn:Hc.
    + apply Q_flt_iff in Hc. right.
      destruct (IH (S idx) (zone_distance e z) (idx + 1))
        as [[Hb Hall]|(p & Hp & Hb & Hlt & Hall & Hbefore)].
      * exists 0. split; [simpl; lia|]. split; [rewrite Hb; lia|].
        split; [exact Hc|]. split.
        -- intros [|q] Hq; [apply Qle_refl|apply Hall; simpl in Hq; lia].
        -- intros q Hq. lia.
      * exists (S p). split; [simpl; lia|]. split; [rewrite Hb; lia|].
        split; [apply (Qlt_trans _ _ _ Hlt Hc)|]. split.
        -- intros [|q] Hq; [apply Qlt_le_weak; exact Hlt|apply Hall; simpl in Hq; lia].
        -- intros [|q] Hq; [exact Hlt|apply Hbefore; lia].
    + apply Q_flt_false_iff in Hc.
      destruct (IH (S idx) m b) as [[Hb Hall]|(p & Hp & Hb & Hlt & Hall & Hbefore)].
      * left. split; [exact Hb|].
        intros [|q] Hq; [exact Hc|apply Hall; simpl in Hq; lia].
      * right. exists (S p). split; [simpl; lia|]. split; [rewrite Hb; lia|].
        split; [exact Hlt|]. split.
        -- intros [|q] Hq; [|apply Hall; simpl in Hq; lia].
           apply Qlt_le_weak. apply (Qlt_le_trans _ _ _ Hlt Hc).
        -- intros [|q] Hq; [apply (Qlt_le_trans _ _ _ Hlt Hc)|apply Hbefore; lia].
Qed.

Lemma nearest_scan_first_argmin (e : Q) (zs : list (zone Q)) :
  zs <> [] ->
  exists i, snd (MultiColor.nearest_scan e zs 0 (None, 1)) = i + 1 /\
            first_argmin (map (zone_distance e) zs) i.
Proof.
  destruct zs as [|z zs]; [congruence|]. intros _.
  change (MultiColor.nearest_scan e (z :: zs) 0 (None, 1))
    with (MultiColor.nearest_scan e zs 1 (Some (zone_distance e z), 1)).
  destruct (nearest_scan_spec e zs 1 (zone_distance e z) 1)
    as [[Hb Hall]|(p & Hp & Hb & Hlt & Hall & Hbefore)].
  - exists 0. split; [exact Hb|]. unfold first_argmin.
    split; [simpl; lia|]. split.
    + intros [|q] Hq; [apply Qle_refl|apply Hall; simpl in Hq; rewrite length_map in Hq; lia].
    + intros q Hq. lia.
  - exists (S p). split; [rewrite Hb; lia|]. unfold first_argmin.
    split; [simpl; rewrite length_map; lia|]. split.
    + intros [|q] Hq; [apply Qlt_le_weak; exact Hlt|apply Hall; simpl in Hq; rewrite length_map in Hq; lia].
    + intros [|q] Hq; [exact Hlt|apply Hbefore; lia].
Qed.

Lemma first_argmin_unique (ds : list Q) (i j : nat) :
  first_argmin ds i -> first_argmin ds j -> i = j.
Proof.
  intros (Hi & Hmin_i & Hfirst_i) (Hj & Hmin_j & Hfirst_j).
  destruct (Nat.lt_trichotomy i j) as [Hlt|[Heq|Hgt]]; [|exact Heq|]; exfalso.
  - apply (Qlt_not_le _ _ (Hfirst_j i Hlt)). apply Hmin_i. exact Hj.
  - apply (Qlt_not_le _ _ (Hfirst_i j Hgt)). apply Hmin_j. exact Hi.
Qed.

Lemma nth_map_lt {A B} (g : A -> B) (l : list A) (q : nat) (d : A) (d' : B) :
  q < length l -> nth q (map g l) d' = g (nth q l d).
Proof.
  intros Hq. rewrite (nth_indep _ d' (g d)) by (rewrite length_map; exact Hq).
  apply map_nth.
Qed.

(** Band [j] of a zone list: index 0 is the base zone, 1..N the colour
    bands. *)
Definition band (zones : list (zone Q)) (j : nat) : zone Q := nth j zones (0%Q, 0%Q).

(** The specification's own terms, over the rationals: a band contains an
    elevation between its two ends, both included; the centre of a band is
    the mean of its ends; the distance of an elevation from a band is its
    distance from that centre. *)
Definition contains (b : zone Q) (elevation : Q) : Prop :=
  (fst b <= elevation)%Q /\ (elevation <= snd b)%Q.

Definition band_centre (b : zone Q) : Q := ((fst b + snd b) / 2)%Q.

Definition centre_distance (elevation : Q) (b : zone Q) : Q :=
  Qabs (elevation - band_centre b).

(** What the specification asks of the band [k] assigned to an elevation: it
    is one of the bands 1..N; if some band contains the elevation, [k] is the
    lowest-indexed one that does; if none does, band [k] has the nearest
    centre, and every band before it is strictly farther. *)
Definition assigned_as_specified (elevation : Q) (zones : list (zone Q)) (N k : nat)
  : Prop :=
  1 <= k <= N /\
  ((exists j, 1 <= j <= N /\ contains (band zones j) elevation) ->
   contains (band zones k) elevation /\
   forall j, 1 <= j < k -> ~ contains (band zones j) elevation) /\
  ((forall j, 1 <= j <= N -> ~ contains (band zones j) elevation) ->
   (forall j, 1 <= j <= N ->
      (centre_distance elevation (band zones k) <=
       centre_distance elevation (band zones j))%Q) /\
   (forall j, 1 <= j < k ->
      (centre_distance elevation (band zones k) <
       centre_distance elevation (band zones j))%Q)).

Lemma in_zone_contains (elevation : Q) (b : zone Q) :
  in_zone elevation b = true <-> contains b elevation.
Proof.
  unfold in_zone, contains. rewrite andb_true_iff, !Q_fle_iff. reflexivity.
Qed.

Lemma in_zone_not_contains (elevation : Q) (b : zone Q) :
  in_zone elevation b = false <-> ~ contains b elevation.
Proof.
  rewrite <- in_zone_contains. destruct (in_zone elevation b).
  - split; [discriminate|intros Hc; exfalso; apply Hc; reflexivity].
  - split; [intros _ Hc; discriminate|reflexivity].
Qed.

Lemma zone_distance_centre (elevation : Q) (b : zone Q) :
  (zone_distance elevation b == centre_distance elevation b)%Q.
Proof.
  unfold zone_distance, centre_distance, band_centre. apply Qeq_refl.
Qed.

(** C3: over a zone list for N >= 1 colours, both [_assign_elevation_to_zone]
    functions return, for every elevation, the same band index k in [1, N].
    If some band [zone_min <= elevation <= zone_max] contains the elevation,
    k is the lowest-indexed such band; otherwise band k minimises
    [|elevation - (zone_min + zone_max) / 2|] and every band before it is
    strictly farther. *)
Theorem assign_elevation_to_zone_total (elevation : Q) (zones : list (zone Q)) (N : nat) :
  1 <= N -> length zones = S N ->
  exists k,
    SimpleMultiColor._assign_elevation_to_zone elevation zones = inr k /\
    MultiColor._assign_elevation_to_zone elevation zones = k /\
    assigned_as_specified elevation zones N k.
Proof.
  intros HN Hlen. destruct zones as [|base cz]; [discriminate|].
  simpl in Hlen. injection Hlen as Hlen.
  unfold SimpleMultiColor._assign_elevation_to_zone,
    MultiColor._assign_elevation_to_zone. simpl tl.
  destruct (first_containing elevation cz 0) as [k|] eqn:Hfc.
  - destruct (first_containing_some (0%Q, 0%Q) elevation cz 0 k Hfc)
      as (p & -> & Hp & Hin & Hbefore).
    exists (0 + p + 1). split; [reflexivity|]. split; [reflexivity|].
    unfold assigned_as_specified, band.
    replace (0 + p + 1) with (S p) by lia. simpl nth.
    split; [lia|]. split.
    + intros _. split; [apply in_zone_contains; exact Hin|].
      intros [|j] Hj; [lia|]. simpl. apply in_zone_not_contains. apply Hbefore. lia.
    + intros Hnone. specialize (Hnone (S p) ltac:(lia)). simpl in Hnone.
      exfalso. apply Hnone. apply in_zone_contains. exact Hin.
  - pose proof (first_containing_none (0%Q, 0%Q) elevation cz 0 Hfc) as Hnone.
    assert (Hne : cz <> []) by (destruct cz; simpl in Hlen; [lia|congruence]).
    assert (Hne' : map (zone_distance elevation) cz <> [])
      by (destruct cz; [congruence|discriminate]).
    destruct (py_min_index_first_argmin _ Hne') as (m & i & Hm & Hi & Harg).
    destruct (nearest_scan_first_argmin elevation cz Hne) as (i' & Hscan & Harg').
    assert (i' = i) by (apply (first_argmin_unique _ _ _ Harg' Harg)). subst i'.
    exists (i + 1). rewrite Hm. simpl bind. rewrite Hi. simpl bind.
    split; [reflexivity|]. split; [exact Hscan|].
    destruct Harg as (Hilen & Hmin & Hfirst). rewrite length_map in Hilen, Hmin.
    unfold assigned_as_specified, band.
    replace (i + 1) with (S i) by lia. simpl nth.
    split; [lia|]. split.
    + intros ([|j] & Hj & Hin); [lia|]. simpl in Hin.
      apply in_zone_contains in Hin. rewrite (Hnone j) in Hin by lia. discriminate.
    + intros _. split.
      * intros [|j] Hj; [lia|]. simpl nth. rewrite <- !zone_distance_centre.
        rewrite <- (nth_map_lt (zone_distance elevation) cz i (0%Q, 0%Q) 0%Q) by lia.
        rewrite <- (nth_map_lt (zone_distance elevation) cz j (0%Q, 0%Q) 0%Q) by lia.
        apply Hmin. lia.
      * intros [|j] Hj; [lia|]. simpl nth. rewrite <- !zone_distance_centre.
        rewrite <- (nth_map_lt (zone_distance elevation) cz i (0%Q, 0%Q) 0%Q) by lia.
        rewrite <- (nth_map_lt (zone_distance elevation) cz j (0%Q, 0%Q) 0%Q) by lia.
        apply Hfirst. lia.
Qed.

(** Four colours over [0, 100]: the boundary value 25 belongs to bands 1 and
    2 and goes to band 1; 130 lies in no band and goes to the nearest, band
    4, whose centre 87.5 is 42.5 away. *)
Definition zones_0_100 : list (zone Q) :=
  [(0, 100); (0, 25); (25, 50); (50, 75); (75, 100)]%Q.

Lemma assign_elevation_to_zone_total_witness :
  exists k,
    SimpleMultiColor._assign_elevation_to_zone 130%Q zones_0_100 = inr k /\
    MultiColor._assign_elevation_to_zone 130%Q zones_0_100 = k /\
    assigned_as_specified 130%Q zones_0_100 4 k.
Proof.
  apply (assign_elevation_to_zone_total 130%Q zones_0_100 4); [lia|reflexivity].
Defined.

Example centre_distances_of_130 :
  map (centre_distance 130) (tl zones_0_100) = [235 # 2; 185 # 2; 135 # 2; 85 # 2]%Q.
Proof. vm_compute. reflexivity. Qed.

Example assign_boundary_value :
  SimpleMultiColor._assign_elevation_to_zone 25%Q zones_0_100 = inr 1 /\
  MultiColor._assign_elevation_to_zone 25%Q zones_0_100 = 1.
Proof. split; reflexivity. Qed.

Example assign_outside_every_band :
  SimpleMultiColor._assign_elevation_to_zone 130%Q zones_0_100 = inr 4 /\
  MultiColor._assign_elevation_to_zone 130%Q zones_0_100 = 4.
Proof. split; reflexivity. Qed.

(** ** Colour bands over the rationals *)

Definition zone_height (z : zone Q) : Q := (snd z - fst z)%Q.

(** C4 as the specification words it, for the colour bands [bands] (zones
    1..N) over the range [[gmin, gmax]]: equal heights, adjacent bands that
    overlap, and no value of the range left uncovered. *)
Definition bands_as_specified (bands : list (zone Q)) (gmin gmax : Q) : Prop :=
  (forall i j, i < length bands -> j < length bands ->
     (zone_height (band bands i) == zone_height (band bands j))%Q) /\
  (forall i, S i < length bands ->
     (fst (band bands (S i)) < snd (band bands i))%Q) /\
  (forall e, (gmin <= e <= gmax)%Q ->
     exists i, i < length bands /\ in_zone e (band bands i) = true).

Definition covers (bands : list (zone Q)) (gmin gmax : Q) : Prop :=
  forall e, (gmin <= e <= gmax)%Q ->
  exists i, i < length bands /\ in_zone e (band bands i) = true.

(** Bands that each start no later than the previous one ends cover
    everything between the start of the first and the end of the last. *)
Lemma chain_covers (bands : list (zone Q)) (e : Q) :
  bands <> [] ->
  (forall i, S i < length bands ->
     (fst (band bands (S i)) <= snd (band bands i))%Q) ->
  (fst (band bands 0) <= e)%Q ->
  (e <= snd (band bands (length bands - 1)))%Q ->
  exists i, i < length bands /\ in_zone e (band bands i) = true.
Proof.
  induction bands as [|b rest IH]; [congruence|]. intros _ Hchain Hlo Hhi.
  destruct (Qlt_le_dec (snd b) e) as [Hgt|Hle].
  - destruct rest as [|b' rest'].
    + simpl in Hhi. exfalso. apply (Qlt_not_le _ _ Hgt Hhi).
    + destruct IH as (i & Hi & Hin).
      * discriminate.
      * intros i Hi. apply (Hchain (S i)). simpl in *. lia.
      * simpl. specialize (Hchain 0 ltac:(simpl; lia)). simpl in Hchain.
        apply Qlt_le_weak. apply (Qle_lt_trans _ _ _ Hchain Hgt).
      * simpl in Hhi. simpl. rewrite Nat.sub_0_r in *. exact Hhi.
      * exists (S i). split; [simpl in *; lia|exact Hin].
  - exists 0. split; [simpl; lia|]. simpl in Hlo. simpl nth. unfold in_zone.
    apply andb_true_iff. split; apply Q_fle_iff; assumption.
Qed.

Lemma nth_py_range {A} (g : Z -> A) (n : Z) (i : nat) (d : A) :
  i < Z.to_nat n -> nth i (map g (py_range n)) d = g (Z.of_nat i).
Proof.
  intros Hi. unfold py_range. rewrite map_map.
  rewrite (nth_map_seq (fun k => g (Z.of_nat k)) 0 (Z.to_nat n) i d Hi).
  reflexivity.
Qed.

Lemma length_py_range (n : Z) : length (py_range n) = Z.to_nat n.
Proof. unfold py_range. rewrite length_map, length_seq. reflexivity. Qed.

Lemma np_nanmin_Q (g : grid Q) (m : Q) : np_min g = inr m -> np_nanmin g = inr m.
Proof.
  unfold np_min, np_nanmin. destruct (concat g) as [|x xs]; [discriminate|].
  intros Hm. simpl filter.
  replace (filter (fun _ : Q => true) xs) with xs; [exact Hm|].
  clear Hm. induction xs as [|y ys IH]; simpl; [reflexivity|f_equal; exact IH].
Qed.

Lemma np_nanmax_Q (g : grid Q) (m : Q) : np_max g = inr m -> np_nanmax g = inr m.
Proof.
  unfold np_max, np_nanmax. destruct (concat g) as [|x xs]; [discriminate|].
  intros Hm. simpl filter.
  replace (filter (fun _ : Q => true) xs) with xs; [exact Hm|].
  clear Hm. induction xs as [|y ys IH]; simpl; [reflexivity|f_equal; exact IH].
Qed.

(** The i-th of N equal-height slices of [[gmin, gmax]]. *)
Definition slice (gmin gmax : Q) (n : Z) (i : nat) : zone Q :=
  let h := ((gmax - gmin) / inject_Z n)%Q in
  ((gmin + inject_Z (Z.of_nat i) * h)%Q, (gmin + inject_Z (Z.of_nat i + 1) * h)%Q).

(** The colour band [MultiColor._calculate_color_zones] builds at loop index
    [i]. *)
Definition multicolor_band (gmin gmax : Q) (n i : Z) : zone Q :=
  let h := ((gmax - gmin) / inject_Z n)%Q in
  ((if (0 <? i)%Z then gmin + inject_Z i * h - (1 # 1000) else gmin + inject_Z i * h)%Q,
   (if (i =? n - 1)%Z then gmax + 1 else gmin + inject_Z (i + 1) * h + (1 # 1000))%Q).

Lemma multicolor_zones_eq (config : Config Q) (z_grid : grid Q) (gmin gmax : Q) :
  color_mode (colors (terrain config)) = "elevation" ->
  np_min z_grid = inr gmin -> np_max z_grid = inr gmax ->
  MultiColor._calculate_color_zones config z_grid =
  inr (Some ((gmin - 1, gmax + 1)%Q
             :: map (multicolor_band gmin gmax (num_colors (colors (terrain config))))
                    (py_range (num_colors (colors (terrain config)))))).
Proof.
  intros Hmode Hmin Hmax. unfold MultiColor._calculate_color_zones.
  rewrite Hmin, Hmax, Hmode. reflexivity.
Qed.

Lemma simple_zones_eq (config : Config Q) (z_grid : grid Q) (gmin gmax : Q) :
  np_min z_grid = inr gmin -> np_max z_grid = inr gmax ->
  SimpleMultiColor._calculate_color_zones config z_grid =
  inr ((gmin, gmax)
       :: map (fun i => slice gmin gmax (num_colors (colors (terrain config))) (Z.to_nat i))
              (py_range (num_colors (colors (terrain config))))).
Proof.
  intros Hmin Hmax. unfold SimpleMultiColor._calculate_color_zones.
  rewrite (np_nanmin_Q _ _ Hmin), (np_nanmax_Q _ _ Hmax). simpl bind.
  unfold ret. do 2 f_equal. apply map_ext_in. intros i Hi.
  unfold py_range in Hi. apply in_map_iff in Hi as (k & <- & _).
  unfold slice. rewrite Nat2Z.id. reflexivity.
Qed.

Lemma slices_total (gmin gmax : Q) (n : Z) :
  (1 <= n)%Z ->
  (inject_Z n * ((gmax - gmin) / inject_Z n) == gmax - gmin)%Q.
Proof.
  intros Hn. apply Qmult_div_r. intros Hc.
  unfold Qeq in Hc. simpl in Hc. lia.
Qed.

Section BandsOfRange.
Variables (gmin gmax : Q) (n : Z).
Hypothesis Hn : (1 <= n)%Z.

Let N := Z.to_nat n.
Let mbands := map (multicolor_band gmin gmax n) (py_range n).
Let sbands := map (fun i => slice gmin gmax n (Z.to_nat i)) (py_range n).

Lemma mbands_nth (i : nat) :
  i < N -> band mbands i = multicolor_band gmin gmax n (Z.of_nat i).
Proof. intros Hi. unfold band, mbands. apply nth_py_range. exact Hi. Qed.

Lemma sbands_nth (i : nat) :
  i < N -> band sbands i = slice gmin gmax n i.
Proof.
  intros Hi. unfold band, sbands.
  rewrite (nth_py_range _ n i _ Hi), Nat2Z.id. reflexivity.
Qed.

Lemma mbands_length : length mbands = N.
Proof. unfold mbands. rewrite length_map. apply length_py_range. Qed.

Lemma sbands_length : length sbands = N.
Proof. unfold sbands. rewrite length_map. apply length_py_range. Qed.

Lemma mbands_contain_slices (i : nat) :
  i < N ->
  (fst (band mbands i) <= fst (slice gmin gmax n i))%Q /\
  (snd (slice gmin gmax n i) <= snd (band mbands i))%Q.
Proof.
  intros Hi. rewrite (mbands_nth i Hi). unfold multicolor_band, slice. cbn [fst snd].
  pose proof (slices_total gmin gmax n Hn) as Htot.
  set (h := ((gmax - gmin) / inject_Z n)%Q) in *.
  split.
  - destruct (0 <? Z.of_nat i)%Z; lra.
  - destruct (Z.eqb_spec (Z.of_nat i) (n - 1)) as [Heq|Hne]; [|lra].
    replace (Z.of_nat i + 1)%Z with n by lia. lra.
Qed.

Lemma mbands_overlap (i : nat) :
  S i < N ->
  (snd (band mbands i) - fst (band mbands (S i)) == 2 # 1000)%Q.
Proof.
  intros Hi. rewrite (mbands_nth i ltac:(lia)), (mbands_nth (S i) Hi).
  unfold multicolor_band. cbn [fst snd].
  destruct (Z.eqb_spec (Z.of_nat i) (n - 1)) as [Heq|Hne]; [unfold N in Hi; lia|].
  destruct (Z.ltb_spec 0 (Z.of_nat (S i))) as [Hpos|Hneg]; [|lia].
  replace (Z.of_nat (S i)) with (Z.of_nat i + 1)%Z by lia.
  set (h := ((gmax - gmin) / inject_Z n)%Q). lra.
Qed.

Lemma mbands_last : (snd (band mbands (N - 1)) == gmax + 1)%Q.
Proof.
  rewrite (mbands_nth (N - 1)) by (unfold N; lia). unfold multicolor_band. cbn [fst snd].
  destruct (Z.eqb_spec (Z.of_nat (N - 1)) (n - 1)) as [Heq|Hne];
    [reflexivity|unfold N in Hne; lia].
Qed.

Lemma mbands_first : (fst (band mbands 0) == gmin)%Q.
Proof.
  rewrite (mbands_nth 0) by (unfold N; lia). unfold multicolor_band. cbn [fst snd].
  change (0 <? Z.of_nat 0)%Z with false. change (inject_Z (Z.of_nat 0)) with 0%Q.
  cbv iota. set (h := ((gmax - gmin) / inject_Z n)%Q). lra.
Qed.

Lemma mbands_cover : covers mbands gmin gmax.
Proof.
  intros e [Hlo Hhi]. apply chain_covers.
  - intros Hc. pose proof mbands_length as Hl. rewrite Hc in Hl. simpl in Hl.
    unfold N in Hl. lia.
  - intros i Hi. rewrite mbands_length in Hi.
    pose proof (mbands_overlap i Hi). lra.
  - rewrite mbands_first. exact Hlo.
  - rewrite mbands_length, mbands_last. lra.
Qed.

Lemma sbands_meet (i : nat) :
  S i < N -> (snd (band sbands i) == fst (band sbands (S i)))%Q.
Proof.
  intros Hi. rewrite (sbands_nth i ltac:(lia)), (sbands_nth (S i) Hi).
  unfold slice. cbn [fst snd].
  replace (Z.of_nat (S i)) with (Z.of_nat i + 1)%Z by lia. reflexivity.
Qed.

Lemma sbands_height (i : nat) :
  i < N -> (zone_height (band sbands i) == (gmax - gmin) / inject_Z n)%Q.
Proof.
  intros Hi. rewrite (sbands_nth i Hi). unfold zone_height, slice. cbn [fst snd].
  rewrite inject_Z_plus. set (h := ((gmax - gmin) / inject_Z n)%Q).
  change (inject_Z 1) with 1%Q. lra.
Qed.

Lemma sbands_cover : covers sbands gmin gmax.
Proof.
  intros e [Hlo Hhi]. pose proof (slices_total gmin gmax n Hn) as Htot.
  apply chain_covers.
  - intros Hc. pose proof sbands_length as Hl. rewrite Hc in Hl. simpl in Hl.
    unfold N in Hl. lia.
  - intros i Hi. rewrite sbands_length in Hi.
    pose proof (sbands_meet i Hi). lra.
  - rewrite (sbands_nth 0) by (unfold N; lia). unfold slice. cbn [fst snd].
    change (inject_Z (Z.of_nat 0)) with 0%Q.
    set (h := ((gmax - gmin) / inject_Z n)%Q) in *. lra.
  - rewrite sbands_length, (sbands_nth (N - 1)) by (unfold N; lia).
    unfold slice. cbn [fst snd].
    replace (Z.of_nat (N - 1) + 1)%Z with n by (unfold N; lia). lra.
Qed.

Lemma mbands_ends (i : nat) :
  i < N ->
  (fst (band mbands i) ==
   gmin + inject_Z (Z.of_nat i) * ((gmax - gmin) / inject_Z n)
   - (if (i =? 0)%nat then 0 else 1 # 1000))%Q /\
  (snd (band mbands i) ==
   if (S i =? N)%nat then gmax + 1
   else gmin + inject_Z (Z.of_nat i + 1) * ((gmax - gmin) / inject_Z n) + (1 # 1000))%Q.
Proof.
  intros Hi. rewrite (mbands_nth i Hi). unfold multicolor_band. cbn [fst snd].
  set (h := ((gmax - gmin) / inject_Z n)%Q). split.
  - destruct (Z.ltb_spec 0 (Z.of_nat i)) as [Hpos|Hzero];
      destruct (Nat.eqb_spec i 0) as [Hi0|Hi0]; try lia; lra.
  - destruct (Z.eqb_spec (Z.of_nat i) (n - 1)) as [Hlast|Hlast];
      destruct (Nat.eqb_spec (S i) N) as [HiN|HiN]; unfold N in *; try lia;
      reflexivity.
Qed.

Lemma mbands_heights :
  2 <= N ->
  (zone_height (band mbands (N - 1)) == zone_height (band mbands 0) + 1)%Q.
Proof.
  intros HN. pose proof (slices_total gmin gmax n Hn) as Htot.
  destruct (mbands_ends (N - 1) ltac:(lia)) as [Hf Hl].
  destruct (mbands_ends 0 ltac:(lia)) as [Hf0 Hl0].
  unfold zone_height. rewrite Hf, Hl, Hf0, Hl0.
  destruct (Nat.eqb_spec (S (N - 1)) N) as [_|Hc]; [|lia].
  destruct (Nat.eqb_spec (N - 1) 0) as [Hc|_]; [lia|].
  destruct (Nat.eqb_spec 1 N) as [Hc|_]; [lia|].
  change (0 =? 0)%nat with true. cbv iota.
  replace (Z.of_nat (N - 1)) with (n - 1)%Z by (unfold N; lia).
  change (Z.of_nat 0 + 1)%Z with 1%Z. change (inject_Z (Z.of_nat 0)) with 0%Q.
  unfold Zminus. rewrite inject_Z_plus, inject_Z_opp.
  change (inject_Z 1) with 1%Q.
  set (h := ((gmax - gmin) / inject_Z n)%Q) in *. lra.
Qed.
End BandsOfRange.

(** Coverage in the specification's terms: every value of the range lies in
    some band. *)
Definition covers_range (bands : list (zone Q)) (gmin gmax : Q) : Prop :=
  forall e, (gmin <= e <= gmax)%Q ->
  exists i, i < length bands /\ contains (band bands i) e.

Lemma covers_covers_range (bands : list (zone Q)) (gmin gmax : Q) :
  covers bands gmin gmax -> covers_range bands gmin gmax.
Proof.
  intros Hc e He. destruct (Hc e He) as (i & Hi & Hin).
  exists i. split; [exact Hi|apply in_zone_contains; exact Hin].
Qed.

(** In binary64 the slices of [SimpleMultiColor] need not reach the maximum:
    with three colours over [[0, 0.9]] the last band ends at
    [0 + 3 * (0.9 / 3)], the float just below 0.9, and no band contains the
    maximum 0.9 (the nearest-centre fallback then assigns it). *)
Definition float_09 : PrimFloat.float := fdiv (of_Z 9) (of_Z 10).

Definition config_three_colors_float : Config PrimFloat.float :=
  example_config true 3 false true (of_Z 2) (of_Z 2).

Example simple_bands_miss_maximum_in_binary64 :
  exists base bands,
    SimpleMultiColor._calculate_color_zones config_three_colors_float
      [[fzero; float_09]] = inr (base :: bands) /\
    forallb (fun b => negb (in_zone float_09 b)) bands = true /\
    SimpleMultiColor._assign_elevation_to_zone float_09 (base :: bands) = inr 3.
Proof. eexists _, _. split; [reflexivity|]. split; vm_compute; reflexivity. Qed.

(** C4, as the code has it.  For N in [1, 6] colours over the range
    [[gmin, gmax]] of the grid, with h = (gmax - gmin) / N, in exact
    arithmetic:
    - [MultiColor._calculate_color_zones] (elevation mode) returns N bands;
      band i starts at gmin + i h - 0.001 (at gmin for i = 0) and ends at
      gmin + (i + 1) h + 0.001 (at gmax + 1 for the last band); adjacent bands
      overlap by 0.002; with N >= 2 the last band is higher than the first by
      exactly 1, so the bands are not of equal height; the bands cover
      [[gmin, gmax]];
    - [SimpleMultiColor._calculate_color_zones] returns exactly the N slices
      [[gmin + i h, gmin + (i + 1) h]], all of height h; adjacent bands meet
      in one shared value; the bands cover [[gmin, gmax]].
    In binary64 the coverage of the [SimpleMultiColor] bands is lost: with
    three colours over [[0, 0.9]] the maximum 0.9 of the grid lies in none of
    the three bands. *)
Theorem color_zones_cover_range (config : Config Q) (z_grid : grid Q) (gmin gmax : Q) :
  (1 <= num_colors (colors (terrain config)) <= 6)%Z ->
  color_mode (colors (terrain config)) = "elevation" ->
  np_min z_grid = inr gmin -> np_max z_grid = inr gmax ->
  (exists base bands,
     MultiColor._calculate_color_zones config z_grid = inr (Some (base :: bands)) /\
     length bands = Z.to_nat (num_colors (colors (terrain config))) /\
     (forall i, i < length bands ->
        (fst (band bands i) ==
         gmin + inject_Z (Z.of_nat i) *
                ((gmax - gmin) / inject_Z (num_colors (colors (terrain config))))
         - (if (i =? 0)%nat then 0 else 1 # 1000))%Q /\
        (snd (band bands i) ==
         if (S i =? length bands)%nat then gmax + 1
         else gmin + inject_Z (Z.of_nat i + 1) *
                     ((gmax - gmin) / inject_Z (num_colors (colors (terrain config))))
              + (1 # 1000))%Q) /\
     (forall i, S i < length bands ->
        (snd (band bands i) - fst (band bands (S i)) == 2 # 1000)%Q) /\
     (2 <= length bands ->
      (zone_height (band bands (length bands - 1)) ==
       zone_height (band bands 0) + 1)%Q) /\
     covers_range bands gmin gmax) /\
  (exists base bands,
     SimpleMultiColor._calculate_color_zones config z_grid = inr (base :: bands) /\
     length bands = Z.to_nat (num_colors (colors (terrain config))) /\
     (forall i, i < length bands ->
        (fst (band bands i) ==
         gmin + inject_Z (Z.of_nat i) *
                ((gmax - gmin) / inject_Z (num_colors (colors (terrain config)))))%Q /\
        (snd (band bands i) ==
         gmin + inject_Z (Z.of_nat i + 1) *
                ((gmax - gmin) / inject_Z (num_colors (colors (terrain config)))))%Q /\
        (zone_height (band bands i) ==
         (gmax - gmin) / inject_Z (num_colors (colors (terrain config))))%Q) /\
     (forall i, S i < length bands ->
        (snd (band bands i) == fst (band bands (S i)))%Q) /\
     covers_range bands gmin gmax) /\
  (exists base bands,
     np_nanmax [[fzero; float_09]] = inr float_09 /\
     SimpleMultiColor._calculate_color_zones config_three_colors_float
       [[fzero; float_09]] = inr (base :: bands) /\
     length bands = 3 /\
     forallb (fun b => negb (in_zone float_09 b)) bands = true).
Proof.
  intros [Hn _] Hmode Hmin Hmax.
  set (n := num_colors (colors (terrain config))) in *. split; [|split].
  - eexists _, _. split; [apply (multicolor_zones_eq config z_grid gmin gmax); assumption|].
    fold n. rewrite (mbands_length gmin gmax n).
    split; [reflexivity|].
    split. { intros i Hi. apply mbands_ends; assumption. }
    split. { intros i Hi. apply mbands_overlap; assumption. }
    split. { intros HN. apply mbands_heights; assumption. }
    apply covers_covers_range. apply mbands_cover; exact Hn.
  - eexists _, _. split; [apply (simple_zones_eq config z_grid gmin gmax); assumption|].
    fold n. rewrite (sbands_length gmin gmax n).
    split; [reflexivity|].
    split.
    { intros i Hi. rewrite (sbands_nth gmin gmax n i Hi).
      split; [reflexivity|]. split; [reflexivity|].
      rewrite <- (sbands_nth gmin gmax n i Hi). apply sbands_height; assumption. }
    split. { intros i Hi. apply sbands_meet; assumption. }
    apply covers_covers_range. apply sbands_cover; exact Hn.
  - eexists _, _. split; [reflexivity|]. split; [reflexivity|].
    split; [reflexivity|]. vm_compute. reflexivity.
Qed.

(** Two colours, colours enabled, elevation mode. *)
Definition config_two_colors : Config Q := example_config true 2 false true 2%Q 2%Q.

Lemma color_zones_cover_range_witness :
  (exists base bands,
     MultiColor._calculate_color_zones config_two_colors [[0; 10]]%Q =
       inr (Some (base :: bands)) /\
     length bands = 2 /\
     (forall i, i < length bands ->
        (fst (band bands i) ==
         0 + inject_Z (Z.of_nat i) * ((10 - 0) / inject_Z 2)
         - (if (i =? 0)%nat then 0 else 1 # 1000))%Q /\
        (snd (band bands i) ==
         if (S i =? length bands)%nat then 10 + 1
         else 0 + inject_Z (Z.of_nat i + 1) * ((10 - 0) / inject_Z 2) + (1 # 1000))%Q) /\
     (forall i, S i < length bands ->
        (snd (band bands i) - fst (band bands (S i)) == 2 # 1000)%Q) /\
     (2 <= length bands ->
      (zone_height (band bands (length bands - 1)) ==
       zone_height (band bands 0) + 1)%Q) /\
     covers_range bands 0 10) /\
  (exists base bands,
     SimpleMultiColor._calculate_color_zones config_two_colors [[0; 10]]%Q =
       inr (base :: bands) /\
     length bands = 2 /\
     (forall i, i < length bands ->
        (fst (band bands i) ==
         0 + inject_Z (Z.of_nat i) * ((10 - 0) / inject_Z 2))%Q /\
        (snd (band bands i) ==
         0 + inject_Z (Z.of_nat i + 1) * ((10 - 0) / inject_Z 2))%Q /\
        (zone_height (band bands i) == (10 - 0) / inject_Z 2)%Q) /\
     (forall i, S i < length bands ->
        (snd (band bands i) == fst (band bands (S i)))%Q) /\
     covers_range bands 0 10) /\
  (exists base bands,
     np_nanmax [[fzero; float_09]] = inr float_09 /\
     SimpleMultiColor._calculate_color_zones config_three_colors_float
       [[fzero; float_09]] = inr (base :: bands) /\
     length bands = 3 /\
     forallb (fun b => negb (in_zone float_09 b)) bands = true).
Proof.
  apply (color_zones_cover_range config_two_colors [[0; 10]]%Q 0%Q 10%Q);
    [simpl; lia|reflexivity|reflexivity|reflexivity].
Defined.

(** C4 fails as stated.  Over [[0, 10]] with two colours, the bands of
    [MultiColor] are [[0, 5.001]] and [[4.999, 11]], of heights 5.001 and
    6.001; the bands of [SimpleMultiColor] are [[0, 5]] and [[5, 10]], which
    share the value 5 and overlap by nothing. *)
Lemma color_zones_not_as_specified :
  (exists base bands,
     MultiColor._calculate_color_zones config_two_colors [[0; 10]]%Q =
       inr (Some (base :: bands)) /\
     ~ bands_as_specified bands 0 10) /\
  (exists base bands,
     SimpleMultiColor._calculate_color_zones config_two_colors [[0; 10]]%Q =
       inr (base :: bands) /\
     ~ bands_as_specified bands 0 10).
Proof.
  split.
  - eexists _, _. split; [reflexivity|]. intros (Hheight & _ & _).
    specialize (Hheight 0 1 ltac:(simpl; lia) ltac:(simpl; lia)).
    vm_compute in Hheight. discriminate.
  - eexists _, _. split; [reflexivity|]. intros (_ & Hoverlap & _).
    specialize (Hoverlap 0 ltac:(simpl; lia)).
    vm_compute in Hoverlap. discriminate.
Qed.

(** ** Height stepping ([MultiColorMeshGenerator._apply_height_stepping]) *)

Section HeightStepping.
Context {F : Type} `{Scalar F} `{RoundScalar F}.

(** [np.linspace(start, stop, num)] with the default [endpoint=True]. *)
Definition np_linspace (start stop : F) (num : Z) : result (list F) :=
  if (num <? 0)%Z then raise (ValueError "Number of samples must be non-negative")
  else
    let step := fdiv (fsub stop start) (of_Z (num - 1)) in
    ret (map (fun k =>
                if (1 <? num)%Z && (k =? num - 1)%Z then stop
                else fadd start (fmul (of_Z k) step))
             (py_range num)).

(** The smooth branch on one elevation: each loop iteration [i] overwrites
    the entries whose original elevation lies in
    [[step_levels[i], step_levels[i + 1])] with the middle of that interval. *)
Definition smooth_value (step_levels : list F) (e : F) : F :=
  fold_left (fun v i =>
               let lo := nth i step_levels fzero in
               let hi := nth (i + 1) step_levels fzero in
               if fle lo e && flt e hi
               then fadd lo (fmul (fsub hi lo) (fdiv (of_Z 1) (of_Z 2)))
               else v)
            (seq 0 (length step_levels - 1)) e.

(** The sharp branch on one elevation:
    [np.round((e - min_elev) / step_height) * step_height + min_elev]. *)
Definition sharp_value (step_height min_elev e : F) : F :=
  fadd (fmul (np_round (fdiv (fsub e min_elev) step_height)) step_height) min_elev.

(** Python's [/] on the two numbers of the configuration: a zero divisor
    raises [ZeroDivisionError]. *)
Definition py_truediv (a b : F) : result F :=
  if feq b (of_Z 0) then raise (ZeroDivisionError "float division by zero")
  else ret (fdiv a b).

Definition _apply_height_stepping (config : Config F) (elevation_grid : grid F)
  : result (grid F) :=
  let hs := height_stepping (terrain config) in
  step_height <-
    py_truediv (step_height_mm hs) (vertical_exaggeration (terrain config)) ;;
  min_elev <- np_min elevation_grid ;;
  max_elev <- np_max elevation_grid ;;
  if smooth_transitions hs then
    let num_steps := (trunc_int (fdiv (fsub max_elev min_elev) step_height) + 1)%Z in
    step_levels <- np_linspace min_elev max_elev num_steps ;;
    ret (grid_map (smooth_value step_levels) elevation_grid)
  else
    ret (grid_map (sharp_value step_height min_elev) elevation_grid).
End HeightStepping.

(** A positive quotient has a divisor other than zero. *)
Lemma py_truediv_pos (a b : Q) :
  (0 < a / b)%Q -> py_truediv a b = inr (fdiv a b).
Proof.
  intros Hpos. unfold py_truediv. simpl feq. change (inject_Z 0) with 0%Q.
  destruct (Qeq_bool b 0) eqn:Hb; [|reflexivity].
  apply Qeq_bool_iff in Hb. exfalso. rewrite Hb in Hpos.
  unfold Qdiv in Hpos. change (/ 0)%Q with 0%Q in Hpos. lra.
Qed.



(** The ramp 0, 1, ..., 95 as a one-row grid. *)
Definition ramp_0_95 : grid Q := [map (fun k => inject_Z (Z.of_nat k)) (seq 0 96)].

(** Sharp stepping with a step height of 10 (10 mm at exaggeration 1). *)
Definition config_sharp_10 : Config Q := example_config false 1 true false 10%Q 1%Q.


Lemma Qround_half_even_near (q : Q) :
  (- (1 # 2) <= inject_Z (Qround_half_even q) - q <= 1 # 2)%Q.
Proof.
  unfold Qround_half_even.
  pose proof (Qfloor_le q) as Hlo. pose proof (Qlt_floor q) as Hhi.
  rewrite inject_Z_plus in Hhi. change (inject_Z 1) with 1%Q in Hhi.
  set (f := Qfloor q) in *.
  destruct (Qle_bool (q - inject_Z f) (1 # 2)) eqn:Hle.
  - apply Qle_bool_iff in Hle.
    destruct (Qeq_bool (q - inject_Z f) (1 # 2)) eqn:Heq.
    + apply Qeq_bool_iff in Heq. destruct (Z.even f).
      * lra.
      * rewrite inject_Z_plus. change (inject_Z 1) with 1%Q. lra.
    + lra.
  - assert (Hgt : (1 # 2 < q - inject_Z f)%Q).
    { apply Qnot_le_lt. intros Hc. apply Qle_bool_iff in Hc. congruence. }
    rewrite inject_Z_plus. change (inject_Z 1) with 1%Q. lra.
Qed.

Lemma sharp_value_nearest (step_height min_elev e : Q) :
  (0 < step_height)%Q ->
  exists k : Z,
    (sharp_value step_height min_elev e == inject_Z k * step_height + min_elev)%Q /\
    (Qabs (sharp_value step_height min_elev e - e) <= step_height / 2)%Q.
Proof.
  intros Hpos. unfold sharp_value. simpl fadd. simpl fmul. simpl np_round.
  simpl fdiv. simpl fsub.
  set (q := ((e - min_elev) / step_height)%Q).
  exists (Qround_half_even q). split; [reflexivity|].
  assert (Hq : (q * step_height == e - min_elev)%Q).
  { unfold q. rewrite Qmult_comm. apply Qmult_div_r. intros Hc. rewrite Hc in Hpos.
    apply (Qlt_irrefl _ Hpos). }
  destruct (Qround_half_even_near q) as [Hlo Hhi].
  set (d := (inject_Z (Qround_half_even q) - q)%Q) in *.
  assert (Hd : (inject_Z (Qround_half_even q) * step_height + min_elev - e
                == d * step_height)%Q).
  { unfold d. lra. }
  rewrite Hd. apply Qabs_Qle_condition.
  assert (H1 : (d * step_height <= (1 # 2) * step_height)%Q)
    by (apply Qmult_le_compat_r; [exact Hhi|apply Qlt_le_weak; exact Hpos]).
  assert (H2 : (- (1 # 2) * step_height <= d * step_height)%Q)
    by (apply Qmult_le_compat_r; [exact Hlo|apply Qlt_le_weak; exact Hpos]).
  change (step_height / 2)%Q with (step_height * (1 # 2))%Q. split; lra.
Qed.


(** Rounding to the nearest integer with ties to even, as [np.round] is
    documented: [k] is within a half of [q], and where [q] lies exactly
    half-way between two integers, [k] is the even one. *)
Definition rounds_half_even (q : Q) (k : Z) : Prop :=
  (Qabs (inject_Z k - q) <= 1 # 2)%Q /\
  ((Qabs (inject_Z k - q) == 1 # 2)%Q -> Z.even k = true).

(** The relation fixes [k]. *)
Lemma rounds_half_even_unique (q : Q) (k k' : Z) :
  rounds_half_even q k -> rounds_half_even q k' -> k = k'.
Proof.
  intros [Hk Hek] [Hk' Hek'].
  apply Qabs_Qle_condition in Hk as [Hk1 Hk2].
  apply Qabs_Qle_condition in Hk' as [Hk1' Hk2'].
  assert (Hd1 : (k <= k' + 1)%Z).
  { rewrite Zle_Qle, inject_Z_plus. change (inject_Z 1) with 1%Q. lra. }
  assert (Hd2 : (k' <= k + 1)%Z).
  { rewrite Zle_Qle, inject_Z_plus. change (inject_Z 1) with 1%Q. lra. }
  destruct (Z.eq_dec k k') as [Heq|Hne]; [exact Heq|exfalso].
  assert (Hcase : k = (k' + 1)%Z \/ k' = (k + 1)%Z) by lia.
  destruct Hcase as [-> | ->].
  - rewrite inject_Z_plus in Hk1, Hk2, Hek. change (inject_Z 1) with 1%Q in *.
    assert (Hq : (q == inject_Z k' + (1 # 2))%Q) by lra.
    assert (E1 : Z.even (k' + 1) = true).
    { apply Hek. rewrite Qabs_pos by lra. lra. }
    assert (E2 : Z.even k' = true).
    { apply Hek'. rewrite Qabs_neg by lra. lra. }
    rewrite Z.even_add, E2 in E1. discriminate.
  - rewrite inject_Z_plus in Hk1', Hk2', Hek'. change (inject_Z 1) with 1%Q in *.
    assert (Hq : (q == inject_Z k + (1 # 2))%Q) by lra.
    assert (E1 : Z.even (k + 1) = true).
    { apply Hek'. rewrite Qabs_pos by lra. lra. }
    assert (E2 : Z.even k = true).
    { apply Hek. rewrite Qabs_neg by lra. lra. }
    rewrite Z.even_add, E2 in E1. discriminate.
Qed.








(** ** Vertex colours ([ColoredMeshExporter._calculate_vertex_colors]) *)

(** An RGBA colour. *)
Definition color : Type := Z * Z * Z * Z.

(** Python list indexing with an int: negative indices count from the end,
    anything outside raises [IndexError]. *)
Definition py_getitem {A : Type} (l : list A) (i : Z) : result A :=
  let n := Z.of_nat (length l) in
  let k := if (i <? 0)%Z then (i + n)%Z else i in
  match nth_error l (Z.to_nat k) with
  | Some x => if (0 <=? k)%Z then ret x else raise (IndexError "list index out of range")
  | None => raise (IndexError "list index out of range")
  end.

(** [np.clip(a, a_min, a_max)] = [minimum(maximum(a, a_min), a_max)]. *)
Definition np_clip (a a_min a_max : Z) : Z := Z.min (Z.max a a_min) a_max.

Fixpoint result_map {A B : Type} (g : A -> result B) (l : list A) : result (list B) :=
  match l with
  | [] => ret []
  | x :: xs => y <- g x ;; ys <- result_map g xs ;; ret (y :: ys)
  end.

Section VertexColors.
Context {F : Type} `{Scalar F} `{RoundScalar F}.

(** [_calculate_vertex_colors]; [color_palette] is [self.color_palette]. *)
Definition _calculate_vertex_colors (config : Config F) (color_palette : list color)
    (vertices : list (F * F * F)) (elevation_grid : grid F) : result (list color) :=
  min_elev <- np_min elevation_grid ;;
  max_elev <- np_max elevation_grid ;;
  let elev_range := fsub max_elev min_elev in
  if feq elev_range (of_Z 0) then
    c <- py_getitem color_palette 0 ;;
    ret (repeat c (length vertices))
  else
    let z_coords :=
      map (fun v => fsub (snd v) (base_thickness_mm (terrain config))) vertices in
    z_min <- np_min [z_coords] ;;
    z_max <- np_max [z_coords] ;;
    let z_range := fsub z_max z_min in
    if feq z_range (of_Z 0) then
      c <- py_getitem color_palette 0 ;;
      ret (repeat c (length vertices))
    else
      let normalized_z := map (fun z => fdiv (fsub z z_min) z_range) z_coords in
      let num_colors := Z.of_nat (length color_palette) in
      let zone_indices :=
        map (fun nz => np_clip (floor_int (fmul nz (of_Z num_colors))) 0 (num_colors - 1))
            normalized_z in
      result_map (py_getitem color_palette) zone_indices.
End VertexColors.

Lemma fold_max_spec (xs : list Q) (x m : Q) :
  fold_left (fun m d => if flt m d then d else m) xs x = m ->
  (x <= m)%Q /\ (forall d, In d xs -> (d <= m)%Q).
Proof.
  revert x. induction xs as [|y ys IH]; intros x Hm.
  - simpl in Hm. subst m. split; [apply Qle_refl|intros d []].
  - change (fold_left (fun m d => if flt m d then d else m) ys
              (if flt x y then y else x) = m) in Hm.
    destruct (flt x y) eqn:Hxy.
    + apply Q_flt_iff in Hxy. destruct (IH y Hm) as (Hle & Hall). split.
      * apply Qlt_le_weak in Hxy. apply (Qle_trans _ _ _ Hxy Hle).
      * intros d [<-|Hd]; [exact Hle|apply Hall; exact Hd].
    + apply Q_flt_false_iff in Hxy. destruct (IH x Hm) as (Hle & Hall). split.
      * exact Hle.
      * intros d [<-|Hd]; [apply (Qle_trans _ _ _ Hxy Hle)|apply Hall; exact Hd].
Qed.

Lemma np_min_le (g : grid Q) (m : Q) :
  np_min g = inr m -> forall x, In x (concat g) -> (m <= x)%Q.
Proof.
  unfold np_min. destruct (concat g) as [|y ys]; [discriminate|].
  intros Hm x Hx. injection Hm as Hm.
  destruct (fold_min_spec ys y m Hm) as (_ & Hle & Hall).
  destruct Hx as [<-|Hx]; [exact Hle|apply Hall; exact Hx].
Qed.

Lemma np_max_ge (g : grid Q) (m : Q) :
  np_max g = inr m -> forall x, In x (concat g) -> (x <= m)%Q.
Proof.
  unfold np_max. destruct (concat g) as [|y ys]; [discriminate|].
  intros Hm x Hx. injection Hm as Hm.
  destruct (fold_max_spec ys y m Hm) as (Hle & Hall).
  destruct Hx as [<-|Hx]; [exact Hle|apply Hall; exact Hx].
Qed.

Lemma np_min_max_nonempty {F : Type} `{Scalar F} (l : list F) :
  l <> [] -> exists lo hi, np_min [l] = inr lo /\ np_max [l] = inr hi.
Proof.
  destruct l as [|x xs]; [congruence|]. intros _.
  unfold np_min, np_max. simpl concat. eexists _, _. split; reflexivity.
Qed.

Lemma py_getitem_in_range {A : Type} (l : list A) (i : Z) (d : A) :
  (0 <= i < Z.of_nat (length l))%Z ->
  py_getitem l i = inr (nth (Z.to_nat i) l d).
Proof.
  intros [Hlo Hhi]. unfold py_getitem.
  destruct (Z.ltb_spec i 0) as [Hneg|_]; [lia|].
  destruct (nth_error l (Z.to_nat i)) as [x|] eqn:Hx.
  - destruct (Z.leb_spec 0 i) as [_|Hneg]; [|lia].
    rewrite (nth_error_nth _ _ d Hx). reflexivity.
  - apply nth_error_None in Hx. lia.
Qed.

Lemma result_map_in_range {A B : Type} (g : A -> Z) (l : list A) (p : list B) (d : B) :
  (forall x, In x l -> (0 <= g x < Z.of_nat (length p))%Z) ->
  result_map (py_getitem p) (map g l) = inr (map (fun x => nth (Z.to_nat (g x)) p d) l).
Proof.
  induction l as [|x xs IH]; intros Hr; [reflexivity|].
  simpl. rewrite (py_getitem_in_range p (g x) d) by (apply Hr; left; reflexivity).
  simpl. rewrite IH by (intros y Hy; apply Hr; right; exact Hy). reflexivity.
Qed.

Lemma np_clip_range (a n : Z) : (1 <= n)%Z -> (0 <= np_clip a 0 (n - 1) < n)%Z.
Proof. unfold np_clip. lia. Qed.

(** [normalized_z] of a vertex: its Z minus the base thickness, mapped to
    [[0, 1]] over the extent [[z_min, z_max]] of those values. *)
Definition normalized_height (base z_min z_max : Q) (v : Q * Q * Q) : Q :=
  ((snd v - base - z_min) / (z_max - z_min))%Q.

(** [clamp(floor(normalized * palette_size), 0, palette_size - 1)]. *)
Definition palette_bucket (palette_size : nat) (normalized : Q) : Z :=
  np_clip (Qfloor (normalized * inject_Z (Z.of_nat palette_size)))
          0 (Z.of_nat palette_size - 1).

Definition z_coords_of (base : Q) (vertices : list (Q * Q * Q)) : list Q :=
  map (fun v => (snd v - base)%Q) vertices.

(** [clamp(k, lo, hi)], written out: [lo] below [lo], [hi] above [hi], [k]
    itself in between. *)
Definition clamp (k lo hi : Z) : Z :=
  if (k <? lo)%Z then lo else if (hi <? k)%Z then hi else k.

Lemma np_clip_clamp (k lo hi : Z) : (lo <= hi)%Z -> np_clip k lo hi = clamp k lo hi.
Proof.
  intros Hle. unfold np_clip, clamp.
  destruct (Z.ltb_spec k lo); destruct (Z.ltb_spec hi k); lia.
Qed.

Section Buckets.
Context {F : Type} `{Scalar F} `{RoundScalar F}.

(** [normalized_z] of a vertex: its Z minus the base thickness, taken
    relative to the least such value [z_min] and divided by the extent
    [z_max - z_min]. *)
Definition normalized_z (base z_min z_max : F) (v : F * F * F) : F :=
  fdiv (fsub (fsub (snd v) base) z_min) (fsub z_max z_min).

(** [clamp(floor(normalized_z * palette_size), 0, palette_size - 1)]. *)
Definition bucket_index (palette_size : nat) (nz : F) : Z :=
  clamp (floor_int (fmul nz (of_Z (Z.of_nat palette_size))))
        0 (Z.of_nat palette_size - 1).

Lemma bucket_index_range (palette_size : nat) (nz : F) :
  1 <= palette_size ->
  (0 <= bucket_index palette_size nz <= Z.of_nat palette_size - 1)%Z.
Proof.
  intros Hn. unfold bucket_index, clamp.
  destruct (Z.ltb_spec (floor_int (fmul nz (of_Z (Z.of_nat palette_size)))) 0);
    [lia|].
  destruct (Z.ltb_spec (Z.of_nat palette_size - 1)
              (floor_int (fmul nz (of_Z (Z.of_nat palette_size))))); lia.
Qed.

(** The function on any scalar type, binary64 included: what it returns for
    a non-empty palette and a non-empty vertex list. *)
Lemma calculate_vertex_colors_spec
    (config : Config F) (color_palette : list color)
    (vertices : list (F * F * F)) (elevation_grid : grid F) (min_elev max_elev : F) :
  color_palette <> [] -> vertices <> [] ->
  np_min elevation_grid = inr min_elev -> np_max elevation_grid = inr max_elev ->
  exists z_min z_max,
    np_min [map (fun v => fsub (snd v) (base_thickness_mm (terrain config))) vertices]
      = inr z_min /\
    np_max [map (fun v => fsub (snd v) (base_thickness_mm (terrain config))) vertices]
      = inr z_max /\
    (feq (fsub max_elev min_elev) (of_Z 0) = true \/
     feq (fsub z_max z_min) (of_Z 0) = true ->
     _calculate_vertex_colors config color_palette vertices elevation_grid =
     inr (repeat (nth 0 color_palette (0, 0, 0, 0)%Z) (length vertices))) /\
    (feq (fsub max_elev min_elev) (of_Z 0) = false ->
     feq (fsub z_max z_min) (of_Z 0) = false ->
     _calculate_vertex_colors config color_palette vertices elevation_grid =
     inr (map (fun v =>
                 nth (Z.to_nat
                        (bucket_index (length color_palette)
                           (normalized_z (base_thickness_mm (terrain config))
                                         z_min z_max v)))
                     color_palette (0, 0, 0, 0)%Z)
              vertices)).
Proof.
  intros Hpal Hverts Hmin Hmax.
  set (base := base_thickness_mm (terrain config)).
  assert (Hzc : map (fun v : F * F * F => fsub (snd v) base) vertices <> [])
    by (destruct vertices; [congruence|discriminate]).
  destruct (np_min_max_nonempty _ Hzc) as (z_min & z_max & Hzmin & Hzmax).
  exists z_min, z_max. split; [exact Hzmin|]. split; [exact Hzmax|].
  assert (Hn : (1 <= Z.of_nat (length color_palette))%Z)
    by (destruct color_palette; [congruence|simpl; lia]).
  assert (Hfirst : py_getitem color_palette 0 = inr (nth 0 color_palette (0, 0, 0, 0)%Z))
    by (apply (py_getitem_in_range color_palette 0); lia).
  unfold _calculate_vertex_colors. rewrite Hmin, Hmax. cbn [bind].
  fold base. rewrite Hzmin, Hzmax. cbn [bind]. rewrite Hfirst. cbn [bind].
  split.
  - intros Hdeg.
    destruct (feq (fsub max_elev min_elev) (of_Z 0)); [reflexivity|].
    destruct Hdeg as [Hdeg|Hdeg]; [discriminate|]. rewrite Hdeg. reflexivity.
  - intros He Hz. rewrite He, Hz. rewrite !map_map.
    rewrite (result_map_in_range _ vertices color_palette (0, 0, 0, 0)%Z).
    + unfold ret. f_equal. apply map_ext. intros v.
      rewrite np_clip_clamp by lia. reflexivity.
    + intros v _. apply np_clip_range. exact Hn.
Qed.
End Buckets.

(** In exact arithmetic [normalized_z] lies in [[0, 1]]. *)
Lemma normalized_z_unit_interval (base z_min z_max : Q) (vertices : list (Q * Q * Q)) :
  np_min [z_coords_of base vertices] = inr z_min ->
  np_max [z_coords_of base vertices] = inr z_max ->
  ~ (z_max - z_min == 0)%Q ->
  forall v, In v vertices -> (0 <= normalized_z base z_min z_max v <= 1)%Q.
Proof.
  intros Hzmin Hzmax Hz v Hv.
  assert (Hin : In (snd v - base)%Q (concat [z_coords_of base vertices])).
  { simpl. rewrite app_nil_r. unfold z_coords_of.
    apply (in_map (fun v => (snd v - base)%Q)). exact Hv. }
  pose proof (np_min_le _ _ Hzmin _ Hin) as Hlo.
  pose proof (np_max_ge _ _ Hzmax _ Hin) as Hhi.
  assert (Hpos : (0 < z_max - z_min)%Q).
  { destruct (Qlt_le_dec 0 (z_max - z_min)) as [Hp|Hnp]; [exact Hp|].
    exfalso. apply Hz. lra. }
  unfold normalized_z. cbn [fdiv fsub Q_scalar]. split.
  - apply Qle_shift_div_l; [exact Hpos|]. lra.
  - apply Qle_shift_div_r; [exact Hpos|]. lra.
Qed.

(** C7: with a non-empty palette and a non-empty vertex list, and on any
    scalar type (binary64 included), [_calculate_vertex_colors] returns
    without raising; every vertex gets the palette colour at index
    [clamp(floor(normalized_z * palette_size), 0, palette_size - 1)], which
    lies in [[0, palette_size - 1]], where [normalized_z] is
    [(z - base_thickness - z_min) / (z_max - z_min)] over the least and
    greatest [z - base_thickness] of the solid; when the elevation range of
    the source grid or that Z extent is zero, every vertex gets palette colour
    0.  In exact arithmetic, with the floor and the operations of the
    rationals written out, the same index formula holds and [normalized_z]
    lies in [[0, 1]]. *)
Theorem vertex_colors_by_bucket :
  (forall (F : Type) (SF : Scalar F) (RF : RoundScalar F)
          (config : Config F) (color_palette : list color)
          (vertices : list (F * F * F)) (elevation_grid : grid F)
          (min_elev max_elev : F),
     color_palette <> [] -> vertices <> [] ->
     np_min elevation_grid = inr min_elev -> np_max elevation_grid = inr max_elev ->
     exists z_min z_max,
       np_min [map (fun v => fsub (snd v) (base_thickness_mm (terrain config))) vertices]
         = inr z_min /\
       np_max [map (fun v => fsub (snd v) (base_thickness_mm (terrain config))) vertices]
         = inr z_max /\
       (feq (fsub max_elev min_elev) (of_Z 0) = true \/
        feq (fsub z_max z_min) (of_Z 0) = true ->
        _calculate_vertex_colors config color_palette vertices elevation_grid =
        inr (repeat (nth 0 color_palette (0, 0, 0, 0)%Z) (length vertices))) /\
       (feq (fsub max_elev min_elev) (of_Z 0) = false ->
        feq (fsub z_max z_min) (of_Z 0) = false ->
        _calculate_vertex_colors config color_palette vertices elevation_grid =
        inr (map (fun v =>
                    nth (Z.to_nat
                           (clamp
                              (floor_int
                                 (fmul
                                    (fdiv (fsub (fsub (snd v)
                                                   (base_thickness_mm (terrain config)))
                                                z_min)
                                          (fsub z_max z_min))
                                    (of_Z (Z.of_nat (length color_palette)))))
                              0 (Z.of_nat (length color_palette) - 1)))
                        color_palette (0, 0, 0, 0)%Z)
                 vertices) /\
        forall nz : F,
          (0 <= clamp (floor_int (fmul nz (of_Z (Z.of_nat (length color_palette)))))
                      0 (Z.of_nat (length color_palette) - 1)
             <= Z.of_nat (length color_palette) - 1)%Z)) /\
  (forall (config : Config Q) (color_palette : list color)
          (vertices : list (Q * Q * Q)) (elevation_grid : grid Q)
          (min_elev max_elev z_min z_max : Q),
     color_palette <> [] ->
     np_min elevation_grid = inr min_elev -> np_max elevation_grid = inr max_elev ->
     ~ (max_elev - min_elev == 0)%Q ->
     np_min [map (fun v => (snd v - base_thickness_mm (terrain config))%Q) vertices]
       = inr z_min ->
     np_max [map (fun v => (snd v - base_thickness_mm (terrain config))%Q) vertices]
       = inr z_max ->
     ~ (z_max - z_min == 0)%Q ->
     _calculate_vertex_colors config color_palette vertices elevation_grid =
     inr (map (fun v =>
                 nth (Z.to_nat
                        (clamp
                           (Qfloor
                              ((snd v - base_thickness_mm (terrain config) - z_min)
                               / (z_max - z_min)
                               * inject_Z (Z.of_nat (length color_palette))))
                           0 (Z.of_nat (length color_palette) - 1)))
                     color_palette (0, 0, 0, 0)%Z)
              vertices) /\
     forall v, In v vertices ->
       (0 <= (snd v - base_thickness_mm (terrain config) - z_min) / (z_max - z_min)
          <= 1)%Q).
Proof.
  split.
  - intros F SF RF config color_palette vertices elevation_grid min_elev max_elev
      Hpal Hverts Hmin Hmax.
    destruct (calculate_vertex_colors_spec config color_palette vertices
                elevation_grid min_elev max_elev Hpal Hverts Hmin Hmax)
      as (z_min & z_max & Hzmin & Hzmax & Hflat & Hgen).
    exists z_min, z_max. split; [exact Hzmin|]. split; [exact Hzmax|].
    split; [exact Hflat|]. intros He Hz. split; [exact (Hgen He Hz)|].
    intros nz. apply (bucket_index_range (length color_palette) nz).
    destruct color_palette; [congruence|simpl; lia].
  - intros config color_palette vertices elevation_grid min_elev max_elev z_min z_max
      Hpal Hmin Hmax He Hzmin Hzmax Hz.
    split.
    + assert (Hverts : vertices <> []).
      { intros ->. unfold np_min in Hzmin. simpl in Hzmin. discriminate. }
      destruct (calculate_vertex_colors_spec config color_palette vertices
                  elevation_grid min_elev max_elev Hpal Hverts Hmin Hmax)
        as (zm & zM & Hzm & HzM & _ & Hgen).
      pose proof (eq_trans (eq_sym Hzm) Hzmin) as Em. injection Em as ->.
      pose proof (eq_trans (eq_sym HzM) Hzmax) as EM. injection EM as ->.
      apply Hgen.
      * destruct (feq (fsub max_elev min_elev) (of_Z 0)) eqn:E; [|reflexivity].
        exfalso. apply He. apply Q_feq_iff in E. exact E.
      * destruct (feq (fsub z_max z_min) (of_Z 0)) eqn:E; [|reflexivity].
        exfalso. apply Hz. apply Q_feq_iff in E. exact E.
    + intros v Hv.
      exact (normalized_z_unit_interval (base_thickness_mm (terrain config))
               z_min z_max vertices Hzmin Hzmax Hz v Hv).
Qed.

Definition palette_rgb : list color :=
  [(0, 0, 255, 255); (0, 255, 0, 255); (255, 0, 0, 255)]%Z.

(** Three vertices at heights 0, 6 and -5 above the base thickness 5, three
    colours: the normalised heights are 5/11, 1 and 0, the buckets 1, 2 (3
    clamped) and 0. *)
Lemma vertex_colors_by_bucket_witness :
  exists z_min z_max : Q,
    np_min [map (fun v : Q * Q * Q => fsub (snd v) 5%Q)
              [(0, 0, 5); (1, 0, 11); (0, 0, 0)]%Q] = inr z_min /\
    np_max [map (fun v : Q * Q * Q => fsub (snd v) 5%Q)
              [(0, 0, 5); (1, 0, 11); (0, 0, 0)]%Q] = inr z_max /\
    (feq (fsub 40%Q 10%Q) (of_Z 0) = true \/ feq (fsub z_max z_min) (of_Z 0) = true ->
     _calculate_vertex_colors config_colors_on palette_rgb
       [(0, 0, 5); (1, 0, 11); (0, 0, 0)]%Q [[10; 40]]%Q =
     inr (repeat (nth 0 palette_rgb (0, 0, 0, 0)%Z) 3)) /\
    (feq (fsub 40%Q 10%Q) (of_Z 0) = false ->
     feq (fsub z_max z_min) (of_Z 0) = false ->
     _calculate_vertex_colors config_colors_on palette_rgb
       [(0, 0, 5); (1, 0, 11); (0, 0, 0)]%Q [[10; 40]]%Q =
     inr (map (fun v : Q * Q * Q =>
                 nth (Z.to_nat
                        (clamp
                           (floor_int
                              (fmul (fdiv (fsub (fsub (snd v) 5%Q) z_min)
                                          (fsub z_max z_min))
                                    (of_Z (Z.of_nat 3))))
                           0 (Z.of_nat 3 - 1)))
                     palette_rgb (0, 0, 0, 0)%Z)
              [(0, 0, 5); (1, 0, 11); (0, 0, 0)]%Q) /\
     forall nz : Q,
       (0 <= clamp (floor_int (fmul nz (of_Z (Z.of_nat 3)))) 0 (Z.of_nat 3 - 1)
          <= Z.of_nat 3 - 1)%Z).
Proof.
  apply (proj1 vertex_colors_by_bucket Q _ _ config_colors_on palette_rgb
           [(0, 0, 5); (1, 0, 11); (0, 0, 0)]%Q [[10; 40]]%Q 10%Q 40%Q);
    [discriminate|discriminate|reflexivity|reflexivity].
Defined.

Example vertex_colors_of_three_vertices :
  _calculate_vertex_colors config_colors_on palette_rgb
    [(0, 0, 5); (1, 0, 11); (0, 0, 0)]%Q [[10; 40]]%Q =
  inr [(0, 255, 0, 255); (255, 0, 0, 255); (0, 0, 255, 255)]%Z.
Proof. vm_compute. reflexivity. Qed.

Example vertex_colors_of_flat_terrain :
  _calculate_vertex_colors config_colors_on palette_rgb
    [(0, 0, 5); (1, 0, 5); (0, 0, 0)]%Q [[100; 100]; [100; 100]]%Q =
  inr [(0, 0, 255, 255); (0, 0, 255, 255); (0, 0, 255, 255)]%Z.
Proof. vm_compute. reflexivity. Qed.

(** ** Degenerate planar extents *)

Section DegenerateExtent.
Context {F : Type} `{Scalar F}.


Definition nonempty (g : grid F) : Prop := concat g <> [].

Lemma np_max_nonempty (g : grid F) :
  nonempty g -> np_max g = inr (fold_left np_maximum (tl (concat g)) (hd fzero (concat g))).
Proof. unfold nonempty, np_max. destruct (concat g); [congruence|reflexivity]. Qed.

Lemma np_min_nonempty (g : grid F) :
  nonempty g -> np_min g = inr (fold_left np_minimum (tl (concat g)) (hd fzero (concat g))).
Proof. unfold nonempty, np_min. destruct (concat g); [congruence|reflexivity]. Qed.

Lemma grid_map_nonempty (f : F -> F) (g : grid F) :
  nonempty g -> nonempty (grid_map f g).
Proof.
  unfold nonempty, grid_map. rewrite <- concat_map.
  destruct (concat g); [congruence|discriminate].
Qed.





End DegenerateExtent.

(** The default configuration over binary64. *)
Definition config_float : Config PrimFloat.float :=
  example_config false 1 false true (of_Z 2) (of_Z 2).

(** A 2 x 2 grid whose X coordinates are all 3: zero X extent. *)
Definition x_grid_flat : grid PrimFloat.float :=
  [[of_Z 3; of_Z 3]; [of_Z 3; of_Z 3]].

Definition y_grid_10 : grid PrimFloat.float :=
  [[of_Z 0; of_Z 0]; [of_Z 10; of_Z 10]].

Definition y_grid_flat : grid PrimFloat.float :=
  [[of_Z 7; of_Z 7]; [of_Z 7; of_Z 7]].

Definition elevation_2x2 : grid PrimFloat.float :=
  [[of_Z 100; of_Z 110]; [of_Z 120; of_Z 130]].

(** What the division gives in binary64.  With one zero extent the infinite
    quotient loses to the finite one in [min], so the scale factor is
    200 / 10 = 20 and the collapsed axis lands on the bed centre 110; with
    both extents zero the scale factor is infinite and the planar coordinates
    are NaN. *)
Example zero_x_extent_coordinates :
  exists x_norm y_norm z_norm,
    _normalize_to_printer_bed config_float x_grid_flat y_grid_10 elevation_2x2
      = inr (x_norm, y_norm, z_norm) /\
    x_norm = [[of_Z 110; of_Z 110]; [of_Z 110; of_Z 110]] /\
    y_norm = [[of_Z 10; of_Z 10]; [of_Z 210; of_Z 210]].
Proof. eexists _, _, _. split; [vm_compute; reflexivity|]. split; reflexivity. Qed.

Example zero_planar_extents_give_nan :
  exists x_norm y_norm z_norm,
    _normalize_to_printer_bed config_float x_grid_flat y_grid_flat elevation_2x2
      = inr (x_norm, y_norm, z_norm) /\
    forallb (forallb fisnan) x_norm = true /\
    forallb (forallb fisnan) y_norm = true.
Proof. eexists _, _, _. split; [vm_compute; reflexivity|]. split; reflexivity. Qed.








(** ** The multi-layer path ([mesh/simple_multicolor.py]) *)

(** The one fact about float equality the generators rely on: a value equals
    itself unless it is NaN. *)
Class ScalarLaws (F : Type) `{Scalar F} : Prop := {
  feq_self_or_nan : forall x : F, feq x x || fisnan x = true
}.

#[export] Instance Q_scalar_laws : ScalarLaws Q.
Proof.
  split. intros x. apply orb_true_iff. left. apply Qeq_bool_iff. apply Qeq_refl.
Qed.

#[export] Instance float_scalar_laws : ScalarLaws PrimFloat.float.
Proof. split. intros x. apply orb_negb_r. Qed.

(** [f"layer{i:02d}"]. *)
Definition layer_name (i : nat) : string :=
  "layer" +:+ (if i <? 10 then "0" +:+ pretty i else pretty i).

(** The decimal numeral of a positive number does not start with 0. *)
Lemma pretty_N_go_head (x : N) :
  forall s, (0 < x)%N ->
  exists c s', pretty_N_go x s = String c s' /\ c <> pretty_N_char 0.
Proof.
  induction (N.lt_wf_0 x) as [x _ IH]. intros s Hx.
  rewrite pretty_N_go_step by exact Hx.
  destruct (N.eq_dec (x `div` 10) 0) as [E|Hne].
  - rewrite E, pretty_N_go_0. eexists _, _. split; [reflexivity|].
    assert (Hlt : (x < 10)%N) by (apply N.div_small_iff in E; lia).
    rewrite N.mod_small by exact Hlt.
    destruct x as [|p]; [lia|].
    do 4 (destruct p as [p|p|]; try lia; try discriminate).
  - apply IH; [apply N.div_lt; lia|apply N.neq_0_lt_0; exact Hne].
Qed.

(** [f"layer{i:02d}"] names different layers differently. *)
Lemma layer_name_inj (i j : nat) : layer_name i = layer_name j -> i = j.
Proof.
  assert (G : forall a b, a < 10 -> 10 <= b -> "0" +:+ pretty a <> pretty b).
  { intros a b Ha Hb E. unfold pretty at 2, pretty_nat, pretty, pretty_N in E.
    destruct (decide (N.of_nat b = 0%N)) as [Hz|Hnz]; [lia|].
    destruct (pretty_N_go_head (N.of_nat b) "" ltac:(lia)) as (c & s' & Ec & Hc).
    rewrite Ec in E. simpl in E. injection E as E _. apply Hc. rewrite <- E. reflexivity. }
  unfold layer_name. intros E. apply String.app_inj in E.
  destruct (Nat.ltb_spec i 10) as [Hi|Hi]; destruct (Nat.ltb_spec j 10) as [Hj|Hj].
  - apply String.app_inj in E. apply (inj pretty) in E. exact E.
  - exfalso. exact (G i j Hi Hj E).
  - exfalso. symmetry in E. exact (G j i Hj Hi E).
  - apply (inj pretty) in E. exact E.
Qed.

(** [for i in range(rows): for j in range(cols)], as the list of cells
    visited. *)
Definition cells (rows cols : nat) : list (nat * nat) :=
  flat_map (fun i => map (fun j => (i, j)) (seq 0 cols)) (seq 0 rows).

Section SimpleLayers.
Context {F : Type} `{Scalar F}.

(** The trimesh side, which the repository only calls: the mesh type, the
    [trimesh.Trimesh(vertices=..., faces=...)] constructor and the repair
    pass [_validate_and_fix_mesh], whose steps are all trimesh methods.  Both
    can raise. *)
Variable Mesh : Type.
Variable Trimesh : list (F * F * F) -> list face -> result Mesh.
Variable _validate_and_fix_mesh : Mesh -> result Mesh.

(** The two lines [mesh = trimesh.Trimesh(vertices=vertices, faces=faces)]
    and [mesh = self.base_generator._validate_and_fix_mesh(mesh)] that end
    [_create_base_layer] and [_create_color_layer]. *)
Definition make_mesh (vertices : list (F * F * F)) (faces : list face) : result Mesh :=
  mesh <- Trimesh vertices faces ;;
  _validate_and_fix_mesh mesh.

(** [_is_boundary_point], the loop body at offset [(di, dj)]; [acc] holds
    [True] once a neighbour in [target_zone] has been found, after which the
    loop has returned. *)
Definition boundary_step (i j rows cols : nat) (z_grid : grid F)
    (zones : list (zone F)) (target_zone : nat)
    (acc : result bool) (d : Z * Z) : result bool :=
  found <- acc ;;
  if found : bool then ret true
  else
    let '(di, dj) := d in
    if (di =? 0)%Z && (dj =? 0)%Z then ret false
    else
      let ni := (Z.of_nat i + di)%Z in
      let nj := (Z.of_nat j + dj)%Z in
      if (0 <=? ni)%Z && (ni <? Z.of_nat rows)%Z &&
         (0 <=? nj)%Z && (nj <? Z.of_nat cols)%Z &&
         negb (fisnan (gget z_grid (Z.to_nat ni) (Z.to_nat nj)))
      then
        neighbor_zone <-
          SimpleMultiColor._assign_elevation_to_zone
            (gget z_grid (Z.to_nat ni) (Z.to_nat nj)) zones ;;
        ret (neighbor_zone =? target_zone)
      else ret false.

(** [_is_boundary_point]: is some of the 8 neighbours of cell (i, j) assigned
    to [target_zone]? *)
Definition _is_boundary_point (i j : nat) (x_grid y_grid z_grid : grid F)
    (zones : list (zone F)) (target_zone : nat) : result bool :=
  let '(rows, cols) := shape x_grid in
  fold_left (boundary_step i j rows cols z_grid zones target_zone)
    (flat_map (fun di => map (fun dj => (di, dj)) [-1; 0; 1]%Z) [-1; 0; 1]%Z)
    (ret false).

(** [_create_color_layer], the test on one cell: does it get a vertex pair
    in the layer of [zone_idx]? *)
Definition should_include (x_grid y_grid z_grid : grid F) (zones : list (zone F))
    (zone_idx : nat) (c : nat * nat) : result bool :=
  let '(i, j) := c in
  if fisnan (gget z_grid i j) then ret false
  else
    point_zone <- SimpleMultiColor._assign_elevation_to_zone (gget z_grid i j) zones ;;
    if point_zone =? zone_idx then ret true
    else if zone_idx <? point_zone
         then _is_boundary_point i j x_grid y_grid z_grid zones zone_idx
         else ret false.

(** [_create_color_layer], the vertex loop.  The state is the vertex list
    and the array [vertex_indices]; a cell absent from the map holds -1. *)
Fixpoint layer_vertices_loop (x_grid y_grid z_grid : grid F) (zones : list (zone F))
    (zone_idx : nat) (layer_thickness : F) (cs : list (nat * nat))
    (st : list (F * F * F) * gmap (nat * nat) nat)
  : result (list (F * F * F) * gmap (nat * nat) nat) :=
  match cs with
  | [] => ret st
  | c :: cs' =>
      inc <- should_include x_grid y_grid z_grid zones zone_idx c ;;
      let '(vertices, vertex_indices) := st in
      let '(i, j) := c in
      let terrain_height := gget z_grid i j in
      layer_vertices_loop x_grid y_grid z_grid zones zone_idx layer_thickness cs'
        (if inc : bool
         then (vertices ++ [(gget x_grid i j, gget y_grid i j,
                             fadd terrain_height layer_thickness);
                            (gget x_grid i j, gget y_grid i j, terrain_height)],
               <[(i, j) := length vertices]> vertex_indices)
         else st)
  end.

(** [_create_layer_faces]: top and bottom triangles over the quads whose four
    corners are in the layer, then walls between horizontally and vertically
    adjacent cells of the layer. *)
Definition _create_layer_faces (vertex_indices : gmap (nat * nat) nat) (rows cols : nat)
  : list face :=
  flat_map
    (fun c : nat * nat =>
       let '(i, j) := c in
       match vertex_indices !! (i, j), vertex_indices !! (i, j + 1),
             vertex_indices !! (i + 1, j), vertex_indices !! (i + 1, j + 1) with
       | Some v00, Some v01, Some v10, Some v11 =>
           [(v00, v01, v10); (v01, v11, v10);
            (v00 + 1, v10 + 1, v01 + 1); (v01 + 1, v10 + 1, v11 + 1)]
       | _, _, _, _ => []
       end)
    (cells (rows - 1) (cols - 1))
  ++
  flat_map
    (fun c : nat * nat =>
       let '(i, j) := c in
       match vertex_indices !! (i, j) with
       | Some curr_top =>
           let curr_bottom := curr_top + 1 in
           (if j + 1 <? cols then
              match vertex_indices !! (i, j + 1) with
              | Some next_top =>
                  [(curr_bottom, curr_top, next_top + 1);
                   (curr_top, next_top, next_top + 1)]
              | None => []
              end
            else [])
           ++
           (if i + 1 <? rows then
              match vertex_indices !! (i + 1, j) with
              | Some next_top =>
                  [(curr_bottom, next_top, curr_top);
                   (curr_bottom, next_top + 1, next_top)]
              | None => []
              end
            else [])
       | None => []
       end)
    (cells rows cols).

(** [_create_color_layer]: [None] when no cell belongs to the layer. *)
Definition _create_color_layer (config : Config F) (x_grid y_grid z_grid : grid F)
    (zones : list (zone F)) (zone_idx : nat) : result (option Mesh) :=
  let '(rows, cols) := shape x_grid in
  let layer_thickness := layer_thickness_mm (colors (terrain config)) in
  '(vertices, vertex_indices) <-
    layer_vertices_loop x_grid y_grid z_grid zones zone_idx layer_thickness
      (cells rows cols) ([], ∅) ;;
  if length vertices =? 0 then ret None
  else
    let faces := _create_layer_faces vertex_indices rows cols in
    mesh <- make_mesh vertices faces ;;
    ret (Some mesh).

(** [_create_base_layer]: the solid of the single-solid path over the whole
    grid. *)
Definition _create_base_layer (x_grid y_grid z_grid : grid F) : result Mesh :=
  let vf := _create_surface_mesh x_grid y_grid z_grid in
  let '(rows, cols) := shape x_grid in
  '(vertices, faces) <- call_add_base rows cols vf ;;
  make_mesh vertices faces.

(** [generate_multi_color_meshes], the loop
    [for i, (zone_min, zone_max) in enumerate(zones[1:], 1)]. *)
Fixpoint color_layers_loop (config : Config F) (x_grid y_grid z_grid : grid F)
    (zones : list (zone F)) (ks : list nat) (meshes : gmap string Mesh)
  : result (gmap string Mesh) :=
  match ks with
  | [] => ret meshes
  | i :: ks' =>
      layer_mesh <- _create_color_layer config x_grid y_grid z_grid zones i ;;
      color_layers_loop config x_grid y_grid z_grid zones ks'
        match layer_mesh with
        | Some m => <[layer_name i := m]> meshes
        | None => meshes
        end
  end.

(** [generate_multi_color_meshes]; the planar grids are the output of
    [_latlon_to_meters]. *)
Definition generate_multi_color_meshes (config : Config F)
    (x_grid y_grid elevation_grid : grid F) : result (gmap string Mesh) :=
  let z_grid :=
    grid_map (fun e => fmul e (vertical_exaggeration (terrain config))) elevation_grid in
  '(x_grid_norm, y_grid_norm, z_grid_norm) <-
    _normalize_to_printer_bed config x_grid y_grid z_grid ;;
  let layer_thickness := layer_thickness_mm (colors (terrain config)) in
  let z_grid_norm := grid_map (fun v => fadd v layer_thickness) z_grid_norm in
  zones <- SimpleMultiColor._calculate_color_zones config z_grid_norm ;;
  base_mesh <- _create_base_layer x_grid_norm y_grid_norm z_grid_norm ;;
  let meshes := <["layer00" := base_mesh]> (∅ : gmap string Mesh) in
  color_layers_loop config x_grid_norm y_grid_norm z_grid_norm zones
    (seq 1 (length (tl zones))) meshes.
End SimpleLayers.


Section SimpleLayersFacts.
Context {F : Type} `{ScalarLaws F}.
Variable Mesh : Type.
Variable Trimesh : list (F * F * F) -> list face -> result Mesh.
Variable _validate_and_fix_mesh : Mesh -> result Mesh.


Lemma fold_step_in (xs : list F) (x : F) :
  In (fold_left (fun m d => if flt d m then d else m) xs x) (x :: xs).
Proof.
  revert x. induction xs as [|y ys IH]; intros x; simpl fold_left.
  - left. reflexivity.
  - destruct (IH (if flt y x then y else x)) as [Heq|Hin].
    + rewrite <- Heq. destruct (flt y x); simpl; auto.
    + right. right. exact Hin.
Qed.

Lemma py_list_index_returns (m : F) (l : list F) :
  In m l -> returns (py_list_index m l).
Proof.
  induction l as [|d ds IH]; intros Hin; [destruct Hin|].
  simpl. destruct (feq d m || fisnan d && fisnan m) eqn:Ht.
  - exists 0. reflexivity.
  - destruct Hin as [->|Hin].
    + exfalso. pose proof (feq_self_or_nan m) as Hlaw.
      destruct (feq m m); [discriminate|]. simpl in Hlaw, Ht.
      rewrite Hlaw in Ht. discriminate.
    + destruct (IH Hin) as [i ->]. exists (S i). reflexivity.
Qed.

Lemma assign_returns (e : F) (zones : list (zone F)) :
  tl zones <> [] -> returns (SimpleMultiColor._assign_elevation_to_zone e zones).
Proof.
  intros Hne. unfold SimpleMultiColor._assign_elevation_to_zone.
  destruct (first_containing e (tl zones) 0) as [k|]; [exists k; reflexivity|].
  destruct (tl zones) as [|z zs]; [congruence|].
  simpl map. unfold py_list_min. simpl bind.
  destruct (py_list_index_returns _ _
              (fold_step_in (map (zone_distance e) zs) (zone_distance e z)))
    as [i Hi].
  simpl in Hi. simpl. rewrite Hi. exists (i + 1). reflexivity.
Qed.









(** What the loop over the zones leaves in the mapping: the layer of each
    zone under the zone's own name, and every other key as it was. *)
Lemma color_layers_loop_lookup (config : Config F) (x_grid y_grid z_grid : grid F)
    (zones : list (zone F)) (ks : list nat) :
  forall meshes meshes' : gmap string Mesh,
  NoDup ks ->
  color_layers_loop Mesh Trimesh _validate_and_fix_mesh
    config x_grid y_grid z_grid zones ks meshes = inr meshes' ->
  (forall k, (forall i, In i ks -> k <> layer_name i) -> meshes' !! k = meshes !! k) /\
  (forall i, In i ks ->
     exists layer,
       _create_color_layer Mesh Trimesh _validate_and_fix_mesh
         config x_grid y_grid z_grid zones i = inr layer /\
       meshes' !! layer_name i =
         match layer with
         | Some m => Some m
         | None => meshes !! layer_name i
         end).
Proof.
  induction ks as [|i ks IH]; intros meshes meshes' Hnd Hloop.
  - simpl in Hloop. injection Hloop as <-. split; [reflexivity|intros i []].
  - simpl in Hloop.
    destruct (_create_color_layer Mesh Trimesh _validate_and_fix_mesh
                config x_grid y_grid z_grid zones i) as [e|layer] eqn:Hlayer;
      [discriminate|].
    simpl bind in Hloop. inversion Hnd as [|? ? Hi Hnd']; subst.
    destruct (IH _ _ Hnd' Hloop) as (Hother & Hin).
    assert (Hskip : forall k, k <> layer_name i ->
              match layer with
              | Some m => <[layer_name i := m]> meshes
              | None => meshes
              end !! k = meshes !! k).
    { intros k Hk. destruct layer as [m|]; [|reflexivity].
      apply lookup_insert_ne. congruence. }
    split.
    + intros k Hk. rewrite Hother by (intros i' Hi'; apply Hk; right; exact Hi').
      apply Hskip. apply Hk. left. reflexivity.
    + intros i' [<-|Hi'].
      * exists layer. split; [exact Hlayer|].
        rewrite Hother.
        -- destruct layer as [m|]; [apply lookup_insert_eq|reflexivity].
        -- intros i' Hi' E. apply layer_name_inj in E. subst i'. contradiction.
      * destruct (Hin i' Hi') as (layer' & Hlayer' & Hlook).
        exists layer'. split; [exact Hlayer'|]. rewrite Hlook.
        destruct layer' as [m'|]; [reflexivity|].
        apply Hskip. intros E. apply layer_name_inj in E. subst i'. contradiction.
Qed.

End SimpleLayersFacts.


Section MultiColorMeshes.
Context {F : Type} `{ScalarLaws F}.
Variable Mesh : Type.
Variable Trimesh : list (F * F * F) -> list face -> result Mesh.
Variable _validate_and_fix_mesh : Mesh -> result Mesh.




Lemma simple_zones_length (config : Config F) (z_grid : grid F) (zones : list (zone F)) :
  SimpleMultiColor._calculate_color_zones config z_grid = inr zones ->
  length (tl zones) = Z.to_nat (num_colors (colors (terrain config))).
Proof.
  unfold SimpleMultiColor._calculate_color_zones.
  destruct (np_nanmin z_grid) as [e|lo]; [discriminate|].
  destruct (np_nanmax z_grid) as [e|hi]; [discriminate|]. simpl bind.
  intros Hz. injection Hz as <-. simpl tl. rewrite length_map. apply length_py_range.
Qed.





(** The steps of a run of [generate_multi_color_meshes] that returned. *)
Lemma generate_multi_color_meshes_returned
    (config : Config F) (x_grid y_grid elevation_grid : grid F)
    (meshes : gmap string Mesh) :
  generate_multi_color_meshes Mesh Trimesh _validate_and_fix_mesh
    config x_grid y_grid elevation_grid = inr meshes ->
  exists x_norm y_norm z_norm zones base,
    _normalize_to_printer_bed config x_grid y_grid
      (grid_map (fun e => fmul e (vertical_exaggeration (terrain config)))
                elevation_grid) = inr (x_norm, y_norm, z_norm) /\
    SimpleMultiColor._calculate_color_zones config
      (grid_map (fun v => fadd v (layer_thickness_mm (colors (terrain config)))) z_norm)
      = inr zones /\
    _create_base_layer Mesh Trimesh _validate_and_fix_mesh x_norm y_norm
      (grid_map (fun v => fadd v (layer_thickness_mm (colors (terrain config)))) z_norm)
      = inr base /\
    color_layers_loop Mesh Trimesh _validate_and_fix_mesh config x_norm y_norm
      (grid_map (fun v => fadd v (layer_thickness_mm (colors (terrain config)))) z_norm)
      zones (seq 1 (length (tl zones))) (<["layer00" := base]> ∅) = inr meshes.
Proof.
  unfold generate_multi_color_meshes. intros Hgen.
  destruct (_normalize_to_printer_bed config x_grid y_grid
              (grid_map (fun e => fmul e (vertical_exaggeration (terrain config)))
                        elevation_grid)) as [e|[[xn yn] zn]] eqn:Hnorm;
    [discriminate|].
  cbn [bind] in Hgen.
  destruct (SimpleMultiColor._calculate_color_zones config
              (grid_map (fun v => fadd v (layer_thickness_mm (colors (terrain config))))
                        zn)) as [e|zones] eqn:Hzones; [discriminate|].
  cbn [bind] in Hgen.
  destruct (_create_base_layer Mesh Trimesh _validate_and_fix_mesh xn yn
              (grid_map (fun v => fadd v (layer_thickness_mm (colors (terrain config))))
                        zn)) as [e|base] eqn:Hbase; [discriminate|].
  cbn [bind] in Hgen.
  exists xn, yn, zn, zones, base.
  split; [reflexivity|]. split; [exact Hzones|]. split; [exact Hbase|]. exact Hgen.
Qed.

Lemma layer00_is_no_colour_layer (n i : nat) :
  In i (seq 1 n) -> "layer00" <> layer_name i.
Proof.
  intros Hi E. apply in_seq in Hi. change "layer00" with (layer_name 0) in E.
  apply layer_name_inj in E. lia.
Qed.



End MultiColorMeshes.


(** A concrete run over the rationals, with a mesh read as its numbers of
    vertices and faces and a repair pass that changes nothing: three colours
    over a 2 x 2 grid whose elevations are 0, 0 in the first row and 30, 30
    in the second.  No cell falls in the middle band and no higher cell
    touches one, so zone 2 has an empty footprint. *)
Definition mesh_counts : Type := nat * nat.

Definition count_mesh (vertices : list (Q * Q * Q)) (faces : list face)
  : result mesh_counts :=
  ret (length vertices, length faces).

Definition no_repair (mesh : mesh_counts) : result mesh_counts := ret mesh.

Definition config_three_colors : Config Q := example_config true 3 false true 2%Q 2%Q.

Definition x_grid_2x2 : grid Q := [[0; 1]; [0; 1]]%Q.
Definition y_grid_2x2 : grid Q := [[0; 0]; [1; 1]]%Q.
Definition elevation_peak : grid Q := [[0; 0]; [0; 30]]%Q.
Definition elevation_ridge : grid Q := [[0; 0]; [30; 30]]%Q.


(** The layer stored under a key, if generation returned and holds one. *)
Definition layer_lookup {M : Type} (r : result (gmap string M)) (k : string) : option M :=
  match r with
  | inr meshes => meshes !! k
  | inl _ => None
  end.

Example empty_zone_is_left_out :
  let r := generate_multi_color_meshes mesh_counts count_mesh no_repair
             config_three_colors x_grid_2x2 y_grid_2x2 elevation_ridge in
  layer_lookup r "layer00" = Some (8, 12) /\
  layer_lookup r "layer01" = Some (8, 12) /\
  layer_lookup r "layer02" = None /\
  layer_lookup r "layer03" = Some (4, 2).
Proof. vm_compute. repeat split. Qed.

(** Over a single row the call of [_add_base] raises, whatever the trimesh
    side would do. *)
Example single_row_raises :
  generate_multi_color_meshes mesh_counts count_mesh no_repair
    config_three_colors [[0; 1]]%Q [[0; 0]]%Q [[0; 30]]%Q =
  inl (IndexError
         "too many indices for array: array is 1-dimensional, but 2 were indexed").
Proof. vm_compute. reflexivity. Qed.

(** * Further properties of the code

    ** The boundary walk and the solid ([mesh/generator.py]) *)

(** The row-major indices of the cells on the rim of a rows x cols grid. *)
Definition on_boundary (rows cols v : nat) : Prop :=
  exists i j, i < rows /\ j < cols /\ v = i * cols + j /\
              (i = 0 \/ i + 1 = rows \/ j = 0 \/ j + 1 = cols).

Lemma NoDup_map_inj_on {A B} (g : A -> B) (l : list A) :
  (forall x y, In x l -> In y l -> g x = g y -> x = y) ->
  NoDup l -> NoDup (map g l).
Proof.
  intros Hinj Hnd. induction Hnd as [|x l Hx Hnd IH]; simpl; constructor.
  - intros Hin. apply in_map_iff in Hin as (y & Hy & Hin).
    assert (y = x) by (apply Hinj; [right; exact Hin|left; reflexivity|exact Hy]).
    subst y. contradiction.
  - apply IH. intros a b Ha Hb. apply Hinj; right; assumption.
Qed.

Lemma in_cloop (rows cols i j : nat) :
  2 <= rows -> 2 <= cols ->
  In (i, j) (cloop rows cols) <->
  i < rows /\ j < cols /\ (i = 0 \/ i + 1 = rows \/ j = 0 \/ j + 1 = cols).
Proof.
  intros Hr Hc. unfold cloop.
  assert (Hlt : (1 <? rows) = true) by (apply Nat.ltb_lt; lia). rewrite Hlt.
  rewrite !in_app_iff, !in_map_iff. split.
  - intros [(x & E & Hx)|[(x & E & Hx)|[(x & E & Hx)|(x & E & Hx)]]];
      inversion E; subst; try apply (proj2 (in_rev _ _)) in Hx; apply in_seq in Hx; lia.
  - intros (Hi & Hj & [->|[Hb|[->|Hb]]]).
    + left. exists j. split; [reflexivity|apply in_seq; lia].
    + right. right. left. exists j. split; [f_equal; lia|].
      apply in_rev. rewrite rev_involutive. apply in_seq. lia.
    + destruct (Nat.eq_dec i 0) as [->|Hi0].
      { left. exists 0. split; [reflexivity|apply in_seq; lia]. }
      destruct (Nat.eq_dec (i + 1) rows) as [Hl|Hl].
      { right. right. left. exists 0. split; [f_equal; lia|].
        apply in_rev. rewrite rev_involutive. apply in_seq. lia. }
      right. right. right. exists i. split; [reflexivity|].
      apply in_rev. rewrite rev_involutive. apply in_seq. lia.
    + destruct (Nat.eq_dec i 0) as [->|Hi0].
      { left. exists j. split; [reflexivity|apply in_seq; lia]. }
      destruct (Nat.eq_dec (i + 1) rows) as [Hl|Hl].
      { right. right. left. exists j. split; [f_equal; lia|].
        apply in_rev. rewrite rev_involutive. apply in_seq. lia. }
      right. left. exists i. split; [f_equal; lia|apply in_seq; lia].
Qed.

(** X1: over a grid with rows, cols >= 2, [_get_ordered_boundary_indices]
    lists 2 * (rows + cols) - 4 indices, lists none twice, and lists exactly
    the row-major indices of the rim cells. *)
Theorem boundary_walk_visits_rim_once (rows cols : nat) :
  2 <= rows -> 2 <= cols ->
  length (_get_ordered_boundary_indices rows cols) + 4 = 2 * rows + 2 * cols /\
  NoDup (_get_ordered_boundary_indices rows cols) /\
  forall v, In v (_get_ordered_boundary_indices rows cols) <-> on_boundary rows cols v.
Proof.
  intros Hr Hc. rewrite <- cloop_indices. split; [|split].
  - rewrite length_map. pose proof (cloop_length rows cols Hr Hc). lia.
  - apply NoDup_map_inj_on; [|apply cloop_nodup; assumption].
    intros [i j] [i' j'] Hx Hy Heq. simpl in Heq.
    apply in_cloop in Hx as (_ & Hj & _); [|assumption..].
    apply in_cloop in Hy as (_ & Hj' & _); [|assumption..].
    destruct (row_major_inj cols i j i' j' Hj Hj' Heq) as [-> ->]. reflexivity.
  - intros v. rewrite in_map_iff. split.
    + intros ([i j] & <- & Hin). apply in_cloop in Hin as (Hi & Hj & Hb); [|assumption..].
      exists i, j. simpl. auto.
    + intros (i & j & Hi & Hj & -> & Hb). exists (i, j). split; [reflexivity|].
      apply in_cloop; auto.
Qed.

Lemma boundary_walk_visits_rim_once_witness :
  length (_get_ordered_boundary_indices 3 4) + 4 = 2 * 3 + 2 * 4 /\
  NoDup (_get_ordered_boundary_indices 3 4) /\
  forall v, In v (_get_ordered_boundary_indices 3 4) <-> on_boundary 3 4 v.
Proof. apply (boundary_walk_visits_rim_once 3 4); lia. Defined.

(** On a single column the walk runs down the column and up again: the
    cells between the two ends are listed twice. *)
Example boundary_walk_single_column :
  _get_ordered_boundary_indices 4 1 = [0; 1; 2; 3; 2; 1].
Proof. reflexivity. Qed.

(** On a single row the guard [rows > 1] leaves the row listed once. *)
Example boundary_walk_single_row :
  _get_ordered_boundary_indices 1 4 = [0; 1; 2; 3].
Proof. reflexivity. Qed.

Section SolidStructure.
Context {F : Type} `{Scalar F}.

Lemma side_faces_length (n : nat) (boundary_indices : list nat) :
  length (side_faces n boundary_indices) = 2 * length boundary_indices.
Proof.
  unfold side_faces. rewrite (length_flat_map_const _ _ 2).
  - rewrite length_seq. lia.
  - intros i _. reflexivity.
Qed.

Lemma add_base_vertices_length
    (grid_rows grid_cols : nat) (vertices : list (F * F * F)) (faces : list face) :
  length (fst (_add_base grid_rows grid_cols (vertices, faces))) = 2 * length vertices.
Proof. simpl. unfold vertex in *. rewrite length_app, length_map. lia. Qed.

Lemma add_base_surface_vertex
    (grid_rows grid_cols : nat) (vertices : list (F * F * F)) (faces : list face)
    (k : nat) (d : F * F * F) :
  k < length vertices ->
  nth k (fst (_add_base grid_rows grid_cols (vertices, faces))) d = nth k vertices d.
Proof. intros Hk. simpl. unfold vertex in *. apply app_nth1. exact Hk. Qed.

Lemma add_base_floor_vertex
    (grid_rows grid_cols : nat) (vertices : list (F * F * F)) (faces : list face)
    (k : nat) (d : F * F * F) :
  k < length vertices ->
  nth (k + length vertices) (fst (_add_base grid_rows grid_cols (vertices, faces))) d =
  (fst (fst (nth k vertices d)), snd (fst (nth k vertices d)), fzero).
Proof.
  intros Hk. simpl. unfold vertex in *. rewrite app_nth2 by lia.
  replace (k + length vertices - length vertices) with k by lia.
  rewrite (nth_map_lt _ _ _ d) by exact Hk.
  destruct (nth k vertices d) as [[x y] z]. reflexivity.
Qed.

Lemma create_surface_mesh_nth
    (x_grid y_grid z_grid : grid F) (rows cols i j : nat) (d : F * F * F) :
  shape x_grid = (rows, cols) -> i < rows -> j < cols ->
  nth (i * cols + j) (fst (_create_surface_mesh x_grid y_grid z_grid)) d =
  (gget x_grid i j, gget y_grid i j, gget z_grid i j).
Proof.
  intros Hs Hi Hj. unfold _create_surface_mesh. rewrite Hs. simpl fst.
  clear Hs. revert i Hi.
  assert (G : forall a n i, i < n ->
            nth (i * cols + j)
              (flat_map (fun i0 => map (fun j0 => (gget x_grid i0 j0, gget y_grid i0 j0,
                                                    gget z_grid i0 j0)) (seq 0 cols))
                        (seq a n)) d =
            (gget x_grid (a + i) j, gget y_grid (a + i) j, gget z_grid (a + i) j)).
  { intros a n. revert a. induction n as [|n IH]; intros a i Hi; [lia|].
    simpl. destruct i as [|i].
    - simpl. rewrite app_nth1 by (rewrite length_map, length_seq; exact Hj).
      rewrite (nth_map_seq _ 0 cols j d Hj). rewrite Nat.add_0_r. reflexivity.
    - rewrite app_nth2 by (rewrite length_map, length_seq; simpl; lia).
      rewrite length_map, length_seq.
      replace (S i * cols + j - cols) with (i * cols + j) by (simpl; lia).
      rewrite IH by lia. replace (S a + i) with (a + S i) by lia. reflexivity. }
  intros i Hi. apply (G 0 rows i Hi).
Qed.

(** X4: the surface mesh has one vertex per grid cell, in row-major order:
    vertex k carries the three grid values of cell (k / cols, k mod cols). *)
Theorem surface_vertex_of_cell
    (x_grid y_grid z_grid : grid F) (rows cols k : nat) (d : F * F * F) :
  shape x_grid = (rows, cols) -> k < rows * cols ->
  length (fst (_create_surface_mesh x_grid y_grid z_grid)) = rows * cols /\
  nth k (fst (_create_surface_mesh x_grid y_grid z_grid)) d =
  (gget x_grid (k / cols) (k mod cols), gget y_grid (k / cols) (k mod cols),
   gget z_grid (k / cols) (k mod cols)).
Proof.
  intros Hs Hk. split.
  - rewrite create_surface_mesh_vertices, Hs. reflexivity.
  - assert (Hc : cols <> 0) by (intros ->; lia).
    rewrite <- (create_surface_mesh_nth x_grid y_grid z_grid rows cols
                  (k / cols) (k mod cols) d Hs).
    + f_equal. rewrite (Nat.div_mod_eq k cols) at 1. lia.
    + apply Nat.Div0.div_lt_upper_bound. lia.
    + apply Nat.mod_upper_bound. exact Hc.
Qed.

(** X3: over a grid with rows, cols >= 2, every face of the solid indexes a
    vertex of the solid, and the solid has 4*(rows-1)*(cols-1) surface and
    floor triangles plus 2 wall triangles per boundary vertex. *)
Theorem solid_faces_index_vertices
    (x_grid y_grid z_grid : grid F) (rows cols : nat) :
  shape x_grid = (rows, cols) -> 2 <= rows -> 2 <= cols ->
  let solid := _add_base rows cols (_create_surface_mesh x_grid y_grid z_grid) in
  length (fst solid) = 2 * (rows * cols) /\
  Forall (face_valid (length (fst solid))) (snd solid) /\
  length (snd solid) + 8 = 4 * (rows - 1) * (cols - 1) + 4 * rows + 4 * cols.
Proof.
  intros Hs Hr Hc.
  pose proof (create_surface_mesh_vertices x_grid y_grid z_grid) as Hlen.
  unfold _create_surface_mesh in *. rewrite Hs in *. simpl in Hlen. simpl.
  unfold vertex in *. rewrite length_app, length_map, !Hlen. split; [lia|]. split.
  - rewrite <- prism_indices.
    apply Forall_forall. intros f Hf. apply in_map_iff in Hf as (f0 & <- & Hf0).
    pose proof (cprism_vertices_valid rows cols Hr Hc) as Hv.
    rewrite Forall_forall in Hv. specialize (Hv f0 Hf0).
    assert (B : forall v, vdom rows cols v ->
                vidx cols (rows * cols) v < rows * cols + rows * cols).
    { intros [b [i j]] [Hi Hj]. pose proof (cell_index_lt rows cols i j Hi Hj).
      unfold vidx. destruct b; lia. }
    destruct f0 as [[a b] c]. simpl in Hv.
    inversion Hv as [|? ? Ha Hv1]; subst. inversion Hv1 as [|? ? Hb Hv2]; subst.
    inversion Hv2 as [|? ? Hc' _]; subst.
    simpl. repeat split; apply B; assumption.
  - unfold add_base_faces, base_faces.
    rewrite !length_app, side_faces_length, length_map.
    pose proof (surface_faces_length rows cols) as Hsf. unfold face in *.
    rewrite !Hsf. rewrite <- cloop_indices, length_map.
    pose proof (cloop_length rows cols Hr Hc) as Hl. nia.
Qed.
End SolidStructure.

Lemma surface_vertex_of_cell_witness :
  length (fst (_create_surface_mesh [[0; 1; 2]; [0; 1; 2]]%Q [[0; 0; 0]; [1; 1; 1]]%Q
                                    [[5; 6; 7]; [5; 7; 9]]%Q)) = 2 * 3 /\
  nth 5
      (fst (_create_surface_mesh [[0; 1; 2]; [0; 1; 2]]%Q [[0; 0; 0]; [1; 1; 1]]%Q
                                 [[5; 6; 7]; [5; 7; 9]]%Q)) (0, 0, 0)%Q =
  (gget [[0; 1; 2]; [0; 1; 2]]%Q (5 / 3) (5 mod 3),
   gget [[0; 0; 0]; [1; 1; 1]]%Q (5 / 3) (5 mod 3),
   gget [[5; 6; 7]; [5; 7; 9]]%Q (5 / 3) (5 mod 3)).
Proof.
  apply (surface_vertex_of_cell [[0; 1; 2]; [0; 1; 2]]%Q [[0; 0; 0]; [1; 1; 1]]%Q
           [[5; 6; 7]; [5; 7; 9]]%Q 2 3 5 (0, 0, 0)%Q); [reflexivity|simpl; lia].
Defined.

Lemma solid_faces_index_vertices_witness :
  let solid := _add_base 2 3
    (_create_surface_mesh [[0; 1; 2]; [0; 1; 2]]%Q [[0; 0; 0]; [1; 1; 1]]%Q
                          [[5; 6; 7]; [5; 7; 9]]%Q) in
  length (fst solid) = 2 * (2 * 3) /\
  Forall (face_valid (length (fst solid))) (snd solid) /\
  length (snd solid) + 8 = 4 * (2 - 1) * (3 - 1) + 4 * 2 + 4 * 3.
Proof.
  apply (solid_faces_index_vertices [[0; 1; 2]; [0; 1; 2]]%Q [[0; 0; 0]; [1; 1; 1]]%Q
           [[5; 6; 7]; [5; 7; 9]]%Q 2 3); [reflexivity|lia|lia].
Defined.

(** ** Fitting the printer bed ([MeshGenerator._normalize_to_printer_bed]) *)

Section Reductions.
Context {F : Type} `{Scalar F}.

Lemma fold_np_maximum_in (xs : list F) (x : F) :
  In (fold_left np_maximum xs x) (x :: xs).
Proof.
  revert x. induction xs as [|y ys IH]; intros x; simpl; [left; reflexivity|].
  destruct (IH (np_maximum x y)) as [E|Hin]; [|right; right; exact Hin].
  rewrite <- E. unfold np_maximum.
  destruct (fisnan x); [left; reflexivity|].
  destruct (fisnan y); [right; left; reflexivity|].
  destruct (flt x y); [right; left; reflexivity|left; reflexivity].
Qed.

Lemma fold_np_minimum_in (xs : list F) (x : F) :
  In (fold_left np_minimum xs x) (x :: xs).
Proof.
  revert x. induction xs as [|y ys IH]; intros x; simpl; [left; reflexivity|].
  destruct (IH (np_minimum x y)) as [E|Hin]; [|right; right; exact Hin].
  rewrite <- E. unfold np_minimum.
  destruct (fisnan x); [left; reflexivity|].
  destruct (fisnan y); [right; left; reflexivity|].
  destruct (flt y x); [right; left; reflexivity|left; reflexivity].
Qed.

(** [np.max] and [np.min] return an entry of the array. *)
Lemma np_max_in (g : grid F) (m : F) : np_max g = inr m -> In m (concat g).
Proof.
  unfold np_max. destruct (concat g) as [|x xs]; [discriminate|].
  intros E. injection E as <-. apply fold_np_maximum_in.
Qed.

Lemma np_min_in (g : grid F) (m : F) : np_min g = inr m -> In m (concat g).
Proof.
  unfold np_min. destruct (concat g) as [|x xs]; [discriminate|].
  intros E. injection E as <-. apply fold_np_minimum_in.
Qed.

Lemma np_max_returns_nonempty (g : grid F) (m : F) : np_max g = inr m -> nonempty g.
Proof. intros E. apply np_max_in in E. unfold nonempty. destruct (concat g); [destruct E|discriminate]. Qed.

Lemma concat_grid_map (f : F -> F) (g : grid F) :
  concat (grid_map f g) = map f (concat g).
Proof. unfold grid_map. symmetry. apply concat_map. Qed.

Lemma grid_map_grid_map (f1 f2 : F -> F) (g : grid F) :
  grid_map f2 (grid_map f1 g) = grid_map (fun v => f2 (f1 v)) g.
Proof.
  unfold grid_map. rewrite map_map. apply map_ext. intros row. apply map_map.
Qed.

Lemma np_max_grid_map_returns (f : F -> F) (g : grid F) (m : F) :
  np_max g = inr m -> exists m', np_max (grid_map f g) = inr m'.
Proof.
  intros E. eexists. apply np_max_nonempty, grid_map_nonempty.
  apply (np_max_returns_nonempty g m E).
Qed.
End Reductions.

(** The scale factor of [_normalize_to_printer_bed]:
    [min(bed_size / x_range, bed_size / y_range)] with
    [bed_size = printer_bed_mm - 20]. *)
Definition bed_scale (config : Config Q) (x_range y_range : Q) : Q :=
  py_min (inject_Z (printer_bed_mm (output config) - 20) / x_range)%Q
         (inject_Z (printer_bed_mm (output config) - 20) / y_range)%Q.

Lemma bed_scale_spec (config : Config Q) (xr yr : Q) :
  (0 < xr)%Q -> (0 < yr)%Q -> (20 < printer_bed_mm (output config))%Z ->
  let s := bed_scale config xr yr in
  let B := inject_Z (printer_bed_mm (output config) - 20) in
  (0 < s)%Q /\ (s * xr <= B)%Q /\ (s * yr <= B)%Q /\
  ((s * xr == B)%Q \/ (s * yr == B)%Q).
Proof.
  intros Hx Hy Hbed. cbv zeta. unfold bed_scale.
  set (B := inject_Z (printer_bed_mm (output config) - 20)).
  assert (HB : (0 < B)%Q).
  { unfold B. change 0%Q with (inject_Z 0). rewrite <- Zlt_Qlt. lia. }
  assert (Hxn : ~ (xr == 0)%Q) by (intros E; rewrite E in Hx; apply (Qlt_irrefl 0), Hx).
  assert (Hyn : ~ (yr == 0)%Q) by (intros E; rewrite E in Hy; apply (Qlt_irrefl 0), Hy).
  assert (Ea : (B / xr * xr == B)%Q) by (field; exact Hxn).
  assert (Eb : (B / yr * yr == B)%Q) by (field; exact Hyn).
  assert (Pa : (0 < B / xr)%Q).
  { apply Qlt_shift_div_l; [exact Hx|]. rewrite Qmult_0_l. exact HB. }
  assert (Pb : (0 < B / yr)%Q).
  { apply Qlt_shift_div_l; [exact Hy|]. rewrite Qmult_0_l. exact HB. }
  unfold py_min. cbn [flt Q_scalar].
  destruct (Qle_bool (B / xr) (B / yr)) eqn:Hle; cbn [negb].
  - apply Qle_bool_iff in Hle.
    split; [exact Pa|]. split; [rewrite Ea; apply Qle_refl|].
    split; [|left; exact Ea].
    apply Qle_trans with (B / yr * yr)%Q; [|rewrite Eb; apply Qle_refl].
    apply Qmult_le_compat_r; [exact Hle|apply Qlt_le_weak; exact Hy].
  - assert (Hlt : (B / yr < B / xr)%Q).
    { apply Qnot_le_lt. intros Hc. apply Qle_bool_iff in Hc. congruence. }
    split; [exact Pb|]. split; [|split; [rewrite Eb; apply Qle_refl|right; exact Eb]].
    apply Qle_trans with (B / xr * xr)%Q; [|rewrite Ea; apply Qle_refl].
    apply Qmult_le_compat_r;
      [apply Qlt_le_weak; exact Hlt|apply Qlt_le_weak; exact Hx].
Qed.

(** What [_normalize_to_printer_bed] returns, over grids with known extrema:
    one affine map per axis, with the common factor [bed_scale]. *)
Lemma normalize_affine (config : Config Q) (x_grid y_grid z_grid : grid Q)
    (x_min x_max y_min y_max z_min z_max : Q) :
  np_min x_grid = inr x_min -> np_max x_grid = inr x_max ->
  np_min y_grid = inr y_min -> np_max y_grid = inr y_max ->
  np_min z_grid = inr z_min -> np_max z_grid = inr z_max ->
  let s := bed_scale config (x_max - x_min) (y_max - y_min) in
  let bed := inject_Z (printer_bed_mm (output config)) in
  exists xn_max yn_max,
    np_max (grid_map (fun v => (v - x_min) * s)%Q x_grid) = inr xn_max /\
    np_max (grid_map (fun v => (v - y_min) * s)%Q y_grid) = inr yn_max /\
    _normalize_to_printer_bed config x_grid y_grid z_grid =
    inr (grid_map (fun v => (v - x_min) * s + (bed - xn_max) / 2)%Q x_grid,
         grid_map (fun v => (v - y_min) * s + (bed - yn_max) / 2)%Q y_grid,
         grid_map (fun v => (v - z_min) * s)%Q z_grid).
Proof.
  intros Hxmin Hxmax Hymin Hymax Hzmin Hzmax s bed.
  destruct (np_max_grid_map_returns (fun v => (v - x_min) * s)%Q x_grid x_max Hxmax)
    as [xn_max Hxn].
  destruct (np_max_grid_map_returns (fun v => (v - y_min) * s)%Q y_grid y_max Hymax)
    as [yn_max Hyn].
  exists xn_max, yn_max. split; [exact Hxn|]. split; [exact Hyn|].
  unfold _normalize_to_printer_bed.
  rewrite Hxmin, Hxmax, Hymin, Hymax, Hzmin, Hzmax. cbn [bind].
  change (py_min _ _) with s.
  change (np_max (grid_map (fun v => fmul (fsub v x_min) s) x_grid))
    with (np_max (grid_map (fun v => (v - x_min) * s)%Q x_grid)).
  rewrite Hxn. cbn [bind].
  change (np_max (grid_map (fun v => fmul (fsub v y_min) s) y_grid))
    with (np_max (grid_map (fun v => (v - y_min) * s)%Q y_grid)).
  rewrite Hyn. cbn [bind].
  rewrite !grid_map_grid_map. reflexivity.
Qed.

(** The largest scaled coordinate is the scaled extent. *)
Lemma scaled_max (g : grid Q) (g_min g_max s m : Q) :
  np_min g = inr g_min -> np_max g = inr g_max -> (0 <= s)%Q ->
  np_max (grid_map (fun v => (v - g_min) * s)%Q g) = inr m ->
  (m == (g_max - g_min) * s)%Q.
Proof.
  intros Hmin Hmax Hs Hm. apply Qle_antisym.
  - apply np_max_in in Hm. rewrite concat_grid_map in Hm.
    apply in_map_iff in Hm as (u & <- & Hu).
    apply Qmult_le_compat_r; [|exact Hs].
    pose proof (np_max_ge g g_max Hmax u Hu). lra.
  - apply (np_max_ge _ m Hm). rewrite concat_grid_map.
    apply in_map_iff. exists g_max. split; [reflexivity|].
    apply (np_max_in g g_max Hmax).
Qed.

(** Over planar grids of positive extent and a bed wider than the two
    margins, the normalised coordinates stay inside the margins and the
    normalised heights are non-negative. *)
Lemma normalized_grids_bounds
    (config : Config Q) (x_grid y_grid z_grid : grid Q)
    (x_min x_max y_min y_max : Q) :
  np_min x_grid = inr x_min -> np_max x_grid = inr x_max ->
  np_min y_grid = inr y_min -> np_max y_grid = inr y_max ->
  nonempty z_grid ->
  (x_min < x_max)%Q -> (y_min < y_max)%Q ->
  (20 < printer_bed_mm (output config))%Z ->
  exists x_norm y_norm z_norm,
    _normalize_to_printer_bed config x_grid y_grid z_grid =
      inr (x_norm, y_norm, z_norm) /\
    (forall v, In v (concat x_norm) ->
       (10 <= v <= inject_Z (printer_bed_mm (output config)) - 10)%Q) /\
    (forall v, In v (concat y_norm) ->
       (10 <= v <= inject_Z (printer_bed_mm (output config)) - 10)%Q) /\
    (forall v, In v (concat z_norm) -> (0 <= v)%Q).
Proof.
  intros Hxmin Hxmax Hymin Hymax Hz Hx Hy Hbed.
  pose proof (np_min_nonempty z_grid Hz) as Hzmin.
  pose proof (np_max_nonempty z_grid Hz) as Hzmax.
  destruct (normalize_affine config x_grid y_grid z_grid _ _ _ _ _ _
              Hxmin Hxmax Hymin Hymax Hzmin Hzmax)
    as (xn_max & yn_max & Hxn & Hyn & Hnorm).
  destruct (bed_scale_spec config (x_max - x_min) (y_max - y_min))
    as (Hs & Hsx & Hsy & _); [lra|lra|exact Hbed|].
  set (s := bed_scale config (x_max - x_min) (y_max - y_min)) in *.
  set (z_min := fold_left np_minimum (tl (concat z_grid)) (hd fzero (concat z_grid))) in *.
  assert (HB : (inject_Z (printer_bed_mm (output config) - 20) ==
                inject_Z (printer_bed_mm (output config)) - 20)%Q).
  { unfold Zminus. rewrite inject_Z_plus. reflexivity. }
  set (bed := inject_Z (printer_bed_mm (output config))) in *.
  pose proof (scaled_max x_grid x_min x_max s xn_max Hxmin Hxmax
                (Qlt_le_weak _ _ Hs) Hxn) as Exn.
  pose proof (scaled_max y_grid y_min y_max s yn_max Hymin Hymax
                (Qlt_le_weak _ _ Hs) Hyn) as Eyn.
  assert (Bx : (xn_max <= bed - 20)%Q).
  { rewrite Exn, <- HB, Qmult_comm. exact Hsx. }
  assert (By : (yn_max <= bed - 20)%Q).
  { rewrite Eyn, <- HB, Qmult_comm. exact Hsy. }
  eexists _, _, _. split; [exact Hnorm|].
  split; [|split].
  - intros v Hv. rewrite concat_grid_map in Hv.
    apply in_map_iff in Hv as (u & <- & Hu).
    assert (L : (0 <= (u - x_min) * s)%Q).
    { apply Qmult_le_0_compat; [|apply Qlt_le_weak; exact Hs].
      pose proof (np_min_le x_grid x_min Hxmin u Hu). lra. }
    assert (U : ((u - x_min) * s <= xn_max)%Q).
    { apply (np_max_ge _ xn_max Hxn). rewrite concat_grid_map.
      apply in_map_iff. exists u. split; [reflexivity|exact Hu]. }
    change ((bed - xn_max) / 2)%Q with ((bed - xn_max) * (1 # 2))%Q.
    generalize dependent ((u - x_min) * s)%Q. intros w L U. split; lra.
  - intros v Hv. rewrite concat_grid_map in Hv.
    apply in_map_iff in Hv as (u & <- & Hu).
    assert (L : (0 <= (u - y_min) * s)%Q).
    { apply Qmult_le_0_compat; [|apply Qlt_le_weak; exact Hs].
      pose proof (np_min_le y_grid y_min Hymin u Hu). lra. }
    assert (U : ((u - y_min) * s <= yn_max)%Q).
    { apply (np_max_ge _ yn_max Hyn). rewrite concat_grid_map.
      apply in_map_iff. exists u. split; [reflexivity|exact Hu]. }
    change ((bed - yn_max) / 2)%Q with ((bed - yn_max) * (1 # 2))%Q.
    generalize dependent ((u - y_min) * s)%Q. intros w L U. split; lra.
  - intros v Hv. rewrite concat_grid_map in Hv.
    apply in_map_iff in Hv as (u & <- & Hu).
    apply Qmult_le_0_compat; [|apply Qlt_le_weak; exact Hs].
    pose proof (np_min_le z_grid z_min Hzmin u Hu). lra.
Qed.

(** X5: over planar grids of positive extent and a bed wider than the two
    10 mm margins, the normalised X and Y coordinates all lie between 10 and
    [printer_bed_mm - 10], and the normalised heights are non-negative with
    the lowest at 0. *)
Theorem normalized_grids_fit_the_bed
    (config : Config Q) (x_grid y_grid z_grid : grid Q)
    (x_min x_max y_min y_max : Q) :
  np_min x_grid = inr x_min -> np_max x_grid = inr x_max ->
  np_min y_grid = inr y_min -> np_max y_grid = inr y_max ->
  nonempty z_grid ->
  (x_min < x_max)%Q -> (y_min < y_max)%Q ->
  (20 < printer_bed_mm (output config))%Z ->
  exists x_norm y_norm z_norm,
    _normalize_to_printer_bed config x_grid y_grid z_grid =
      inr (x_norm, y_norm, z_norm) /\
    (forall v, In v (concat x_norm) ->
       (10 <= v <= inject_Z (printer_bed_mm (output config)) - 10)%Q) /\
    (forall v, In v (concat y_norm) ->
       (10 <= v <= inject_Z (printer_bed_mm (output config)) - 10)%Q) /\
    (forall v, In v (concat z_norm) -> (0 <= v)%Q) /\
    (exists v, In v (concat z_norm) /\ (v == 0)%Q).
Proof.
  intros Hxmin Hxmax Hymin Hymax Hz Hx Hy Hbed.
  destruct (normalized_grids_bounds config x_grid y_grid z_grid x_min x_max y_min y_max
              Hxmin Hxmax Hymin Hymax Hz Hx Hy Hbed)
    as (xn & yn & zn & Hnorm & Bx & By & Bz).
  exists xn, yn, zn. repeat (split; [assumption|]).
  pose proof (np_min_nonempty z_grid Hz) as Hzmin.
  pose proof (np_max_nonempty z_grid Hz) as Hzmax.
  destruct (normalize_affine config x_grid y_grid z_grid _ _ _ _ _ _
              Hxmin Hxmax Hymin Hymax Hzmin Hzmax)
    as (xn_max & yn_max & _ & _ & Hnorm').
  rewrite Hnorm in Hnorm'. injection Hnorm' as _ _ ->.
  set (z_min := fold_left np_minimum (tl (concat z_grid)) (hd fzero (concat z_grid))) in *.
  set (s := bed_scale config (x_max - x_min) (y_max - y_min)).
  exists ((z_min - z_min) * s)%Q. split; [|ring].
  rewrite concat_grid_map. apply in_map_iff. exists z_min.
  split; [reflexivity|apply (np_min_in z_grid z_min Hzmin)].
Qed.

Lemma affine_extrema (g : grid Q) (g_min g_max s off : Q) :
  np_min g = inr g_min -> np_max g = inr g_max -> (0 <= s)%Q ->
  exists lo hi,
    np_min (grid_map (fun v => (v - g_min) * s + off)%Q g) = inr lo /\
    np_max (grid_map (fun v => (v - g_min) * s + off)%Q g) = inr hi /\
    (lo == off)%Q /\ (hi == (g_max - g_min) * s + off)%Q.
Proof.
  intros Hmin Hmax Hs.
  pose proof (np_max_returns_nonempty g g_max Hmax) as Hne.
  pose proof (np_min_nonempty _ (grid_map_nonempty
                (fun v => (v - g_min) * s + off)%Q g Hne)) as Hlo.
  pose proof (np_max_nonempty _ (grid_map_nonempty
                (fun v => (v - g_min) * s + off)%Q g Hne)) as Hhi.
  eexists _, _. split; [exact Hlo|]. split; [exact Hhi|].
  set (lo := fold_left np_minimum _ _) in *. set (hi := fold_left np_maximum _ _) in *.
  split; apply Qle_antisym.
  - apply Qle_trans with ((g_min - g_min) * s + off)%Q.
    + apply (np_min_le _ lo Hlo). rewrite concat_grid_map.
      apply in_map_iff. exists g_min.
      split; [reflexivity|apply (np_min_in g g_min Hmin)].
    + assert (E : ((g_min - g_min) * s + off == off)%Q) by ring.
      rewrite E. apply Qle_refl.
  - apply np_min_in in Hlo. rewrite concat_grid_map in Hlo.
    apply in_map_iff in Hlo as (u & <- & Hu).
    assert (L : (0 <= (u - g_min) * s)%Q).
    { apply Qmult_le_0_compat; [|exact Hs].
      pose proof (np_min_le g g_min Hmin u Hu). lra. }
    lra.
  - apply np_max_in in Hhi. rewrite concat_grid_map in Hhi.
    apply in_map_iff in Hhi as (u & <- & Hu).
    assert (L : ((u - g_min) * s <= (g_max - g_min) * s)%Q).
    { apply Qmult_le_compat_r; [|exact Hs].
      pose proof (np_max_ge g g_max Hmax u Hu). lra. }
    lra.
  - apply (np_max_ge _ hi Hhi). rewrite concat_grid_map.
    apply in_map_iff. exists g_max. split; [reflexivity|apply (np_max_in g g_max Hmax)].
Qed.

(** X6: the normalisation scales X, Y and Z by one positive factor [s]; the
    X and Y footprints are centred on the bed (lowest plus highest coordinate
    is [printer_bed_mm]), neither is wider than [printer_bed_mm - 20], and
    one of them is exactly that wide. *)
Theorem normalization_is_uniform_and_centred
    (config : Config Q) (x_grid y_grid z_grid : grid Q)
    (x_min x_max y_min y_max z_min : Q) :
  np_min x_grid = inr x_min -> np_max x_grid = inr x_max ->
  np_min y_grid = inr y_min -> np_max y_grid = inr y_max ->
  np_min z_grid = inr z_min ->
  (x_min < x_max)%Q -> (y_min < y_max)%Q ->
  (20 < printer_bed_mm (output config))%Z ->
  exists s x_norm y_norm x_lo x_hi y_lo y_hi,
    _normalize_to_printer_bed config x_grid y_grid z_grid =
      inr (x_norm, y_norm, grid_map (fun v => (v - z_min) * s)%Q z_grid) /\
    (0 < s)%Q /\
    np_min x_norm = inr x_lo /\ np_max x_norm = inr x_hi /\
    np_min y_norm = inr y_lo /\ np_max y_norm = inr y_hi /\
    (x_hi - x_lo == s * (x_max - x_min))%Q /\
    (y_hi - y_lo == s * (y_max - y_min))%Q /\
    (x_lo + x_hi == inject_Z (printer_bed_mm (output config)))%Q /\
    (y_lo + y_hi == inject_Z (printer_bed_mm (output config)))%Q /\
    (x_hi - x_lo <= inject_Z (printer_bed_mm (output config)) - 20)%Q /\
    (y_hi - y_lo <= inject_Z (printer_bed_mm (output config)) - 20)%Q /\
    ((x_hi - x_lo == inject_Z (printer_bed_mm (output config)) - 20)%Q \/
     (y_hi - y_lo == inject_Z (printer_bed_mm (output config)) - 20)%Q).
Proof.
  intros Hxmin Hxmax Hymin Hymax Hzmin Hx Hy Hbed.
  assert (Hzne : nonempty z_grid).
  { apply np_min_in in Hzmin. unfold nonempty.
    destruct (concat z_grid); [destruct Hzmin|discriminate]. }
  pose proof (np_max_nonempty z_grid Hzne) as Hzmax.
  destruct (normalize_affine config x_grid y_grid z_grid _ _ _ _ _ _
              Hxmin Hxmax Hymin Hymax Hzmin Hzmax)
    as (xn_max & yn_max & Hxn & Hyn & Hnorm).
  destruct (bed_scale_spec config (x_max - x_min) (y_max - y_min))
    as (Hs & Hsx & Hsy & Hfill); [lra|lra|exact Hbed|].
  set (s := bed_scale config (x_max - x_min) (y_max - y_min)) in *.
  assert (HB : (inject_Z (printer_bed_mm (output config) - 20) ==
                inject_Z (printer_bed_mm (output config)) - 20)%Q).
  { unfold Zminus. rewrite inject_Z_plus. reflexivity. }
  set (bed := inject_Z (printer_bed_mm (output config))) in *.
  pose proof (scaled_max x_grid x_min x_max s xn_max Hxmin Hxmax
                (Qlt_le_weak _ _ Hs) Hxn) as Exn.
  pose proof (scaled_max y_grid y_min y_max s yn_max Hymin Hymax
                (Qlt_le_weak _ _ Hs) Hyn) as Eyn.
  destruct (affine_extrema x_grid x_min x_max s ((bed - xn_max) / 2)%Q
              Hxmin Hxmax (Qlt_le_weak _ _ Hs)) as (x_lo & x_hi & Hxlo & Hxhi & Exlo & Exhi).
  destruct (affine_extrema y_grid y_min y_max s ((bed - yn_max) / 2)%Q
              Hymin Hymax (Qlt_le_weak _ _ Hs)) as (y_lo & y_hi & Hylo & Hyhi & Eylo & Eyhi).
  exists s. eexists _, _. exists x_lo, x_hi, y_lo, y_hi.
  split; [exact Hnorm|]. split; [exact Hs|].
  split; [exact Hxlo|]. split; [exact Hxhi|]. split; [exact Hylo|]. split; [exact Hyhi|].
  change ((bed - xn_max) / 2)%Q with ((bed - xn_max) * (1 # 2))%Q in *.
  change ((bed - yn_max) / 2)%Q with ((bed - yn_max) * (1 # 2))%Q in *.
  rewrite (Qmult_comm s (x_max - x_min)), (Qmult_comm s (y_max - y_min)) in *.
  destruct Hfill as [Hf|Hf];
    generalize dependent ((x_max - x_min) * s)%Q; intros wx; intros;
    generalize dependent ((y_max - y_min) * s)%Q; intros wy; intros;
    repeat split; try lra; first [left; lra|right; lra].
Qed.

(** ** Grids as numpy sees them: every row of the same length *)

Section Rectangular.
Context {F : Type} `{Scalar F}.

Definition rectangular (rows cols : nat) (g : grid F) : Prop :=
  length g = rows /\ Forall (fun row => length row = cols) g.

Lemma rectangular_row (rows cols : nat) (g : grid F) (i : nat) :
  rectangular rows cols g -> i < rows -> length (nth i g []) = cols.
Proof.
  intros [Hl Hrows] Hi. rewrite Forall_forall in Hrows.
  apply Hrows. apply nth_In. lia.
Qed.

Lemma rectangular_shape (rows cols : nat) (g : grid F) :
  rectangular rows cols g -> 1 <= rows -> shape g = (rows, cols).
Proof.
  intros Hr H1. unfold shape.
  pose proof (rectangular_row rows cols g 0 Hr H1) as H0.
  destruct Hr as [Hl _]. rewrite Hl. f_equal.
  destruct g as [|row g']; [simpl in Hl; lia|exact H0].
Qed.

Lemma gget_in (rows cols : nat) (g : grid F) (i j : nat) :
  rectangular rows cols g -> i < rows -> j < cols -> In (gget g i j) (concat g).
Proof.
  intros Hr Hi Hj. pose proof (rectangular_row rows cols g i Hr Hi) as Hrow.
  destruct Hr as [Hl _]. apply in_concat. exists (nth i g []). split.
  - apply nth_In. lia.
  - unfold gget. apply nth_In. lia.
Qed.

Lemma gget_grid_map (rows cols : nat) (f : F -> F) (g : grid F) (i j : nat) :
  rectangular rows cols g -> i < rows -> j < cols ->
  gget (grid_map f g) i j = f (gget g i j).
Proof.
  intros Hr Hi Hj. pose proof (rectangular_row rows cols g i Hr Hi) as Hrow.
  destruct Hr as [Hl _]. unfold gget, grid_map.
  rewrite (nth_map_lt (map f) g i [] []) by lia.
  apply nth_map_lt. lia.
Qed.

Lemma rectangular_grid_map (rows cols : nat) (f : F -> F) (g : grid F) :
  rectangular rows cols g -> rectangular rows cols (grid_map f g).
Proof.
  intros [Hl Hrows]. split; [unfold grid_map; rewrite length_map; exact Hl|].
  unfold grid_map. apply Forall_map. rewrite Forall_forall in *.
  intros row Hrow. rewrite length_map. apply Hrows. exact Hrow.
Qed.
End Rectangular.

(** X7: the vertex array that [generate_mesh] hands to [trimesh.Trimesh],
    over rows x cols grids with rows, cols >= 2 and positive planar extent,
    in exact arithmetic.  Cell (i, j) gives the surface vertex at index
    i * cols + j and the floor vertex at index i * cols + j + rows * cols;
    the two share X and Y, both between 10 and [printer_bed_mm - 10]; the
    floor vertex is at Z = 0 and the surface vertex at least
    [base_thickness_mm] above it. *)
Theorem solid_stands_on_its_base
    (config : Config Q) (x_grid y_grid elevation_grid : grid Q)
    (rows cols : nat) (x_min x_max y_min y_max : Q) :
  rectangular rows cols x_grid -> rectangular rows cols y_grid ->
  rectangular rows cols elevation_grid ->
  2 <= rows -> 2 <= cols ->
  np_min x_grid = inr x_min -> np_max x_grid = inr x_max ->
  np_min y_grid = inr y_min -> np_max y_grid = inr y_max ->
  (x_min < x_max)%Q -> (y_min < y_max)%Q ->
  (20 < printer_bed_mm (output config))%Z ->
  exists vertices faces,
    generate_solid config x_grid y_grid elevation_grid = inr (vertices, faces) /\
    length vertices = 2 * (rows * cols) /\
    forall i j d, i < rows -> j < cols ->
      exists x y z,
        nth (i * cols + j) vertices d = (x, y, z) /\
        nth (i * cols + j + rows * cols) vertices d = (x, y, 0%Q) /\
        (10 <= x <= inject_Z (printer_bed_mm (output config)) - 10)%Q /\
        (10 <= y <= inject_Z (printer_bed_mm (output config)) - 10)%Q /\
        (base_thickness_mm (terrain config) <= z)%Q.
Proof.
  intros Rx Ry Re Hrows2 Hcols2 Hxmin Hxmax Hymin Hymax Hx Hy Hbed.
  assert (Hrows : 1 <= rows) by lia.
  set (z_grid := grid_map (fun e => fmul e (vertical_exaggeration (terrain config)))
                          elevation_grid).
  assert (Rz : rectangular rows cols z_grid) by (apply rectangular_grid_map; exact Re).
  assert (Hcols : 1 <= cols) by lia.
  assert (Hzne : nonempty z_grid).
  { unfold nonempty. intros Hc.
    pose proof (gget_in rows cols z_grid 0 0 Rz Hrows Hcols) as Hin.
    rewrite Hc in Hin. destruct Hin. }
  destruct (normalized_grids_bounds config x_grid y_grid z_grid
              x_min x_max y_min y_max Hxmin Hxmax Hymin Hymax Hzne Hx Hy Hbed)
    as (xn & yn & zn & Hnorm & Bx & By & Bz).
  pose proof (np_min_nonempty z_grid Hzne) as Hzmin.
  pose proof (np_max_nonempty z_grid Hzne) as Hzmax.
  destruct (normalize_affine config x_grid y_grid z_grid _ _ _ _ _ _
              Hxmin Hxmax Hymin Hymax Hzmin Hzmax)
    as (xn_max & yn_max & _ & _ & Hnorm').
  rewrite Hnorm in Hnorm'. injection Hnorm' as Exn Eyn Ezn.
  assert (Rxn : rectangular rows cols xn)
    by (rewrite Exn; apply rectangular_grid_map; exact Rx).
  assert (Ryn : rectangular rows cols yn)
    by (rewrite Eyn; apply rectangular_grid_map; exact Ry).
  assert (Rzn : rectangular rows cols zn)
    by (rewrite Ezn; apply rectangular_grid_map; exact Rz).
  clear Exn Eyn Ezn.
  set (zb := grid_map (fun v => fadd v (base_thickness_mm (terrain config))) zn).
  pose proof (rectangular_shape rows cols xn Rxn Hrows) as Hshape.
  assert (Hgen : generate_solid config x_grid y_grid elevation_grid =
                 inr (_add_base rows cols (_create_surface_mesh xn yn zb))).
  { unfold generate_solid. fold z_grid. rewrite Hnorm. cbn [bind].
    rewrite Hshape. apply call_add_base_returns; assumption. }
  destruct (_add_base rows cols (_create_surface_mesh xn yn zb)) as [vertices faces] eqn:Hsolid.
  exists vertices, faces. split; [exact Hgen|].
  pose proof (create_surface_mesh_vertices xn yn zb) as Hlen.
  rewrite Hshape in Hlen.
  destruct (_create_surface_mesh xn yn zb) as [sv sf] eqn:Hsurf.
  pose proof (add_base_vertices_length rows cols sv sf) as Hlv.
  pose proof (add_base_surface_vertex rows cols sv sf) as Hsv.
  pose proof (add_base_floor_vertex rows cols sv sf) as Hfv.
  unfold vertex in *.
  rewrite Hsolid in Hlv, Hsv, Hfv. simpl fst in Hlv, Hsv, Hfv.
  simpl in Hlen. rewrite Hlen in Hlv, Hsv, Hfv.
  split; [exact Hlv|].
  intros i j d Hi Hj.
  pose proof (cell_index_lt rows cols i j Hi Hj) as Hk.
  pose proof (Hsv (i * cols + j) d Hk) as Hsurfv.
  pose proof (Hfv (i * cols + j) d Hk) as Hfloor.
  pose proof (create_surface_mesh_nth xn yn zb rows cols i j d Hshape Hi Hj) as Hcell.
  rewrite Hsurf in Hcell. simpl in Hcell. unfold vertex in *.
  exists (gget xn i j), (gget yn i j), (gget zb i j).
  rewrite Hfloor, Hsurfv, Hcell. simpl.
  split; [reflexivity|]. split; [reflexivity|].
  split; [apply Bx, (gget_in rows cols); assumption|].
  split; [apply By, (gget_in rows cols); assumption|].
  unfold zb. rewrite (gget_grid_map rows cols) by assumption.
  pose proof (Bz (gget zn i j) (gget_in rows cols zn i j Rzn Hi Hj)) as Hz0.
  cbn [fadd Q_scalar]. lra.
Qed.

(** A 2 x 2 patch on the default 220 mm bed. *)
Definition config_plain : Config Q := example_config false 1 false true 2%Q 2%Q.

Lemma normalized_grids_fit_the_bed_witness :
  exists x_norm y_norm z_norm,
    _normalize_to_printer_bed config_plain x_grid_2x2 y_grid_2x2 elevation_peak =
      inr (x_norm, y_norm, z_norm) /\
    (forall v, In v (concat x_norm) ->
       (10 <= v <= inject_Z (printer_bed_mm (output config_plain)) - 10)%Q) /\
    (forall v, In v (concat y_norm) ->
       (10 <= v <= inject_Z (printer_bed_mm (output config_plain)) - 10)%Q) /\
    (forall v, In v (concat z_norm) -> (0 <= v)%Q) /\
    (exists v, In v (concat z_norm) /\ (v == 0)%Q).
Proof.
  apply (normalized_grids_fit_the_bed config_plain x_grid_2x2 y_grid_2x2 elevation_peak
           0%Q 1%Q 0%Q 1%Q);
    [reflexivity|reflexivity|reflexivity|reflexivity|discriminate
    |reflexivity|reflexivity|reflexivity].
Defined.

Lemma normalization_is_uniform_and_centred_witness :
  exists s x_norm y_norm x_lo x_hi y_lo y_hi,
    _normalize_to_printer_bed config_plain x_grid_2x2 y_grid_2x2 elevation_peak =
      inr (x_norm, y_norm, grid_map (fun v => (v - 0) * s)%Q elevation_peak) /\
    (0 < s)%Q /\
    np_min x_norm = inr x_lo /\ np_max x_norm = inr x_hi /\
    np_min y_norm = inr y_lo /\ np_max y_norm = inr y_hi /\
    (x_hi - x_lo == s * (1 - 0))%Q /\
    (y_hi - y_lo == s * (1 - 0))%Q /\
    (x_lo + x_hi == inject_Z (printer_bed_mm (output config_plain)))%Q /\
    (y_lo + y_hi == inject_Z (printer_bed_mm (output config_plain)))%Q /\
    (x_hi - x_lo <= inject_Z (printer_bed_mm (output config_plain)) - 20)%Q /\
    (y_hi - y_lo <= inject_Z (printer_bed_mm (output config_plain)) - 20)%Q /\
    ((x_hi - x_lo == inject_Z (printer_bed_mm (output config_plain)) - 20)%Q \/
     (y_hi - y_lo == inject_Z (printer_bed_mm (output config_plain)) - 20)%Q).
Proof.
  apply (normalization_is_uniform_and_centred config_plain x_grid_2x2 y_grid_2x2
           elevation_peak 0%Q 1%Q 0%Q 1%Q 0%Q);
    [reflexivity|reflexivity|reflexivity|reflexivity|reflexivity
    |reflexivity|reflexivity|reflexivity].
Defined.

Lemma rectangular_2x2 (a b c d : Q) : rectangular 2 2 [[a; b]; [c; d]].
Proof. split; [reflexivity|repeat constructor]. Qed.

Lemma solid_stands_on_its_base_witness :
  exists vertices faces,
    generate_solid config_plain x_grid_2x2 y_grid_2x2 elevation_peak =
      inr (vertices, faces) /\
    length vertices = 2 * (2 * 2) /\
    forall i j d, i < 2 -> j < 2 ->
      exists x y z,
        nth (i * 2 + j) vertices d = (x, y, z) /\
        nth (i * 2 + j + 2 * 2) vertices d = (x, y, 0%Q) /\
        (10 <= x <= inject_Z (printer_bed_mm (output config_plain)) - 10)%Q /\
        (10 <= y <= inject_Z (printer_bed_mm (output config_plain)) - 10)%Q /\
        (base_thickness_mm (terrain config_plain) <= z)%Q.
Proof.
  apply (solid_stands_on_its_base config_plain x_grid_2x2 y_grid_2x2 elevation_peak
           2 2 0%Q 1%Q 0%Q 1%Q);
    [apply rectangular_2x2|apply rectangular_2x2|apply rectangular_2x2
    |lia|lia|reflexivity|reflexivity|reflexivity|reflexivity
    |reflexivity|reflexivity|reflexivity].
Defined.

(** The same patch, computed (fractions are left unreduced: 20 # 2 is 10 and
    420 # 2 is 210): the 1 x 1 footprint is scaled by 200 and sits between 10
    and 210 on both axes; heights 0 and 30 become 5 and 12005 with vertical
    exaggeration 2 and the 5 mm base. *)
Example solid_of_the_patch :
  exists faces,
    generate_solid config_plain x_grid_2x2 y_grid_2x2 elevation_peak =
    inr ([(20 # 2, 20 # 2, 5); (420 # 2, 20 # 2, 5); (20 # 2, 420 # 2, 5);
          (420 # 2, 420 # 2, 12005);
          (20 # 2, 20 # 2, 0); (420 # 2, 20 # 2, 0); (20 # 2, 420 # 2, 0);
          (420 # 2, 420 # 2, 0)]%Q, faces).
Proof. eexists. vm_compute. reflexivity. Qed.

(** ** What [Config.validate] accepts *)

Lemma str_in_In (s : string) (l : list string) : str_in s l = true <-> In s l.
Proof.
  unfold str_in. rewrite existsb_exists. split.
  - intros (x & Hx & E). apply String.eqb_eq in E. subst x. exact Hx.
  - intros Hs. exists s. split; [exact Hs|apply String.eqb_refl].
Qed.

Lemma raise_if_returns (c : bool) (msg : string) :
  raise_if c msg = inr tt <-> c = false.
Proof. unfold raise_if, raise, ret. destruct c; split; congruence. Qed.

Lemma bind_unit_returns (c : result unit) (k : unit -> result unit) :
  bind c k = inr tt <-> c = inr tt /\ k tt = inr tt.
Proof.
  destruct c as [e|[]]; simpl; split.
  - discriminate.
  - intros [Hc _]. discriminate.
  - intros Hk. split; [reflexivity|exact Hk].
  - intros [_ Hk]. exact Hk.
Qed.

Section ValidateAccepts.
Context {F : Type} `{Scalar F}.

(** The location block: an address or bounds, not both; an address needs a
    radius; bounds need north above south and east beyond west. *)
Definition location_ok (loc : LocationConfig F) : Prop :=
  (address loc <> None \/ bounds loc <> None) /\
  (truthy_str (address loc) = true -> radius_km loc <> None) /\
  (bounds loc <> None -> truthy_str (address loc) = false) /\
  (forall b, bounds loc = Some b ->
     fle (north b) (south b) = false /\ fle (east b) (west b) = false).

(** The settings that are checked: colours only when enabled, the step
    height only when stepping is enabled, the output format always. *)
Definition settings_ok (config : Config F) : Prop :=
  (colors_enabled (colors (terrain config)) = true ->
     (1 <= num_colors (colors (terrain config)) <= 6)%Z /\
     In (color_mode (colors (terrain config))) ["elevation"; "slope"]) /\
  (hs_enabled (height_stepping (terrain config)) = true ->
     fle (step_height_mm (height_stepping (terrain config))) (of_Z 0) = false) /\
  In (str_lower (format (output config))) ["stl"; "3mf"; "amf"; "obj"].

Lemma validate_bounds_returns (b : option (BoundsConfig F)) :
  validate_bounds b = inr tt <->
  forall b', b = Some b' ->
    fle (north b') (south b') = false /\ fle (east b') (west b') = false.
Proof.
  destruct b as [b|]; simpl.
  - rewrite bind_unit_returns, !raise_if_returns. split.
    + intros Hb b' E. injection E as <-. exact Hb.
    + intros Hb. apply Hb. reflexivity.
  - split; [intros _ b' E; discriminate|reflexivity].
Qed.

Lemma validate_colors_returns (c : ColorConfig F) :
  validate_colors c = inr tt <->
  (colors_enabled c = true ->
     (1 <= num_colors c <= 6)%Z /\ In (color_mode c) ["elevation"; "slope"]).
Proof.
  unfold validate_colors. destruct (colors_enabled c).
  - rewrite bind_unit_returns, !raise_if_returns, !negb_false_iff,
      andb_true_iff, !Z.leb_le, str_in_In. split.
    + intros [Hn Hm] _. split; [lia|exact Hm].
    + intros Hc. destruct (Hc eq_refl) as [Hn Hm]. split; [lia|exact Hm].
  - split; [intros _ E; discriminate|reflexivity].
Qed.

Lemma validate_height_stepping_returns (h : HeightSteppingConfig F) :
  validate_height_stepping h = inr tt <->
  (hs_enabled h = true -> fle (step_height_mm h) (of_Z 0) = false).
Proof.
  unfold validate_height_stepping. destruct (hs_enabled h).
  - rewrite raise_if_returns. split; [intros E _; exact E|intros E; apply E; reflexivity].
  - split; [intros _ E; discriminate|reflexivity].
Qed.

(** X8: [validate] returns without raising exactly for the configurations
    whose location block and checked settings are in order. *)
Theorem validate_accepts_exactly (config : Config F) :
  validate config = inr tt <->
  location_ok (location config) /\ settings_ok config.
Proof.
  unfold validate, location_ok, settings_ok.
  rewrite !bind_unit_returns, !raise_if_returns, validate_bounds_returns,
    validate_colors_returns, validate_height_stepping_returns,
    negb_false_iff, str_in_In.
  generalize (forall b', bounds (location config) = Some b' ->
                fle (north b') (south b') = false /\ fle (east b') (west b') = false).
  generalize (colors_enabled (colors (terrain config)) = true ->
              (1 <= num_colors (colors (terrain config)) <= 6)%Z /\
              In (color_mode (colors (terrain config))) ["elevation"; "slope"]).
  generalize (hs_enabled (height_stepping (terrain config)) = true ->
              fle (step_height_mm (height_stepping (terrain config))) (of_Z 0) = false).
  generalize (In (str_lower (format (output config))) ["stl"; "3mf"; "amf"; "obj"]).
  intros P7 P6 P5 P4.
  destruct (address (location config)) as [a|]; simpl;
    [destruct (String.eqb a ""); simpl|];
    destruct (bounds (location config)) as [b|]; simpl;
    destruct (radius_km (location config)) as [r|]; simpl;
    intuition congruence.
Qed.
End ValidateAccepts.

(** A valid request by bounds. *)
Example validate_accepts_bounds_request :
  validate (example_config true 4 true false 2%Q 2%Q) = inr tt.
Proof. reflexivity. Qed.

(** ** Sharp height stepping, applied twice *)

Lemma Qround_half_even_int (q : Q) (k : Z) :
  (q == inject_Z k)%Q -> Qround_half_even q = k.
Proof.
  intros Hq. unfold Qround_half_even.
  assert (Hf : Qfloor q = k) by (rewrite Hq; apply Qfloor_Z).
  rewrite Hf.
  destruct (Qle_bool (q - inject_Z k) (1 # 2)) eqn:Hle.
  - destruct (Qeq_bool (q - inject_Z k) (1 # 2)) eqn:Heq; [|reflexivity].
    apply Qeq_bool_iff in Heq. lra.
  - assert (Hgt : (1 # 2 < q - inject_Z k)%Q).
    { apply Qnot_le_lt. intros Hc. apply Qle_bool_iff in Hc. congruence. }
    lra.
Qed.

Lemma Qround_half_even_nonneg (q : Q) : (0 <= q)%Q -> (0 <= Qround_half_even q)%Z.
Proof.
  intros Hq. destruct (Qround_half_even_near q) as [Hlo _].
  assert (Hr : (inject_Z (-1) < inject_Z (Qround_half_even q))%Q).
  { change (inject_Z (-1)) with (-1)%Q. lra. }
  rewrite <- Zlt_Qlt in Hr. lia.
Qed.

Lemma sharp_value_ge_min (step_height min_elev e : Q) :
  (0 < step_height)%Q -> (min_elev <= e)%Q ->
  (min_elev <= sharp_value step_height min_elev e)%Q.
Proof.
  intros Hpos He. unfold sharp_value. cbn [fadd fmul fdiv fsub np_round Q_scalar Q_round].
  assert (Hq : (0 <= (e - min_elev) / step_height)%Q).
  { apply Qle_shift_div_l; [exact Hpos|]. lra. }
  pose proof (Qround_half_even_nonneg _ Hq) as Hr.
  rewrite Zle_Qle in Hr. change (inject_Z 0) with 0%Q in Hr.
  assert (Hp : (0 <= inject_Z (Qround_half_even ((e - min_elev) / step_height))
                     * step_height)%Q).
  { apply Qmult_le_0_compat; [exact Hr|apply Qlt_le_weak; exact Hpos]. }
  lra.
Qed.

Lemma sharp_value_fixed (step_height m m' v : Q) (k : Z) :
  (0 < step_height)%Q -> (m' == m)%Q ->
  (v == inject_Z k * step_height + m)%Q ->
  (sharp_value step_height m' v == v)%Q.
Proof.
  intros Hpos Hm Hv. unfold sharp_value.
  cbn [fadd fmul fdiv fsub np_round Q_scalar Q_round].
  assert (Hq : ((v - m') / step_height == inject_Z k)%Q).
  { rewrite Hv, Hm. field. intros Hc. rewrite Hc in Hpos. apply (Qlt_irrefl _ Hpos). }
  rewrite (Qround_half_even_int _ k Hq). rewrite Hv, Hm. reflexivity.
Qed.

Lemma Forall2_map_self_in {A B} (P : A -> B -> Prop) (g : A -> B) (l : list A) :
  (forall x, In x l -> P x (g x)) -> Forall2 P l (map g l).
Proof.
  induction l as [|x l IH]; intros Hg; simpl; constructor.
  - apply Hg. left. reflexivity.
  - apply IH. intros y Hy. apply Hg. right. exact Hy.
Qed.

(** X9: in exact arithmetic, sharp stepping keeps the minimum of the grid and
    is idempotent: stepping an already stepped grid returns it unchanged, up
    to equality of rationals. *)
Theorem sharp_stepping_idempotent
    (config : Config Q) (elevation_grid : grid Q) (min_elev : Q) :
  smooth_transitions (height_stepping (terrain config)) = false ->
  (0 < step_height_mm (height_stepping (terrain config)) /
       vertical_exaggeration (terrain config))%Q ->
  np_min elevation_grid = inr min_elev ->
  exists stepped min_stepped again,
    _apply_height_stepping config elevation_grid = inr stepped /\
    np_min stepped = inr min_stepped /\ (min_stepped == min_elev)%Q /\
    _apply_height_stepping config stepped = inr again /\
    Forall2 (Forall2 Qeq) stepped again.
Proof.
  intros Hsharp Hpos Hmin.
  set (s := (step_height_mm (height_stepping (terrain config)) /
             vertical_exaggeration (terrain config))%Q) in *.
  assert (Hne : nonempty elevation_grid).
  { apply np_min_in in Hmin. unfold nonempty.
    destruct (concat elevation_grid); [destruct Hmin|discriminate]. }
  pose proof (np_max_nonempty elevation_grid Hne) as Hmax.
  set (stepped := grid_map (sharp_value s min_elev) elevation_grid).
  assert (Hne' : nonempty stepped) by (apply grid_map_nonempty; exact Hne).
  pose proof (np_min_nonempty stepped Hne') as Hmin'.
  pose proof (np_max_nonempty stepped Hne') as Hmax'.
  set (m' := fold_left np_minimum (tl (concat stepped)) (hd fzero (concat stepped))) in *.
  assert (Hm' : (m' == min_elev)%Q).
  { apply Qle_antisym.
    - apply Qle_trans with (sharp_value s min_elev min_elev).
      + apply (np_min_le stepped m' Hmin'). unfold stepped. rewrite concat_grid_map.
        apply in_map_iff. exists min_elev.
        split; [reflexivity|apply (np_min_in _ _ Hmin)].
      + rewrite (sharp_value_fixed s min_elev min_elev min_elev 0 Hpos);
          [apply Qle_refl|reflexivity|ring].
    - pose proof (np_min_in stepped m' Hmin') as Hin. unfold stepped in Hin.
      rewrite concat_grid_map in Hin. apply in_map_iff in Hin as (e & <- & He).
      apply sharp_value_ge_min; [exact Hpos|].
      apply (np_min_le _ _ Hmin). exact He. }
  exists stepped, m', (grid_map (sharp_value s m') stepped).
  split.
  { unfold _apply_height_stepping. rewrite (py_truediv_pos _ _ Hpos), Hmin, Hmax.
    cbn [bind]. rewrite Hsharp. reflexivity. }
  split; [exact Hmin'|]. split; [exact Hm'|]. split.
  { unfold _apply_height_stepping. rewrite (py_truediv_pos _ _ Hpos), Hmin', Hmax'.
    cbn [bind]. rewrite Hsharp. reflexivity. }
  unfold grid_map at 1. apply Forall2_map_self_in. intros row Hrow.
  apply Forall2_map_self_in. intros v Hv.
  unfold stepped, grid_map in Hrow. apply in_map_iff in Hrow as (row0 & <- & _).
  apply in_map_iff in Hv as (e & <- & _).
  destruct (sharp_value_nearest s min_elev e Hpos) as (k & Hk & _).
  symmetry. apply (sharp_value_fixed s min_elev m' _ k Hpos Hm' Hk).
Qed.

Lemma sharp_stepping_idempotent_witness :
  exists stepped min_stepped again,
    _apply_height_stepping config_sharp_10 ramp_0_95 = inr stepped /\
    np_min stepped = inr min_stepped /\ (min_stepped == 0)%Q /\
    _apply_height_stepping config_sharp_10 stepped = inr again /\
    Forall2 (Forall2 Qeq) stepped again.
Proof.
  apply (sharp_stepping_idempotent config_sharp_10 ramp_0_95 0%Q);
    [reflexivity|reflexivity|reflexivity].
Defined.

(** ** Zones of the cells of a grid ([simple_multicolor.py]) *)

(** In a chain of bands without gaps, the first band that contains an
    elevation does not decrease when the elevation grows. *)
Lemma first_containing_monotone (bands : list (zone Q)) (e1 e2 : Q) (k1 k2 : nat) :
  (forall i, S i < length bands ->
     (fst (band bands (S i)) <= snd (band bands i))%Q) ->
  (fst (band bands 0) <= e1)%Q -> (e1 <= e2)%Q ->
  first_containing e1 bands 0 = Some k1 ->
  first_containing e2 bands 0 = Some k2 ->
  k1 <= k2.
Proof.
  intros Hchain Hlo Hle H1 H2.
  destruct (first_containing_some (0%Q, 0%Q) e1 bands 0 k1 H1)
    as (p1 & -> & Hp1 & Hin1 & Hbefore1).
  destruct (first_containing_some (0%Q, 0%Q) e2 bands 0 k2 H2)
    as (p2 & -> & Hp2 & Hin2 & _).
  destruct (Nat.le_gt_cases p1 p2) as [Hok|Hgt]; [lia|exfalso].
  fold (band bands p2) in Hin2.
  assert (Hdown : forall j, j <= p2 -> (e1 < fst (band bands j))%Q).
  { assert (Hstep : forall j, j <= p2 -> (e1 <= snd (band bands j))%Q ->
                      (e1 < fst (band bands j))%Q).
    { intros j Hj Hhi. specialize (Hbefore1 j ltac:(lia)).
      fold (band bands j) in Hbefore1. unfold in_zone in Hbefore1.
      apply andb_false_iff in Hbefore1 as [Hf|Hf].
      - apply Qnot_le_lt. intros Hc. apply Q_fle_iff in Hc. congruence.
      - exfalso. apply Q_fle_iff in Hhi. congruence. }
    intros j Hj. replace j with (p2 - (p2 - j)) by lia.
    generalize (p2 - j). intros d. induction d as [|d IH].
    - rewrite Nat.sub_0_r. apply Hstep; [lia|].
      unfold in_zone in Hin2. apply andb_true_iff in Hin2 as [_ Hhi2].
      apply Q_fle_iff in Hhi2. lra.
    - destruct (Nat.le_gt_cases p2 d) as [Hz|Hnz].
      + replace (p2 - S d) with (p2 - d) by lia. exact IH.
      + apply Hstep; [lia|].
        specialize (Hchain (p2 - S d) ltac:(lia)).
        replace (S (p2 - S d)) with (p2 - d) in Hchain by lia. lra. }
  specialize (Hdown 0 ltac:(lia)). lra.
Qed.

Lemma first_containing_covered (bands : list (zone Q)) (e : Q) (i : nat) :
  i < length bands -> in_zone e (band bands i) = true ->
  exists k, first_containing e bands 0 = Some k.
Proof.
  intros Hi Hin. destruct (first_containing e bands 0) as [k|] eqn:Hk.
  - exists k. reflexivity.
  - pose proof (first_containing_none (0%Q, 0%Q) e bands 0 Hk i Hi) as Hc.
    unfold band in Hin. congruence.
Qed.

(** X10: over a grid with extrema [gmin <= gmax] and N >= 1 colours, every
    elevation of the range is assigned, without the nearest-centre fallback,
    a band in 1..N that contains it; a higher elevation never gets a lower
    band; the minimum gets band 1 and, when the range is not degenerate, the
    maximum gets band N. *)
Theorem grid_elevations_get_ordered_bands
    (config : Config Q) (z_grid : grid Q) (gmin gmax e1 e2 : Q) :
  (1 <= num_colors (colors (terrain config)))%Z ->
  np_min z_grid = inr gmin -> np_max z_grid = inr gmax ->
  (gmin <= e1)%Q -> (e1 <= e2)%Q -> (e2 <= gmax)%Q ->
  exists zones k1 k2,
    SimpleMultiColor._calculate_color_zones config z_grid = inr zones /\
    SimpleMultiColor._assign_elevation_to_zone e1 zones = inr k1 /\
    SimpleMultiColor._assign_elevation_to_zone e2 zones = inr k2 /\
    in_zone e1 (band zones k1) = true /\
    in_zone e2 (band zones k2) = true /\
    1 <= k1 /\ k1 <= k2 /\
    (Z.of_nat k2 <= num_colors (colors (terrain config)))%Z /\
    ((e1 == gmin)%Q -> k1 = 1) /\
    ((gmin < gmax)%Q -> (e2 == gmax)%Q ->
     Z.of_nat k2 = num_colors (colors (terrain config))).
Proof.
  intros Hn Hmin Hmax Hlo Hle Hhi.
  set (n := num_colors (colors (terrain config))) in *.
  set (bands := map (fun i => slice gmin gmax n (Z.to_nat i)) (py_range n)).
  pose proof (simple_zones_eq config z_grid gmin gmax Hmin Hmax) as Hzones.
  fold n in Hzones. fold bands in Hzones.
  pose proof (sbands_length gmin gmax n) as Hlen. fold bands in Hlen.
  pose proof (sbands_cover gmin gmax n Hn) as Hcover. fold bands in Hcover.
  pose proof (slices_total gmin gmax n Hn) as Htot.
  assert (Hchain : forall i, S i < length bands ->
            (fst (band bands (S i)) <= snd (band bands i))%Q).
  { intros i Hi. rewrite Hlen in Hi.
    pose proof (sbands_meet gmin gmax n i Hi) as Hm. fold bands in Hm. lra. }
  assert (Hfirst : (fst (band bands 0) == gmin)%Q).
  { unfold bands. rewrite (sbands_nth gmin gmax n 0) by lia.
    unfold slice. cbn [fst]. change (inject_Z (Z.of_nat 0)) with 0%Q. ring. }
  destruct (Hcover e1 ltac:(split; lra)) as (i1 & Hi1 & Hin1).
  destruct (Hcover e2 ltac:(split; lra)) as (i2 & Hi2 & Hin2).
  destruct (first_containing_covered bands e1 i1 Hi1 Hin1) as [k1 Hk1].
  destruct (first_containing_covered bands e2 i2 Hi2 Hin2) as [k2 Hk2].
  destruct (first_containing_some (0%Q, 0%Q) e1 bands 0 k1 Hk1)
    as (p1 & Ek1 & Hp1 & Hc1 & Hb1).
  destruct (first_containing_some (0%Q, 0%Q) e2 bands 0 k2 Hk2)
    as (p2 & Ek2 & Hp2 & Hc2 & Hb2).
  pose proof (first_containing_monotone bands e1 e2 k1 k2 Hchain
                ltac:(lra) Hle Hk1 Hk2) as Hmono.
  exists ((gmin, gmax) :: bands), k1, k2.
  split; [exact Hzones|].
  unfold SimpleMultiColor._assign_elevation_to_zone. cbn [tl].
  rewrite Hk1, Hk2.
  split; [reflexivity|]. split; [reflexivity|].
  subst k1 k2. replace (0 + p1 + 1) with (S p1) in * by lia.
  replace (0 + p2 + 1) with (S p2) in * by lia. unfold band at 1 2. cbn [nth].
  split; [exact Hc1|]. split; [exact Hc2|]. split; [lia|]. split; [lia|].
  rewrite Hlen in Hp1, Hp2. split; [lia|]. split.
  - intros He1. destruct p1 as [|p1]; [reflexivity|exfalso].
    specialize (Hb1 0 ltac:(lia)). fold (band bands 0) in Hb1.
    assert (Hin0 : in_zone e1 (band bands 0) = true).
    { unfold bands. rewrite (sbands_nth gmin gmax n 0) by lia.
      unfold in_zone, slice. cbn [fst snd].
      change (inject_Z (Z.of_nat 0)) with 0%Q. change (inject_Z (Z.of_nat 0 + 1)) with 1%Q.
      assert (Hh : (0 <= (gmax - gmin) / inject_Z n)%Q).
      { apply Qle_shift_div_l; [|lra].
        change 0%Q with (inject_Z 0). rewrite <- Zlt_Qlt. lia. }
      set (h := ((gmax - gmin) / inject_Z n)%Q) in *.
      apply andb_true_iff. split; apply Q_fle_iff; lra. }
    congruence.
  - intros Hlt He2.
    destruct (Nat.eq_dec (S p2) (Z.to_nat n)) as [E|Hne]; [lia|exfalso].
    unfold in_zone in Hc2. apply andb_true_iff in Hc2 as [_ Hup].
    apply Q_fle_iff in Hup. fold (band bands p2) in Hup.
    unfold bands in Hup. rewrite (sbands_nth gmin gmax n p2) in Hup by lia.
    unfold slice in Hup. cbn [snd] in Hup.
    set (h := ((gmax - gmin) / inject_Z n)%Q) in *.
    assert (Hh : (0 < h)%Q).
    { unfold h. apply Qlt_shift_div_l; [|lra].
      change 0%Q with (inject_Z 0). rewrite <- Zlt_Qlt. lia. }
    assert (Hk : (inject_Z (Z.of_nat p2 + 1) + 1 <= inject_Z n)%Q).
    { change 1%Q with (inject_Z 1). rewrite <- inject_Z_plus, <- Zle_Qle. lia. }
    assert (Hprod : ((inject_Z (Z.of_nat p2 + 1) + 1) * h <= inject_Z n * h)%Q).
    { apply Qmult_le_compat_r; [exact Hk|apply Qlt_le_weak; exact Hh]. }
    lra.
Qed.

Lemma grid_elevations_get_ordered_bands_witness :
  exists zones k1 k2,
    SimpleMultiColor._calculate_color_zones config_three_colors elevation_peak
      = inr zones /\
    SimpleMultiColor._assign_elevation_to_zone 10%Q zones = inr k1 /\
    SimpleMultiColor._assign_elevation_to_zone 25%Q zones = inr k2 /\
    in_zone 10%Q (band zones k1) = true /\
    in_zone 25%Q (band zones k2) = true /\
    1 <= k1 /\ k1 <= k2 /\
    (Z.of_nat k2 <= num_colors (colors (terrain config_three_colors)))%Z /\
    ((10 == 0)%Q -> k1 = 1) /\
    ((0 < 30)%Q -> (25 == 30)%Q ->
     Z.of_nat k2 = num_colors (colors (terrain config_three_colors))).
Proof.
  apply (grid_elevations_get_ordered_bands config_three_colors elevation_peak
           0%Q 30%Q 10%Q 25%Q);
    [simpl; lia|reflexivity|reflexivity|discriminate|discriminate|discriminate].
Defined.

(** ** The vertices and faces of a colour layer ([simple_multicolor.py]) *)

Lemma in_cells (rows cols i j : nat) :
  In (i, j) (cells rows cols) <-> i < rows /\ j < cols.
Proof.
  unfold cells. rewrite in_flat_map. split.
  - intros (i' & Hi' & Hin). apply in_map_iff in Hin as (j' & E & Hj').
    injection E as -> ->. apply in_seq in Hi', Hj'. lia.
  - intros [Hi Hj]. exists i. split; [apply in_seq; lia|].
    apply in_map_iff. exists j. split; [reflexivity|apply in_seq; lia].
Qed.

Lemma NoDup_cells (rows cols : nat) : NoDup (cells rows cols).
Proof.
  unfold cells.
  enough (G : forall a, NoDup (flat_map (fun i => map (fun j => (i, j)) (seq 0 cols))
                                        (seq a rows))) by apply G.
  induction rows as [|rows IH]; intros a; simpl.
  - constructor.
  - apply NoDup_app; [|apply IH|].
    + apply NoDup_map_inj_on; [intros j j' _ _ E; congruence|apply seq_NoDup].
    + intros [i j] Hin Hin'. apply in_map_iff in Hin as (j' & E & _).
      injection E as <- _. apply in_flat_map in Hin' as (i' & Hi' & Hin').
      apply in_map_iff in Hin' as (j'' & E & _). injection E as -> _.
      apply in_seq in Hi'. lia.
Qed.

Section LayerFaces.
Context {F : Type} `{Scalar F}.

(** What the vertex loop of [_create_color_layer] keeps true, after the
    cells [done]: vertices come in pairs, the array [vertex_indices] holds
    the index of the top vertex of the included cells and of no other. *)
Definition layer_inv (x_grid y_grid z_grid : grid F) (zones : list (zone F))
    (zone_idx : nat) (layer_thickness : F) (done : list (nat * nat))
    (st : list (F * F * F) * gmap (nat * nat) nat) : Prop :=
  length (fst st) = 2 * size (snd st) /\
  (forall c, is_Some (snd st !! c) <->
     In c done /\ should_include x_grid y_grid z_grid zones zone_idx c = inr true) /\
  (forall i j v, snd st !! (i, j) = Some v ->
     (exists k, v = 2 * k) /\ v + 1 < length (fst st) /\
     forall d,
       nth v (fst st) d =
         (gget x_grid i j, gget y_grid i j, fadd (gget z_grid i j) layer_thickness) /\
       nth (v + 1) (fst st) d = (gget x_grid i j, gget y_grid i j, gget z_grid i j)) /\
  (forall c c' v, snd st !! c = Some v -> snd st !! c' = Some v -> c = c').

Lemma layer_inv_step (x_grid y_grid z_grid : grid F) (zones : list (zone F))
    (zone_idx : nat) (layer_thickness : F) (done : list (nat * nat))
    (vertices : list (F * F * F)) (vertex_indices : gmap (nat * nat) nat)
    (i j : nat) (inc : bool) :
  ~ In (i, j) done ->
  should_include x_grid y_grid z_grid zones zone_idx (i, j) = inr inc ->
  layer_inv x_grid y_grid z_grid zones zone_idx layer_thickness done
    (vertices, vertex_indices) ->
  layer_inv x_grid y_grid z_grid zones zone_idx layer_thickness (done ++ [(i, j)])
    (if inc
     then (vertices ++ [(gget x_grid i j, gget y_grid i j,
                         fadd (gget z_grid i j) layer_thickness);
                        (gget x_grid i j, gget y_grid i j, gget z_grid i j)],
           <[(i, j) := length vertices]> vertex_indices)
     else (vertices, vertex_indices)).
Proof.
  intros Hnew Hinc (Hlen & Hdom & Hent & Hinj). simpl in Hlen, Hdom, Hent, Hinj.
  assert (Hfresh : vertex_indices !! (i, j) = None).
  { destruct (vertex_indices !! (i, j)) eqn:E; [|reflexivity].
    exfalso. apply Hnew. apply (Hdom (i, j)). rewrite E. eexists; reflexivity. }
  destruct inc; unfold layer_inv; simpl fst; simpl snd.
  - split; [|split; [|split]].
    + rewrite length_app, map_size_insert_None by exact Hfresh. simpl. lia.
    + intros c. rewrite lookup_insert_is_Some, in_app_iff, Hdom. simpl. split.
      * intros [<-|[Hne [Hin Hs]]]; [split; [right; left; reflexivity|exact Hinc]|].
        split; [left; exact Hin|exact Hs].
      * intros [[Hin|[<-|[]]] Hs]; [|left; reflexivity].
        destruct (decide ((i, j) = c)) as [E|Hne]; [left; exact E|].
        right. split; [exact Hne|]. split; assumption.
    + intros i' j' v Hv. apply lookup_insert_Some in Hv as [[E <-]|[Hne Hv]].
      * injection E as <- <-. split; [exists (size vertex_indices); exact Hlen|].
        rewrite length_app. simpl. split; [lia|]. intros d. split.
        -- rewrite app_nth2 by lia. rewrite Nat.sub_diag. reflexivity.
        -- rewrite app_nth2 by lia.
           replace (length vertices + 1 - length vertices) with 1 by lia. reflexivity.
      * destruct (Hent i' j' v Hv) as (Hev & Hlt & Hnth).
        split; [exact Hev|]. rewrite length_app. simpl. split; [lia|].
        intros d. rewrite !app_nth1 by lia. apply Hnth.
    + intros c c' v Hc Hc'.
      apply lookup_insert_Some in Hc as [[E <-]|[Hne Hc]];
        apply lookup_insert_Some in Hc' as [[E' Ev]|[Hne' Hc']].
      * congruence.
      * destruct c' as [i' j']. destruct (Hent i' j' _ Hc') as (_ & Hlt & _). lia.
      * destruct c as [i' j']. destruct (Hent i' j' _ Hc) as (_ & Hlt & _). lia.
      * exact (Hinj c c' v Hc Hc').
  - split; [exact Hlen|]. split; [|split; [exact Hent|exact Hinj]].
    intros c. rewrite Hdom, in_app_iff. simpl. split.
    + intros [Hin Hs]. split; [left; exact Hin|exact Hs].
    + intros [[Hin|[<-|[]]] Hs]; [split; assumption|congruence].
Qed.

Lemma layer_vertices_loop_inv (x_grid y_grid z_grid : grid F) (zones : list (zone F))
    (zone_idx : nat) (layer_thickness : F) (cs : list (nat * nat)) :
  forall (done : list (nat * nat)) (st st' : list (F * F * F) * gmap (nat * nat) nat),
  NoDup cs -> (forall c, In c cs -> ~ In c done) ->
  layer_inv x_grid y_grid z_grid zones zone_idx layer_thickness done st ->
  layer_vertices_loop x_grid y_grid z_grid zones zone_idx layer_thickness cs st = inr st' ->
  layer_inv x_grid y_grid z_grid zones zone_idx layer_thickness (done ++ cs) st'.
Proof.
  induction cs as [|c cs IH]; intros done st st' Hnd Hnew Hinv Hloop.
  - simpl in Hloop. injection Hloop as <-. rewrite app_nil_r. exact Hinv.
  - simpl in Hloop.
    destruct (should_include x_grid y_grid z_grid zones zone_idx c) as [e|inc] eqn:Hinc;
      [discriminate|].
    simpl bind in Hloop. destruct st as [vertices vertex_indices].
    destruct c as [i j]. inversion Hnd as [|? ? Hc Hnd']; subst.
    replace (done ++ (i, j) :: cs) with ((done ++ [(i, j)]) ++ cs)
      by (rewrite <- app_assoc; reflexivity).
    eapply IH; [exact Hnd'| |apply layer_inv_step; [|exact Hinc|exact Hinv]|].
    + intros c' Hc' Hin. apply in_app_iff in Hin as [Hin|[<-|[]]].
      * apply (Hnew c'); [right; exact Hc'|exact Hin].
      * contradiction.
    + apply Hnew. left. reflexivity.
    + destruct inc; exact Hloop.
Qed.

(** The faces of [_create_layer_faces] over an array that holds even,
    pairwise different indices with [v + 1] below [n]. *)
Lemma create_layer_faces_valid (vertex_indices : gmap (nat * nat) nat)
    (rows cols n : nat) :
  (forall c v, vertex_indices !! c = Some v -> (exists k, v = 2 * k) /\ v + 1 < n) ->
  (forall c c' v, vertex_indices !! c = Some v -> vertex_indices !! c' = Some v -> c = c') ->
  Forall (fun f => face_valid n f /\ face_distinct f)
         (_create_layer_faces vertex_indices rows cols).
Proof.
  intros Hent Hinj.
  assert (Hdiff : forall c c' v v', c <> c' ->
            vertex_indices !! c = Some v -> vertex_indices !! c' = Some v' -> v <> v').
  { intros c c' v v' Hne Hc Hc' E. subst v'. apply Hne. exact (Hinj c c' v Hc Hc'). }
  unfold _create_layer_faces. apply Forall_app. split.
  - apply Forall_flat_map, Forall_forall. intros [i j] _.
    destruct (vertex_indices !! (i, j)) as [v00|] eqn:E00; [|constructor].
    destruct (vertex_indices !! (i, j + 1)) as [v01|] eqn:E01; [|constructor].
    destruct (vertex_indices !! (i + 1, j)) as [v10|] eqn:E10; [|constructor].
    destruct (vertex_indices !! (i + 1, j + 1)) as [v11|] eqn:E11; [|constructor].
    destruct (Hent _ _ E00) as ([k00 ->] & L00).
    destruct (Hent _ _ E01) as ([k01 ->] & L01).
    destruct (Hent _ _ E10) as ([k10 ->] & L10).
    destruct (Hent _ _ E11) as ([k11 ->] & L11).
    assert (D1 : 2 * k00 <> 2 * k01)
      by (apply (Hdiff (i, j) (i, j + 1)); [intros E; injection E; lia|assumption..]).
    assert (D2 : 2 * k00 <> 2 * k10)
      by (apply (Hdiff (i, j) (i + 1, j)); [intros E; injection E; lia|assumption..]).
    assert (D3 : 2 * k01 <> 2 * k10)
      by (apply (Hdiff (i, j + 1) (i + 1, j)); [intros E; injection E; lia|assumption..]).
    assert (D4 : 2 * k01 <> 2 * k11)
      by (apply (Hdiff (i, j + 1) (i + 1, j + 1));
          [intros E; injection E; lia|assumption..]).
    assert (D5 : 2 * k10 <> 2 * k11)
      by (apply (Hdiff (i + 1, j) (i + 1, j + 1));
          [intros E; injection E; lia|assumption..]).
    repeat constructor; simpl; lia.
  - apply Forall_flat_map, Forall_forall. intros [i j] _.
    destruct (vertex_indices !! (i, j)) as [v|] eqn:E; [|constructor].
    destruct (Hent _ _ E) as ([k ->] & L). apply Forall_app. split.
    + destruct (j + 1 <? cols); [|constructor].
      destruct (vertex_indices !! (i, j + 1)) as [w|] eqn:Ew; [|constructor].
      destruct (Hent _ _ Ew) as ([kw ->] & Lw).
      assert (D : 2 * k <> 2 * kw)
        by (apply (Hdiff (i, j) (i, j + 1)); [intros E'; injection E'; lia|assumption..]).
      repeat constructor; simpl; lia.
    + destruct (i + 1 <? rows); [|constructor].
      destruct (vertex_indices !! (i + 1, j)) as [w|] eqn:Ew; [|constructor].
      destruct (Hent _ _ Ew) as ([kw ->] & Lw).
      assert (D : 2 * k <> 2 * kw)
        by (apply (Hdiff (i, j) (i + 1, j)); [intros E'; injection E'; lia|assumption..]).
      repeat constructor; simpl; lia.
Qed.

(** X11: when the vertex loop of [_create_color_layer] returns, the array
    [vertex_indices] holds an entry for exactly the cells of the grid that
    pass the inclusion test; the entry of cell (i, j) is the index of its top
    vertex, at [z_grid[i, j] + layer_thickness], and the next index is its
    bottom vertex, at [z_grid[i, j]], both over the cell's X and Y; and every
    face of [_create_layer_faces] has three different corners, all of them
    indices of the vertex list. *)
Theorem color_layer_faces_index_vertices
    (x_grid y_grid z_grid : grid F) (zones : list (zone F)) (zone_idx : nat)
    (layer_thickness : F) (rows cols : nat)
    (vertices : list (F * F * F)) (vertex_indices : gmap (nat * nat) nat) :
  layer_vertices_loop x_grid y_grid z_grid zones zone_idx layer_thickness
    (cells rows cols) ([], ∅) = inr (vertices, vertex_indices) ->
  length vertices = 2 * size vertex_indices /\
  (forall i j, is_Some (vertex_indices !! (i, j)) <->
     (i < rows /\ j < cols) /\
     should_include x_grid y_grid z_grid zones zone_idx (i, j) = inr true) /\
  (forall i j v d, vertex_indices !! (i, j) = Some v ->
     nth v vertices d =
       (gget x_grid i j, gget y_grid i j, fadd (gget z_grid i j) layer_thickness) /\
     nth (v + 1) vertices d = (gget x_grid i j, gget y_grid i j, gget z_grid i j)) /\
  Forall (fun f => face_valid (length vertices) f /\ face_distinct f)
         (_create_layer_faces vertex_indices rows cols).
Proof.
  intros Hloop.
  pose proof (layer_vertices_loop_inv x_grid y_grid z_grid zones zone_idx layer_thickness
                (cells rows cols) [] ([], ∅) (vertices, vertex_indices)
                (NoDup_cells rows cols) (fun c _ Hin => Hin)) as Hinv.
  destruct Hinv as (Hlen & Hdom & Hent & Hinj); [|exact Hloop|].
  { split; [reflexivity|]. split; [|split].
    - intros c. simpl. rewrite lookup_empty. split; [intros [x Hx]; discriminate|].
      intros [[] _].
    - intros i j v Hv. simpl in Hv. rewrite lookup_empty in Hv. discriminate.
    - intros c c' v Hv. simpl in Hv. rewrite lookup_empty in Hv. discriminate. }
  simpl in Hlen, Hdom, Hent, Hinj. split; [exact Hlen|]. split; [|split].
  - intros i j. rewrite Hdom, <- in_cells. reflexivity.
  - intros i j v d Hv. destruct (Hent i j v Hv) as (_ & _ & Hnth). apply Hnth.
  - apply create_layer_faces_valid; [|exact Hinj].
    intros [i j] v Hv. destruct (Hent i j v Hv) as (Hev & Hlt & _). auto.
Qed.
End LayerFaces.

Definition elevation_steps : grid Q := [[10; 30]; [60; 90]]%Q.

Lemma color_layer_faces_index_vertices_witness :
  exists vertices vertex_indices,
    layer_vertices_loop x_grid_2x2 y_grid_2x2 elevation_steps zones_0_100 2 2%Q
      (cells 2 2) ([], ∅) = inr (vertices, vertex_indices) /\
    length vertices = 2 * size vertex_indices /\
    (forall i j, is_Some (vertex_indices !! (i, j)) <->
       (i < 2 /\ j < 2) /\
       should_include x_grid_2x2 y_grid_2x2 elevation_steps zones_0_100 2 (i, j)
         = inr true) /\
    (forall i j v d, vertex_indices !! (i, j) = Some v ->
       nth v vertices d =
         (gget x_grid_2x2 i j, gget y_grid_2x2 i j,
          fadd (gget elevation_steps i j) 2%Q) /\
       nth (v + 1) vertices d =
         (gget x_grid_2x2 i j, gget y_grid_2x2 i j, gget elevation_steps i j)) /\
    Forall (fun f => face_valid (length vertices) f /\ face_distinct f)
           (_create_layer_faces vertex_indices 2 2).
Proof.
  eexists _, _. split; [vm_compute; reflexivity|].
  apply (color_layer_faces_index_vertices x_grid_2x2 y_grid_2x2 elevation_steps
           zones_0_100 2 2%Q 2 2).
  vm_compute. reflexivity.
Defined.

(** The layer of zone 2 over the 2 x 2 grid: the cell in the zone and its
    two neighbours in higher zones, but not the cell of zone 1; with three
    cells there is no full quad, only the two walls between adjacent cells. *)
Example color_layer_of_zone_2 :
  match layer_vertices_loop x_grid_2x2 y_grid_2x2 elevation_steps zones_0_100 2 2%Q
          (cells 2 2) ([], ∅) with
  | inr (vertices, vertex_indices) =>
      length vertices = 6 /\
      map (fun c => vertex_indices !! c) (cells 2 2) = [None; Some 0; Some 2; Some 4] /\
      _create_layer_faces vertex_indices 2 2 =
        [(1, 4, 0); (1, 5, 4); (3, 2, 5); (2, 4, 5)]
  | inl _ => False
  end.
Proof. vm_compute. repeat split. Qed.

(** ** The names of the layers ([simple_multicolor.py]) *)

Section LayerNames.
Context {F : Type} `{ScalarLaws F}.
Variable Mesh : Type.
Variable Trimesh : list (F * F * F) -> list face -> result Mesh.
Variable _validate_and_fix_mesh : Mesh -> result Mesh.

(** X12: a mapping that [generate_multi_color_meshes] returns holds the
    base layer under "layer00" and, for each zone i of 1..num_colors, what
    [_create_color_layer] returned for it under [layer_name i]: its mesh, or
    no entry when it returned [None].  No layer overwrites another or the
    base layer, and there is no entry under any other key. *)
Theorem color_layers_keep_their_names
    (config : Config F) (x_grid y_grid elevation_grid : grid F)
    (meshes : gmap string Mesh) :
  generate_multi_color_meshes Mesh Trimesh _validate_and_fix_mesh
    config x_grid y_grid elevation_grid = inr meshes ->
  exists x_norm y_norm z_norm z_lift zones base,
    _normalize_to_printer_bed config x_grid y_grid
      (grid_map (fun e => fmul e (vertical_exaggeration (terrain config)))
                elevation_grid) = inr (x_norm, y_norm, z_norm) /\
    z_lift =
      grid_map (fun v => fadd v (layer_thickness_mm (colors (terrain config))))
               z_norm /\
    SimpleMultiColor._calculate_color_zones config z_lift = inr zones /\
    _create_base_layer Mesh Trimesh _validate_and_fix_mesh x_norm y_norm z_lift
      = inr base /\
    meshes !! "layer00" = Some base /\
    (forall i,
       (1 <= Z.of_nat i <= num_colors (colors (terrain config)))%Z ->
       exists layer,
         _create_color_layer Mesh Trimesh _validate_and_fix_mesh config
           x_norm y_norm z_lift zones i = inr layer /\
         meshes !! layer_name i = layer) /\
    (forall k,
       k <> "layer00" ->
       (forall i, (1 <= Z.of_nat i <= num_colors (colors (terrain config)))%Z ->
                  k <> layer_name i) ->
       meshes !! k = None).
Proof.
  intros Hgen.
  destruct (generate_multi_color_meshes_returned Mesh Trimesh _validate_and_fix_mesh
              config x_grid y_grid elevation_grid meshes Hgen)
    as (xn & yn & zn & zones & base & Hnorm & Hzones & Hbase & Hloop).
  set (zn' := grid_map (fun v => fadd v (layer_thickness_mm (colors (terrain config))))
                       zn) in *.
  pose proof (simple_zones_length config zn' zones Hzones) as Hlen.
  destruct (color_layers_loop_lookup Mesh Trimesh _validate_and_fix_mesh
              config xn yn zn' zones (seq 1 (length (tl zones)))
              _ meshes (seq_NoDup _ _) Hloop) as (Hother & Hin).
  exists xn, yn, zn, zn', zones, base.
  split; [exact Hnorm|]. split; [reflexivity|]. split; [exact Hzones|].
  split; [exact Hbase|]. split; [|split].
  - rewrite (Hother "layer00" (layer00_is_no_colour_layer _)).
    apply lookup_insert_eq.
  - intros i Hi.
    assert (Hi' : In i (seq 1 (length (tl zones)))) by (apply in_seq; lia).
    destruct (Hin i Hi') as (layer & Hlayer & Hlook).
    exists layer. split; [exact Hlayer|]. rewrite Hlook.
    destruct layer as [m|]; [reflexivity|].
    rewrite lookup_insert_ne by (apply (layer00_is_no_colour_layer _ _ Hi')).
    apply lookup_empty.
  - intros k Hk Hnames. rewrite Hother.
    + rewrite lookup_insert_ne by congruence. apply lookup_empty.
    + intros i Hi. apply Hnames. apply in_seq in Hi. rewrite Hlen in Hi. lia.
Qed.
End LayerNames.

Lemma color_layers_keep_their_names_witness :
  exists meshes,
  generate_multi_color_meshes mesh_counts count_mesh no_repair
    config_three_colors x_grid_2x2 y_grid_2x2 elevation_ridge = inr meshes /\
  exists x_norm y_norm z_norm z_lift zones base,
    _normalize_to_printer_bed config_three_colors x_grid_2x2 y_grid_2x2
      (grid_map (fun e => fmul e (vertical_exaggeration (terrain config_three_colors)))
                elevation_ridge) = inr (x_norm, y_norm, z_norm) /\
    z_lift =
      grid_map (fun v => fadd v (layer_thickness_mm (colors (terrain config_three_colors))))
               z_norm /\
    SimpleMultiColor._calculate_color_zones config_three_colors z_lift = inr zones /\
    _create_base_layer mesh_counts count_mesh no_repair x_norm y_norm z_lift
      = inr base /\
    meshes !! "layer00" = Some base /\
    (forall i,
       (1 <= Z.of_nat i <= num_colors (colors (terrain config_three_colors)))%Z ->
       exists layer,
         _create_color_layer mesh_counts count_mesh no_repair config_three_colors
           x_norm y_norm z_lift zones i = inr layer /\
         meshes !! layer_name i = layer) /\
    (forall k,
       k <> "layer00" ->
       (forall i, (1 <= Z.of_nat i <= num_colors (colors (terrain config_three_colors)))%Z ->
                  k <> layer_name i) ->
       meshes !! k = None).
Proof.
  eexists. split; [vm_compute; reflexivity|].
  apply (color_layers_keep_their_names mesh_counts count_mesh no_repair
           config_three_colors x_grid_2x2 y_grid_2x2 elevation_ridge).
  vm_compute. reflexivity.
Defined.

(** ** Cells next to a zone ([simple_multicolor.py]) *)

Section BoundaryPoint.
Context {F : Type} `{ScalarLaws F}.

(** The neighbour of cell (i, j) at offset [d] lies in the grid, holds a
    number and is assigned to [target_zone]. *)
Definition neighbour_in_zone (i j rows cols : nat) (z_grid : grid F)
    (zones : list (zone F)) (target_zone : nat) (d : Z * Z) : Prop :=
  (fst d <> 0 \/ snd d <> 0)%Z /\
  (0 <= Z.of_nat i + fst d < Z.of_nat rows)%Z /\
  (0 <= Z.of_nat j + snd d < Z.of_nat cols)%Z /\
  fisnan (gget z_grid (Z.to_nat (Z.of_nat i + fst d)) (Z.to_nat (Z.of_nat j + snd d)))
    = false /\
  SimpleMultiColor._assign_elevation_to_zone
    (gget z_grid (Z.to_nat (Z.of_nat i + fst d)) (Z.to_nat (Z.of_nat j + snd d))) zones
    = inr target_zone.

Lemma boundary_step_spec (i j rows cols : nat) (z_grid : grid F)
    (zones : list (zone F)) (target_zone : nat) (b : bool) (d : Z * Z) :
  tl zones <> [] ->
  exists b',
    boundary_step i j rows cols z_grid zones target_zone (inr b) d = inr b' /\
    (b' = true <->
     b = true \/ neighbour_in_zone i j rows cols z_grid zones target_zone d).
Proof.
  intros Hne. unfold boundary_step, neighbour_in_zone. simpl bind.
  destruct b; [exists true; split; [reflexivity|tauto]|].
  destruct d as [di dj]. cbn [fst snd].
  destruct ((di =? 0)%Z && (dj =? 0)%Z) eqn:Hz.
  { exists false. split; [reflexivity|]. apply andb_true_iff in Hz as [Hi Hj].
    apply Z.eqb_eq in Hi, Hj. split; [discriminate|]. intros [E|(Hd & _)]; [discriminate|lia]. }
  assert (Hd : (di <> 0 \/ dj <> 0)%Z).
  { apply andb_false_iff in Hz as [Hz|Hz]; apply Z.eqb_neq in Hz; auto. }
  set (ni := (Z.of_nat i + di)%Z). set (nj := (Z.of_nat j + dj)%Z).
  destruct ((0 <=? ni)%Z && (ni <? Z.of_nat rows)%Z && (0 <=? nj)%Z &&
            (nj <? Z.of_nat cols)%Z &&
            negb (fisnan (gget z_grid (Z.to_nat ni) (Z.to_nat nj)))) eqn:Hin.
  - apply andb_true_iff in Hin as [Hin Hnan]. apply negb_true_iff in Hnan.
    apply andb_true_iff in Hin as [Hin H4]. apply andb_true_iff in Hin as [Hin H3].
    apply andb_true_iff in Hin as [H1 H2].
    apply Z.leb_le in H1, H3. apply Z.ltb_lt in H2, H4.
    destruct (assign_returns (gget z_grid (Z.to_nat ni) (Z.to_nat nj)) zones Hne)
      as [k Hk].
    rewrite Hk. simpl bind. exists (k =? target_zone). split; [reflexivity|].
    rewrite Nat.eqb_eq. split.
    + intros ->. right. repeat split; auto.
    + intros [E|(_ & _ & _ & _ & E)]; [discriminate|]. congruence.
  - exists false. split; [reflexivity|]. split; [discriminate|].
    intros [E|(_ & [H1 H2] & [H3 H4] & Hnan & _)]; [discriminate|].
    apply Z.leb_le in H1, H3. apply Z.ltb_lt in H2, H4.
    rewrite H1, H2, H3, H4, Hnan in Hin. discriminate.
Qed.

Lemma boundary_fold_spec (i j rows cols : nat) (z_grid : grid F)
    (zones : list (zone F)) (target_zone : nat) (ds : list (Z * Z)) :
  tl zones <> [] ->
  forall b, exists b',
    fold_left (boundary_step i j rows cols z_grid zones target_zone) ds (inr b) = inr b' /\
    (b' = true <->
     b = true \/
     exists d, In d ds /\ neighbour_in_zone i j rows cols z_grid zones target_zone d).
Proof.
  intros Hne. induction ds as [|d ds IH]; intros b; cbn [fold_left].
  - exists b. split; [reflexivity|]. split; [auto|]. intros [E|(d & [] & _)]. exact E.
  - destruct (boundary_step_spec i j rows cols z_grid zones target_zone b d Hne)
      as (b1 & Hstep & Hb1).
    rewrite Hstep.
    destruct (IH b1) as (b' & Hfold & Hb'). exists b'. split; [exact Hfold|].
    rewrite Hb', Hb1. split.
    + intros [[E|Hd]|(d' & Hin & Hd')]; [left; exact E| |].
      * right. exists d. split; [left; reflexivity|exact Hd].
      * right. exists d'. split; [right; exact Hin|exact Hd'].
    + intros [E|(d' & [<-|Hin] & Hd')]; [left; left; exact E| |].
      * left. right. exact Hd'.
      * right. exists d'. split; assumption.
Qed.

(** X13: with at least one colour zone, [_is_boundary_point] returns
    without raising, and returns [True] exactly when one of the eight
    neighbours of cell (i, j) lies in the grid, is not NaN and is assigned to
    [target_zone]. *)
Theorem is_boundary_point_iff
    (i j rows cols : nat) (x_grid y_grid z_grid : grid F)
    (zones : list (zone F)) (target_zone : nat) :
  tl zones <> [] -> shape x_grid = (rows, cols) ->
  exists b,
    _is_boundary_point i j x_grid y_grid z_grid zones target_zone = inr b /\
    (b = true <->
     exists di dj,
       (-1 <= di <= 1)%Z /\ (-1 <= dj <= 1)%Z /\
       neighbour_in_zone i j rows cols z_grid zones target_zone (di, dj)).
Proof.
  intros Hne Hs. unfold _is_boundary_point. rewrite Hs.
  destruct (boundary_fold_spec i j rows cols z_grid zones target_zone
              (flat_map (fun di => map (fun dj => (di, dj)) [-1; 0; 1]%Z) [-1; 0; 1]%Z)
              Hne false) as (b & Hfold & Hb).
  exists b. split; [exact Hfold|]. rewrite Hb. split.
  - intros [E|([di dj] & Hin & Hd)]; [discriminate|].
    exists di, dj. split; [|split; [|exact Hd]].
    + simpl in Hin. repeat (destruct Hin as [E|Hin]; [injection E as <- <-; lia|]).
      destruct Hin.
    + simpl in Hin. repeat (destruct Hin as [E|Hin]; [injection E as <- <-; lia|]).
      destruct Hin.
  - intros (di & dj & Hdi & Hdj & Hd). right. exists (di, dj). split; [|exact Hd].
    assert (Ei : (di = -1 \/ di = 0 \/ di = 1)%Z) by lia.
    assert (Ej : (dj = -1 \/ dj = 0 \/ dj = 1)%Z) by lia.
    simpl. destruct Ei as [->|[->| ->]]; destruct Ej as [->|[->| ->]]; tauto.
Qed.
End BoundaryPoint.

Lemma is_boundary_point_iff_witness :
  exists b,
    _is_boundary_point 1 1 x_grid_2x2 y_grid_2x2 elevation_peak zones_0_100 1 = inr b /\
    (b = true <->
     exists di dj,
       (-1 <= di <= 1)%Z /\ (-1 <= dj <= 1)%Z /\
       neighbour_in_zone 1 1 2 2 elevation_peak zones_0_100 1 (di, dj)).
Proof.
  apply (is_boundary_point_iff 1 1 2 2 x_grid_2x2 y_grid_2x2 elevation_peak
           zones_0_100 1); [discriminate|reflexivity].
Defined.

(** ** The colour gradient over the solid ([colored_export.py]) *)

(** [_calculate_vertex_colors] over a terrain and a solid that are not flat:
    the palette is indexed by the bucket of each vertex. *)
Lemma calculate_vertex_colors_buckets
    (config : Config Q) (color_palette : list color)
    (vertices : list (Q * Q * Q)) (elevation_grid : grid Q)
    (min_elev max_elev z_min z_max : Q) :
  np_min elevation_grid = inr min_elev -> np_max elevation_grid = inr max_elev ->
  ~ (max_elev - min_elev == 0)%Q ->
  np_min [z_coords_of (base_thickness_mm (terrain config)) vertices] = inr z_min ->
  np_max [z_coords_of (base_thickness_mm (terrain config)) vertices] = inr z_max ->
  ~ (z_max - z_min == 0)%Q ->
  _calculate_vertex_colors config color_palette vertices elevation_grid =
  result_map (py_getitem color_palette)
    (map (fun v => palette_bucket (length color_palette)
                     (normalized_height (base_thickness_mm (terrain config))
                                        z_min z_max v)) vertices).
Proof.
  intros Hmin Hmax He Hzmin Hzmax Hz.
  unfold _calculate_vertex_colors. rewrite Hmin, Hmax. simpl bind.
  change (feq (fsub max_elev min_elev) (of_Z 0))
    with (Qeq_bool (max_elev - min_elev) 0).
  change (inject_Z 0) with 0%Q.
  destruct (Qeq_bool (max_elev - min_elev) 0) eqn:He';
    [apply Qeq_bool_iff in He'; contradiction|].
  unfold z_coords_of in Hzmin, Hzmax.
  cbn [fsub Q_scalar]. rewrite Hzmin, Hzmax. simpl bind.
  change (feq (fsub z_max z_min) (of_Z 0)) with (Qeq_bool (z_max - z_min) 0).
  change (inject_Z 0) with 0%Q.
  destruct (Qeq_bool (z_max - z_min) 0) eqn:Hz';
    [apply Qeq_bool_iff in Hz'; contradiction|].
  rewrite !map_map. reflexivity.
Qed.

Lemma palette_bucket_monotone (n : nat) (a b : Q) :
  (a <= b)%Q -> (palette_bucket n a <= palette_bucket n b)%Z.
Proof.
  intros Hab. unfold palette_bucket, np_clip.
  assert (Hf : (Qfloor (a * inject_Z (Z.of_nat n)) <=
                Qfloor (b * inject_Z (Z.of_nat n)))%Z).
  { apply Qfloor_resp_le. apply Qmult_le_compat_r; [exact Hab|].
    change 0%Q with (inject_Z 0). rewrite <- Zle_Qle. lia. }
  lia.
Qed.

Lemma palette_bucket_0 (n : nat) (a : Q) :
  1 <= n -> (a == 0)%Q -> palette_bucket n a = 0%Z.
Proof.
  intros Hn Ha. unfold palette_bucket.
  assert (E : (a * inject_Z (Z.of_nat n) == inject_Z 0)%Q) by (rewrite Ha; ring).
  rewrite E, Qfloor_Z. unfold np_clip. lia.
Qed.

Lemma palette_bucket_1 (n : nat) (a : Q) :
  1 <= n -> (a == 1)%Q -> palette_bucket n a = (Z.of_nat n - 1)%Z.
Proof.
  intros Hn Ha. unfold palette_bucket.
  assert (E : (a * inject_Z (Z.of_nat n) == inject_Z (Z.of_nat n))%Q)
    by (rewrite Ha; ring).
  rewrite E, Qfloor_Z. unfold np_clip. lia.
Qed.

(** X14: over a terrain and a solid that are not flat, the colour of vertex
    number k is the palette entry at an index [idx k] below the palette size
    that never decreases as the vertex height grows; a lowest vertex gets the
    first palette colour and a highest vertex the last. *)
Theorem vertex_colors_follow_height
    (config : Config Q) (color_palette : list color)
    (vertices : list (Q * Q * Q)) (elevation_grid : grid Q)
    (min_elev max_elev z_min z_max : Q) :
  color_palette <> [] ->
  np_min elevation_grid = inr min_elev -> np_max elevation_grid = inr max_elev ->
  ~ (max_elev - min_elev == 0)%Q ->
  np_min [z_coords_of (base_thickness_mm (terrain config)) vertices] = inr z_min ->
  np_max [z_coords_of (base_thickness_mm (terrain config)) vertices] = inr z_max ->
  ~ (z_max - z_min == 0)%Q ->
  exists idx : list nat,
    length idx = length vertices /\
    _calculate_vertex_colors config color_palette vertices elevation_grid =
      inr (map (fun k => nth k color_palette (0, 0, 0, 0)%Z) idx) /\
    (forall a b d, a < length vertices -> b < length vertices ->
       (snd (nth a vertices d) <= snd (nth b vertices d))%Q ->
       nth a idx 0 <= nth b idx 0 < length color_palette) /\
    (forall a d, a < length vertices ->
       (forall v, In v vertices -> (snd (nth a vertices d) <= snd v)%Q) ->
       nth a idx 0 = 0) /\
    (forall a d, a < length vertices ->
       (forall v, In v vertices -> (snd v <= snd (nth a vertices d))%Q) ->
       nth a idx 0 = length color_palette - 1).
Proof.
  intros Hpal Hmin Hmax He Hzmin Hzmax Hz.
  set (base := base_thickness_mm (terrain config)) in *.
  set (n := length color_palette).
  assert (Hn : 1 <= n) by (unfold n; destruct color_palette; [congruence|simpl; lia]).
  set (bucket := fun v => Z.to_nat (palette_bucket n (normalized_height base z_min z_max v))).
  assert (Hrange : forall v, (0 <= palette_bucket n (normalized_height base z_min z_max v)
                                < Z.of_nat n)%Z).
  { intros v. unfold palette_bucket. apply np_clip_range. lia. }
  assert (Hpos : (0 < z_max - z_min)%Q).
  { assert (Hle : (z_min <= z_max)%Q).
    { pose proof (np_min_in _ _ Hzmin) as Hin.
      exact (np_max_ge _ _ Hzmax _ Hin). }
    destruct (Qlt_le_dec 0 (z_max - z_min)) as [Hp|Hnp]; [exact Hp|].
    exfalso. apply Hz. lra. }
  assert (Hzin : forall v, In v vertices ->
            In (snd v - base)%Q (concat [z_coords_of base vertices])).
  { intros v Hv. simpl. rewrite app_nil_r. unfold z_coords_of.
    apply (in_map (fun v => (snd v - base)%Q)). exact Hv. }
  assert (Hmono : forall v w, (snd v <= snd w)%Q ->
            (normalized_height base z_min z_max v <=
             normalized_height base z_min z_max w)%Q).
  { intros v w Hvw. unfold normalized_height, Qdiv.
    apply Qmult_le_compat_r; [lra|]. apply Qlt_le_weak, Qinv_lt_0_compat. exact Hpos. }
  exists (map bucket vertices). split; [apply length_map|]. split.
  { rewrite (calculate_vertex_colors_buckets config color_palette vertices elevation_grid
               min_elev max_elev z_min z_max Hmin Hmax He Hzmin Hzmax Hz).
    fold base. fold n. rewrite map_map.
    apply result_map_in_range. intros v _. apply Hrange. }
  assert (Hnth : forall a d, a < length vertices ->
            nth a (map bucket vertices) 0 = bucket (nth a vertices d)).
  { intros a d Ha. rewrite (nth_indep _ 0 (bucket d)) by (rewrite length_map; exact Ha).
    apply map_nth. }
  split; [|split].
  - intros a b d Ha Hb Hab. rewrite (Hnth a d Ha), (Hnth b d Hb). unfold bucket.
    pose proof (palette_bucket_monotone n _ _ (Hmono _ _ Hab)) as Hm.
    pose proof (Hrange (nth a vertices d)). pose proof (Hrange (nth b vertices d)). lia.
  - intros a d Ha Hlow. rewrite (Hnth a d Ha). unfold bucket.
    rewrite palette_bucket_0; [reflexivity|exact Hn|].
    assert (E : (snd (nth a vertices d) - base == z_min)%Q).
    { apply Qle_antisym.
      - pose proof (np_min_in _ _ Hzmin) as Hin. simpl in Hin. rewrite app_nil_r in Hin.
        unfold z_coords_of in Hin. apply in_map_iff in Hin as (v & <- & Hv).
        specialize (Hlow v Hv). lra.
      - apply (np_min_le _ _ Hzmin). apply Hzin. apply nth_In. exact Ha. }
    unfold normalized_height. rewrite E. field. lra.
  - intros a d Ha Hhigh. rewrite (Hnth a d Ha). unfold bucket.
    rewrite palette_bucket_1; [lia|exact Hn|].
    assert (E : (snd (nth a vertices d) - base == z_max)%Q).
    { apply Qle_antisym.
      - apply (np_max_ge _ _ Hzmax). apply Hzin. apply nth_In. exact Ha.
      - pose proof (np_max_in _ _ Hzmax) as Hin. simpl in Hin. rewrite app_nil_r in Hin.
        unfold z_coords_of in Hin. apply in_map_iff in Hin as (v & <- & Hv).
        specialize (Hhigh v Hv). lra. }
    unfold normalized_height. rewrite E. field. lra.
Qed.

Lemma vertex_colors_follow_height_witness :
  exists idx : list nat,
    length idx = length [(0, 0, 5); (1, 0, 11); (0, 0, 0)]%Q /\
    _calculate_vertex_colors config_colors_on palette_rgb
      [(0, 0, 5); (1, 0, 11); (0, 0, 0)]%Q [[10; 40]]%Q =
      inr (map (fun k => nth k palette_rgb (0, 0, 0, 0)%Z) idx) /\
    (forall a b d, a < length [(0, 0, 5); (1, 0, 11); (0, 0, 0)]%Q ->
       b < length [(0, 0, 5); (1, 0, 11); (0, 0, 0)]%Q ->
       (snd (nth a [(0, 0, 5); (1, 0, 11); (0, 0, 0)]%Q d) <=
        snd (nth b [(0, 0, 5); (1, 0, 11); (0, 0, 0)]%Q d))%Q ->
       nth a idx 0 <= nth b idx 0 < length palette_rgb) /\
    (forall a d, a < length [(0, 0, 5); (1, 0, 11); (0, 0, 0)]%Q ->
       (forall v, In v [(0, 0, 5); (1, 0, 11); (0, 0, 0)]%Q ->
          (snd (nth a [(0, 0, 5); (1, 0, 11); (0, 0, 0)]%Q d) <= snd v)%Q) ->
       nth a idx 0 = 0) /\
    (forall a d, a < length [(0, 0, 5); (1, 0, 11); (0, 0, 0)]%Q ->
       (forall v, In v [(0, 0, 5); (1, 0, 11); (0, 0, 0)]%Q ->
          (snd v <= snd (nth a [(0, 0, 5); (1, 0, 11); (0, 0, 0)]%Q d))%Q) ->
       nth a idx 0 = length palette_rgb - 1).
Proof.
  apply (vertex_colors_follow_height config_colors_on palette_rgb
           [(0, 0, 5); (1, 0, 11); (0, 0, 0)]%Q [[10; 40]]%Q 10%Q 40%Q (-(5))%Q 6%Q);
    [discriminate|reflexivity|reflexivity|discriminate|reflexivity|reflexivity|
     discriminate].
Defined.

(** ** What [_calculate_vertex_colors] does without a palette or without
    vertices *)

Section VertexColorErrors.
Context {F : Type} `{Scalar F} `{RoundScalar F}.

Lemma result_map_first_raises {A B : Type} (g : A -> result B) (x : A) (xs : list A)
    (e : exn) :
  g x = inl e -> result_map g (x :: xs) = inl e.
Proof. intros Hx. simpl. rewrite Hx. reflexivity. Qed.

(** X15: over a non-empty elevation grid, an empty palette makes
    [_calculate_vertex_colors] raise [IndexError] as soon as there is a
    vertex to colour; with a palette and no vertex, a flat terrain gives the
    empty colour array and any other terrain raises the [ValueError] of
    [np.min] over an empty array. *)
Theorem vertex_colors_need_palette_and_vertices
    (config : Config F) (color_palette : list color)
    (vertices : list (F * F * F)) (elevation_grid : grid F) :
  nonempty elevation_grid ->
  exists min_elev max_elev,
    np_min elevation_grid = inr min_elev /\ np_max elevation_grid = inr max_elev /\
    (vertices <> [] ->
     exists msg,
       _calculate_vertex_colors config [] vertices elevation_grid =
       inl (IndexError msg)) /\
    (color_palette <> [] ->
     (feq (fsub max_elev min_elev) (of_Z 0) = true ->
      _calculate_vertex_colors config color_palette [] elevation_grid = inr []) /\
     (feq (fsub max_elev min_elev) (of_Z 0) = false ->
      exists msg,
        _calculate_vertex_colors config color_palette [] elevation_grid =
        inl (ValueError msg))).
Proof.
  intros Hg. pose proof (np_min_nonempty elevation_grid Hg) as Hmin.
  pose proof (np_max_nonempty elevation_grid Hg) as Hmax.
  eexists _, _. split; [exact Hmin|]. split; [exact Hmax|]. split.
  - intros Hv. unfold _calculate_vertex_colors. rewrite Hmin, Hmax. simpl bind.
    match goal with |- context [if ?c then _ else _] => destruct c end;
      [eexists; reflexivity|].
    destruct vertices as [|v vs]; [congruence|].
    unfold np_min, np_max. simpl concat. cbn [map app]. simpl bind.
    match goal with |- context [if ?c then _ else _] => destruct c end;
      [eexists; reflexivity|].
    eexists. cbn [map]. apply result_map_first_raises.
    unfold np_clip. cbn [length]. unfold py_getitem. cbn [length].
    match goal with |- context [Z.min ?a ?b] =>
      replace (Z.min a b) with (-1)%Z by lia end.
    reflexivity.
  - intros Hp. unfold _calculate_vertex_colors. rewrite Hmin, Hmax. simpl bind.
    split; intros ->.
    + destruct color_palette as [|c cs]; [congruence|]. reflexivity.
    + eexists. reflexivity.
Qed.
End VertexColorErrors.

Lemma vertex_colors_need_palette_and_vertices_witness :
  exists min_elev max_elev,
    np_min [[10; 40]]%Q = inr min_elev /\ np_max [[10; 40]]%Q = inr max_elev /\
    ([(0, 0, 5)]%Q <> [] ->
     exists msg,
       _calculate_vertex_colors config_colors_on [] [(0, 0, 5)]%Q [[10; 40]]%Q =
       inl (IndexError msg)) /\
    (palette_rgb <> [] ->
     (feq (fsub max_elev min_elev) (of_Z 0) = true ->
      _calculate_vertex_colors config_colors_on palette_rgb [] [[10; 40]]%Q = inr []) /\
     (feq (fsub max_elev min_elev) (of_Z 0) = false ->
      exists msg,
        _calculate_vertex_colors config_colors_on palette_rgb [] [[10; 40]]%Q =
        inl (ValueError msg))).
Proof.
  apply (vertex_colors_need_palette_and_vertices config_colors_on palette_rgb
           [(0, 0, 5)]%Q [[10; 40]]%Q).
  discriminate.
Defined.

(** ** Colour layers on the base layer ([simple_multicolor.py]) *)

Section LayersOnBase.
Context {F : Type} `{Scalar F}.

Lemma layer_inv_init (x_grid y_grid z_grid : grid F) (zones : list (zone F))
    (zone_idx : nat) (layer_thickness : F) :
  layer_inv x_grid y_grid z_grid zones zone_idx layer_thickness [] ([], ∅).
Proof.
  split; [reflexivity|]. split; [|split].
  - intros c. simpl. rewrite lookup_empty. split; [intros [x Hx]; discriminate|].
    intros [[] _].
  - intros i j v Hv. simpl in Hv. rewrite lookup_empty in Hv. discriminate.
  - intros c c' v Hv. simpl in Hv. rewrite lookup_empty in Hv. discriminate.
Qed.

(** X16: a colour layer rests on the surface of the base layer.  For a cell
    (i, j) of the layer, the bottom vertex of the cell in the layer is the
    vertex that the base layer, built by [_create_base_layer] from the same
    grids, has at index i * cols + j, and the top vertex is
    [layer_thickness] above it. *)
Theorem color_layer_rests_on_base
    (x_grid y_grid z_grid : grid F) (zones : list (zone F)) (zone_idx : nat)
    (layer_thickness : F) (rows cols : nat)
    (vertices : list (F * F * F)) (vertex_indices : gmap (nat * nat) nat)
    (i j v : nat) (d : F * F * F) :
  shape x_grid = (rows, cols) ->
  layer_vertices_loop x_grid y_grid z_grid zones zone_idx layer_thickness
    (cells rows cols) ([], ∅) = inr (vertices, vertex_indices) ->
  vertex_indices !! (i, j) = Some v ->
  exists x y z,
    nth (i * cols + j)
        (fst (_add_base rows cols (_create_surface_mesh x_grid y_grid z_grid))) d
      = (x, y, z) /\
    nth (v + 1) vertices d = (x, y, z) /\
    nth v vertices d = (x, y, fadd z layer_thickness).
Proof.
  intros Hs Hloop Hv.
  destruct (layer_vertices_loop_inv x_grid y_grid z_grid zones zone_idx layer_thickness
              (cells rows cols) [] ([], ∅) (vertices, vertex_indices)
              (NoDup_cells rows cols) (fun c _ Hin => Hin)
              (layer_inv_init _ _ _ _ _ _) Hloop) as (_ & Hdom & Hent & _).
  simpl in Hdom, Hent.
  assert (Hij : i < rows /\ j < cols).
  { apply in_cells. apply (Hdom (i, j)). rewrite Hv. eexists; reflexivity. }
  destruct Hij as [Hi Hj]. destruct (Hent i j v Hv) as (_ & _ & Hnth).
  destruct (Hnth d) as [Htop Hbot].
  exists (gget x_grid i j), (gget y_grid i j), (gget z_grid i j).
  split; [|split; assumption].
  pose proof (create_surface_mesh_vertices x_grid y_grid z_grid) as Hlen.
  rewrite Hs in Hlen. cbn [fst snd] in Hlen.
  pose proof (create_surface_mesh_nth x_grid y_grid z_grid rows cols i j d Hs Hi Hj)
    as Hcell.
  destruct (_create_surface_mesh x_grid y_grid z_grid) as [sv sf].
  cbn [fst] in Hlen, Hcell. unfold vertex in *.
  pose proof (add_base_surface_vertex rows cols sv sf (i * cols + j) d) as Hsv.
  unfold vertex in *. rewrite Hsv; [exact Hcell|].
  rewrite Hlen. apply cell_index_lt; assumption.
Qed.
End LayersOnBase.

Lemma color_layer_rests_on_base_witness :
  exists x y z,
    nth (1 * 2 + 0)
        (fst (_add_base 2 2 (_create_surface_mesh x_grid_2x2 y_grid_2x2 elevation_steps)))
        (0, 0, 0)%Q = (x, y, z) /\
    nth (2 + 1)
        [(1, 0, 32); (1, 0, 30); (0, 1, 62); (0, 1, 60); (1, 1, 92); (1, 1, 90)]%Q
        (0, 0, 0)%Q = (x, y, z) /\
    nth 2 [(1, 0, 32); (1, 0, 30); (0, 1, 62); (0, 1, 60); (1, 1, 92); (1, 1, 90)]%Q
        (0, 0, 0)%Q = (x, y, fadd z 2%Q).
Proof.
  apply (color_layer_rests_on_base x_grid_2x2 y_grid_2x2 elevation_steps zones_0_100 2
           2%Q 2 2
           [(1, 0, 32); (1, 0, 30); (0, 1, 62); (0, 1, 60); (1, 1, 92); (1, 1, 90)]%Q
           (<[(1, 1) := 4]> (<[(1, 0) := 2]> (<[(0, 1) := 0]> ∅))) 1 0 2 (0, 0, 0)%Q);
    [reflexivity|vm_compute; reflexivity|reflexivity].
Defined.

(** ** The default palette ([colored_export.py]) *)

Section Palette.
Context {F : Type} `{Scalar F} `{RoundScalar F}.

(** [_generate_elevation_colors], the body of the loop: the colour at
    [ratio] of the way from blue over green and yellow to red.  The literals
    0.33, 0.66 and 0.34 are the quotients 33/100, 66/100 and 34/100. *)
Definition elevation_color_at (ratio : F) : color :=
  let c033 := fdiv (of_Z 33) (of_Z 100) in
  let c066 := fdiv (of_Z 66) (of_Z 100) in
  let c034 := fdiv (of_Z 34) (of_Z 100) in
  if flt ratio c033 then
    (trunc_int (fmul (of_Z 0) (fsub (of_Z 1) (fdiv ratio c033))),
     trunc_int (fmul (of_Z 255) (fdiv ratio c033)),
     trunc_int (fmul (of_Z 255) (fsub (of_Z 1) (fdiv ratio c033))),
     255%Z)
  else if flt ratio c066 then
    (trunc_int (fmul (of_Z 255) (fdiv (fsub ratio c033) c033)), 255%Z, 0%Z, 255%Z)
  else
    (255%Z,
     trunc_int (fmul (of_Z 255) (fsub (of_Z 1) (fdiv (fsub ratio c066) c034))),
     0%Z, 255%Z).

(** [_generate_elevation_colors]. *)
Definition _generate_elevation_colors (config : Config F) : list color :=
  let num_colors := num_colors (colors (terrain config)) in
  map (fun i =>
         let ratio :=
           if (1 <? num_colors)%Z then fdiv (of_Z i) (of_Z (num_colors - 1))
           else of_Z 0 in
         elevation_color_at ratio)
      (py_range num_colors).
End Palette.

Definition red (c : color) : Z := fst (fst (fst c)).
Definition green (c : color) : Z := snd (fst (fst c)).
Definition blue (c : color) : Z := snd (fst c).
Definition alpha (c : color) : Z := snd c.

Lemma Qtrunc_Z (z : Z) : Qtrunc (inject_Z z) = z.
Proof.
  unfold Qtrunc. destruct (Qle_bool 0 (inject_Z z)).
  - apply Qfloor_Z.
  - apply Qceiling_Z.
Qed.

Lemma Qtrunc_monotone (a b : Q) : (a <= b)%Q -> (Qtrunc a <= Qtrunc b)%Z.
Proof.
  intros Hab. unfold Qtrunc.
  destruct (Qle_bool 0 a) eqn:Ha; destruct (Qle_bool 0 b) eqn:Hb.
  - apply Qfloor_resp_le. exact Hab.
  - apply Qle_bool_iff in Ha.
    assert (Hc : (0 <= b)%Q) by lra. apply Qle_bool_iff in Hc. congruence.
  - apply Qle_bool_iff in Hb.
    assert (Hneg : (a <= 0)%Q).
    { destruct (Qlt_le_dec 0 a) as [Hp|Hn]; [|exact Hn].
      apply Qlt_le_weak, Qle_bool_iff in Hp. congruence. }
    pose proof (Qceiling_resp_le _ _ Hneg) as H1.
    pose proof (Qfloor_resp_le _ _ Hb) as H2.
    change 0%Q with (inject_Z 0) in H1, H2.
    rewrite Qceiling_Z in H1. rewrite Qfloor_Z in H2. lia.
  - apply Qceiling_resp_le. exact Hab.
Qed.

Lemma Qtrunc_between (lo hi : Z) (q : Q) :
  (inject_Z lo <= q)%Q -> (q <= inject_Z hi)%Q -> (lo <= Qtrunc q <= hi)%Z.
Proof.
  intros Hlo Hhi. pose proof (Qtrunc_monotone _ _ Hlo) as H1.
  pose proof (Qtrunc_monotone _ _ Hhi) as H2. rewrite Qtrunc_Z in H1, H2. lia.
Qed.

(** The three branches of [elevation_color_at] over the rationals. *)
Lemma elevation_color_at_cases (ratio : Q) :
  ((ratio < 33 # 100)%Q /\
   elevation_color_at ratio =
     (Qtrunc (0 * (1 - ratio / (inject_Z 33 / inject_Z 100))),
      Qtrunc (255 * (ratio / (inject_Z 33 / inject_Z 100))),
      Qtrunc (255 * (1 - ratio / (inject_Z 33 / inject_Z 100))), 255%Z)) \/
  ((33 # 100 <= ratio)%Q /\ (ratio < 66 # 100)%Q /\
   elevation_color_at ratio =
     (Qtrunc (255 * ((ratio - inject_Z 33 / inject_Z 100) /
                     (inject_Z 33 / inject_Z 100))), 255%Z, 0%Z, 255%Z)) \/
  ((66 # 100 <= ratio)%Q /\
   elevation_color_at ratio =
     (255%Z,
      Qtrunc (255 * (1 - (ratio - inject_Z 66 / inject_Z 100) /
                         (inject_Z 34 / inject_Z 100))), 0%Z, 255%Z)).
Proof.
  unfold elevation_color_at.
  assert (E33 : (inject_Z 33 / inject_Z 100 == 33 # 100)%Q) by reflexivity.
  assert (E66 : (inject_Z 66 / inject_Z 100 == 66 # 100)%Q) by reflexivity.
  destruct (flt ratio (fdiv (of_Z 33) (of_Z 100))) eqn:H1.
  - left. apply Q_flt_iff in H1. cbn [fdiv of_Z Q_scalar] in H1. rewrite E33 in H1.
    split; [exact H1|reflexivity].
  - right. apply Q_flt_false_iff in H1. cbn [fdiv of_Z Q_scalar] in H1. rewrite E33 in H1.
    destruct (flt ratio (fdiv (of_Z 66) (of_Z 100))) eqn:H2.
    + left. apply Q_flt_iff in H2. cbn [fdiv of_Z Q_scalar] in H2. rewrite E66 in H2.
      split; [exact H1|]. split; [exact H2|reflexivity].
    + right. apply Q_flt_false_iff in H2. cbn [fdiv of_Z Q_scalar] in H2.
      rewrite E66 in H2. split; [exact H2|reflexivity].
Qed.

Lemma scaled_third (ratio : Q) :
  (ratio / (inject_Z 33 / inject_Z 100) == ratio * (100 # 33))%Q.
Proof. field. Qed.

Lemma scaled_middle (ratio : Q) :
  ((ratio - inject_Z 33 / inject_Z 100) / (inject_Z 33 / inject_Z 100) ==
   (ratio - (33 # 100)) * (100 # 33))%Q.
Proof. field. Qed.

Lemma scaled_last (ratio : Q) :
  ((ratio - inject_Z 66 / inject_Z 100) / (inject_Z 34 / inject_Z 100) ==
   (ratio - (66 # 100)) * (100 # 34))%Q.
Proof. field. Qed.

Lemma elevation_color_at_range (ratio : Q) :
  (0 <= ratio)%Q -> (ratio <= 1)%Q ->
  (0 <= red (elevation_color_at ratio) <= 255)%Z /\
  (0 <= green (elevation_color_at ratio) <= 255)%Z /\
  (0 <= blue (elevation_color_at ratio) <= 255)%Z /\
  alpha (elevation_color_at ratio) = 255%Z.
Proof.
  intros H0 H1.
  destruct (elevation_color_at_cases ratio) as [(Ha & ->)|[(Ha & Hb & ->)|(Ha & ->)]];
    unfold red, green, blue, alpha; cbn [fst snd].
  - pose proof (scaled_third ratio) as E.
    split; [|split; [|split]]; [..|reflexivity];
      (apply Qtrunc_between; rewrite ?E;
       change (inject_Z 0) with 0%Q; change (inject_Z 255) with 255%Q; lra).
  - pose proof (scaled_middle ratio) as E.
    split; [|split; [|split]]; [|lia|lia|reflexivity].
    apply Qtrunc_between; rewrite ?E;
      change (inject_Z 0) with 0%Q; change (inject_Z 255) with 255%Q; lra.
  - pose proof (scaled_last ratio) as E.
    split; [|split; [|split]]; [lia| |lia|reflexivity].
    apply Qtrunc_between; rewrite ?E;
      change (inject_Z 0) with 0%Q; change (inject_Z 255) with 255%Q; lra.
Qed.

Lemma Qtrunc_0_mult (x : Q) : Qtrunc (0 * x) = 0%Z.
Proof.
  assert (E : (0 * x == inject_Z 0)%Q) by (simpl; ring).
  destruct (Qtrunc_between 0 0 (0 * x)); [rewrite E; apply Qle_refl..|lia].
Qed.

Lemma elevation_color_at_monotone (a b : Q) :
  (0 <= a)%Q -> (a <= b)%Q -> (b <= 1)%Q ->
  (red (elevation_color_at a) <= red (elevation_color_at b))%Z /\
  (blue (elevation_color_at b) <= blue (elevation_color_at a))%Z.
Proof.
  intros H0 Hab H1.
  pose proof (elevation_color_at_range a H0 ltac:(lra)) as (Ra & _ & Ba & _).
  pose proof (elevation_color_at_range b ltac:(lra) H1) as (Rb & _ & Bb & _).
  destruct (elevation_color_at_cases a) as [(Ha & Ea)|[(Ha & Ha' & Ea)|(Ha & Ea)]];
    destruct (elevation_color_at_cases b) as [(Hb & Eb)|[(Hb & Hb' & Eb)|(Hb & Eb)]];
    try lra; rewrite Ea, Eb in *; unfold red, blue in *; cbn [fst snd] in *;
    rewrite ?Qtrunc_0_mult in *; try (split; lia).
  - split; [lia|]. apply Qtrunc_monotone. rewrite !scaled_third. lra.
  - split; [|lia]. apply Qtrunc_monotone. rewrite !scaled_middle. lra.
Qed.

Lemma Qtrunc_eq (q : Q) (z : Z) : (q == inject_Z z)%Q -> Qtrunc q = z.
Proof.
  intros E. destruct (Qtrunc_between z z q); [rewrite E; apply Qle_refl..|lia].
Qed.

Lemma elevation_color_at_0 (ratio : Q) :
  (ratio == 0)%Q -> elevation_color_at ratio = (0, 0, 255, 255)%Z.
Proof.
  intros E.
  destruct (elevation_color_at_cases ratio) as [(_ & ->)|[(Ha & _)|(Ha & _)]];
    [|lra|lra].
  rewrite Qtrunc_0_mult.
  rewrite (Qtrunc_eq _ 0) by (rewrite scaled_third, E; reflexivity).
  rewrite (Qtrunc_eq _ 255) by (rewrite scaled_third, E; reflexivity).
  reflexivity.
Qed.

Lemma elevation_color_at_1 (ratio : Q) :
  (ratio == 1)%Q -> elevation_color_at ratio = (255, 0, 0, 255)%Z.
Proof.
  intros E.
  destruct (elevation_color_at_cases ratio) as [(Ha & _)|[(_ & Ha & _)|(_ & ->)]];
    [lra|lra|].
  rewrite (Qtrunc_eq _ 0) by (rewrite scaled_last, E; reflexivity).
  reflexivity.
Qed.

(** X17: for [num_colors >= 1] the default palette has [num_colors]
    colours, each with channels between 0 and 255 and alpha 255.  It starts
    with blue and, with two colours or more, ends with red; along the palette
    the red channel never decreases and the blue channel never increases. *)
Theorem default_palette_runs_from_blue_to_red (config : Config Q) (d : color) :
  (1 <= num_colors (colors (terrain config)))%Z ->
  let palette := _generate_elevation_colors config in
  let n := Z.to_nat (num_colors (colors (terrain config))) in
  length palette = n /\
  (forall c, In c palette ->
     (0 <= red c <= 255)%Z /\ (0 <= green c <= 255)%Z /\ (0 <= blue c <= 255)%Z /\
     alpha c = 255%Z) /\
  nth 0 palette d = (0, 0, 255, 255)%Z /\
  (2 <= n -> nth (n - 1) palette d = (255, 0, 0, 255)%Z) /\
  (forall i j, i <= j -> j < n ->
     (red (nth i palette d) <= red (nth j palette d))%Z /\
     (blue (nth j palette d) <= blue (nth i palette d))%Z).
Proof.
  intros Hn palette n. unfold palette, _generate_elevation_colors.
  set (N := num_colors (colors (terrain config))) in *.
  set (ratio := fun i : Z =>
         (if (1 <? N)%Z then fdiv (of_Z i) (of_Z (N - 1)) else of_Z 0) : Q).
  change (map _ (py_range N))
    with (map (fun i => elevation_color_at (ratio i)) (py_range N)).
  assert (Hratio : forall i, i < n -> (0 <= ratio (Z.of_nat i) <= 1)%Q).
  { intros i Hi. unfold ratio. destruct (Z.ltb_spec 1 N) as [H1|H1].
    - cbn [fdiv of_Z Q_scalar].
      assert (Hd : (0 < inject_Z (N - 1))%Q)
        by (change 0%Q with (inject_Z 0); rewrite <- Zlt_Qlt; lia).
      split.
      + apply Qle_shift_div_l; [exact Hd|]. rewrite Qmult_0_l.
        change 0%Q with (inject_Z 0). rewrite <- Zle_Qle. lia.
      + apply Qle_shift_div_r; [exact Hd|]. rewrite Qmult_1_l.
        rewrite <- Zle_Qle. lia.
    - cbn [of_Z Q_scalar]. change (inject_Z 0) with 0%Q. lra. }
  assert (Hmono : forall i j, i <= j -> j < n ->
            (ratio (Z.of_nat i) <= ratio (Z.of_nat j))%Q).
  { intros i j Hij Hj. unfold ratio. destruct (Z.ltb_spec 1 N) as [H1|H1].
    - cbn [fdiv of_Z Q_scalar]. unfold Qdiv. apply Qmult_le_compat_r.
      + rewrite <- Zle_Qle. lia.
      + apply Qlt_le_weak, Qinv_lt_0_compat.
        change 0%Q with (inject_Z 0). rewrite <- Zlt_Qlt. lia.
    - apply Qle_refl. }
  assert (Hnth : forall i, i < n ->
            nth i (map (fun i => elevation_color_at (ratio i)) (py_range N)) d =
            elevation_color_at (ratio (Z.of_nat i))).
  { intros i Hi. apply (nth_py_range (fun i => elevation_color_at (ratio i))). exact Hi. }
  split; [rewrite length_map; apply length_py_range|]. split; [|split; [|split]].
  - intros c Hc. apply in_map_iff in Hc as (i & <- & Hi).
    unfold py_range in Hi. apply in_map_iff in Hi as (k & <- & Hk). apply in_seq in Hk.
    destruct (Hratio k ltac:(unfold n; lia)) as [H0 H1].
    apply elevation_color_at_range; assumption.
  - rewrite Hnth by (unfold n; lia). apply elevation_color_at_0. unfold ratio.
    destruct (1 <? N)%Z; [|reflexivity].
    cbn [fdiv of_Z Q_scalar]. unfold Qdiv. change (inject_Z (Z.of_nat 0)) with 0%Q.
    apply Qmult_0_l.
  - intros H2. rewrite Hnth by lia. apply elevation_color_at_1. unfold ratio.
    destruct (Z.ltb_spec 1 N) as [H1|H1]; [|lia].
    replace (Z.of_nat (n - 1)) with (N - 1)%Z by lia.
    cbn [fdiv of_Z Q_scalar]. field. intros Hc.
    assert (Hd : (0 < inject_Z (N - 1))%Q)
      by (change 0%Q with (inject_Z 0); rewrite <- Zlt_Qlt; lia).
    lra.
  - intros i j Hij Hj. rewrite (Hnth i) by lia. rewrite (Hnth j) by lia.
    destruct (Hratio i ltac:(lia)) as [H0 _]. destruct (Hratio j Hj) as [_ H1].
    apply elevation_color_at_monotone; [exact H0|apply Hmono; assumption|exact H1].
Qed.

Lemma default_palette_runs_from_blue_to_red_witness :
  let palette := _generate_elevation_colors config_three_colors in
  let n := Z.to_nat (num_colors (colors (terrain config_three_colors))) in
  length palette = n /\
  (forall c, In c palette ->
     (0 <= red c <= 255)%Z /\ (0 <= green c <= 255)%Z /\ (0 <= blue c <= 255)%Z /\
     alpha c = 255%Z) /\
  nth 0 palette (0, 0, 0, 0)%Z = (0, 0, 255, 255)%Z /\
  (2 <= n -> nth (n - 1) palette (0, 0, 0, 0)%Z = (255, 0, 0, 255)%Z) /\
  (forall i j, i <= j -> j < n ->
     (red (nth i palette (0, 0, 0, 0)%Z) <= red (nth j palette (0, 0, 0, 0)%Z))%Z /\
     (blue (nth j palette (0, 0, 0, 0)%Z) <= blue (nth i palette (0, 0, 0, 0)%Z))%Z).
Proof.
  apply (default_palette_runs_from_blue_to_red config_three_colors (0, 0, 0, 0)%Z).
  simpl. lia.
Defined.

(** The default palettes of one to four colours. *)
Example default_palettes :
  map (fun n => _generate_elevation_colors (example_config true n false true 2%Q 2%Q))
      [1; 2; 3; 4]%Z =
  [[(0, 0, 255, 255)];
   [(0, 0, 255, 255); (255, 0, 0, 255)];
   [(0, 0, 255, 255); (131, 255, 0, 255); (255, 0, 0, 255)];
   [(0, 0, 255, 255); (2, 255, 0, 255); (255, 250, 0, 255); (255, 0, 0, 255)]]%Z.
Proof. vm_compute. reflexivity. Qed.

(** ** The palette of named colours ([colored_export.py]) *)

(** [color_map] of [_get_color_palette]. *)
Definition color_map : gmap string color :=
  list_to_map
    [("red", (255, 0, 0, 255)); ("green", (0, 255, 0, 255)); ("blue", (0, 0, 255, 255));
     ("yellow", (255, 255, 0, 255)); ("orange", (255, 165, 0, 255));
     ("purple", (128, 0, 128, 255)); ("cyan", (0, 255, 255, 255));
     ("magenta", (255, 0, 255, 255)); ("brown", (139, 69, 19, 255));
     ("pink", (255, 192, 203, 255)); ("navy", (0, 0, 128, 255));
     ("dark", (64, 64, 64, 255)); ("light", (192, 192, 192, 255));
     ("white", (255, 255, 255, 255)); ("black", (0, 0, 0, 255))]%Z.

Section NamedPalette.
Context {F : Type} `{Scalar F} `{RoundScalar F}.

(** [colorsys.hsv_to_rgb] of the Python standard library, which the
    repository only calls. *)
Variable colorsys_hsv_to_rgb : F -> F -> F -> F * F * F.

(** [_hsv_to_rgb]. *)
Definition _hsv_to_rgb (h s v : F) : color :=
  let '(r, g, b) := colorsys_hsv_to_rgb (fdiv h (of_Z 360)) s v in
  (trunc_int (fmul r (of_Z 255)), trunc_int (fmul g (of_Z 255)),
   trunc_int (fmul b (of_Z 255)), 255%Z).

(** [_generate_color]: the hue turns by 60 degrees per index. *)
Definition _generate_color (index : nat) : color :=
  let hue := ((Z.of_nat index * 60) mod 360)%Z in
  _hsv_to_rgb (of_Z hue) (of_Z 1) (of_Z 1).

(** [_get_color_palette], the body of the loop over the names. *)
Definition palette_step (colors : list color) (color_name : string) : list color :=
  let color_name_lower := str_lower color_name in
  match color_map !! color_name_lower with
  | Some c => colors ++ [c]
  | None => colors ++ [_generate_color (length colors)]
  end.

(** [_get_color_palette]: a missing or empty list of names is falsy. *)
Definition _get_color_palette (config : Config F) : list color :=
  match color_names (colors (terrain config)) with
  | Some (name :: names) => fold_left palette_step (name :: names) []
  | Some [] | None => _generate_elevation_colors config
  end.

(** The colour of the name at position [k]. *)
Definition named_color (k : nat) (color_name : string) : color :=
  match color_map !! str_lower color_name with
  | Some c => c
  | None => _generate_color k
  end.

Lemma palette_fold (names : list string) :
  forall (acc : list color) (d : color),
  length (fold_left palette_step names acc) = length acc + length names /\
  (forall k, k < length acc -> nth k (fold_left palette_step names acc) d = nth k acc d) /\
  (forall k, k < length names ->
     nth (length acc + k) (fold_left palette_step names acc) d =
     named_color (length acc + k) (nth k names "")).
Proof.
  induction names as [|name names IH]; intros acc d; simpl fold_left.
  - split; [simpl; lia|]. split; [reflexivity|]. intros k Hk. simpl in Hk. lia.
  - destruct (IH (palette_step acc name) d) as (Hlen & Hold & Hnew).
    assert (Hstep : palette_step acc name = acc ++ [named_color (length acc) name]).
    { unfold palette_step, named_color.
      destruct (color_map !! str_lower name); reflexivity. }
    rewrite Hstep in *. rewrite length_app in *. simpl length in *.
    split; [lia|]. split.
    + intros k Hk. rewrite Hold by lia. apply app_nth1. exact Hk.
    + intros [|k] Hk.
      * rewrite Nat.add_0_r, Hold by lia. rewrite app_nth2 by lia.
        rewrite Nat.sub_diag. reflexivity.
      * replace (length acc + S k) with (length acc + 1 + k) by lia.
        rewrite Hnew by lia. reflexivity.
Qed.

(** X18: with a non-empty list of colour names, all of ASCII characters, the
    palette has one colour per name, whatever [num_colors] says: the colour
    of [color_map] for a name that, in lower case, is one of its keys, and
    otherwise the generated colour of the name's position. *)
Theorem palette_follows_the_names (config : Config F) (names : list string) (d : color) :
  color_names (colors (terrain config)) = Some names -> names <> [] ->
  forallb ascii_only names = true ->
  length (_get_color_palette config) = length names /\
  forall k, k < length names ->
    nth k (_get_color_palette config) d = named_color k (nth k names "").
Proof.
  intros Hnames Hne _. unfold _get_color_palette. rewrite Hnames.
  destruct names as [|name names]; [congruence|].
  destruct (palette_fold (name :: names) [] d) as (Hlen & _ & Hnew).
  split; [exact Hlen|]. intros k Hk. exact (Hnew k Hk).
Qed.

(** Without names, or with an empty list of names, the palette is the
    default gradient. *)
Lemma palette_without_names (config : Config F) :
  color_names (colors (terrain config)) = None \/
  color_names (colors (terrain config)) = Some [] ->
  _get_color_palette config = _generate_elevation_colors config.
Proof. intros [E|E]; unfold _get_color_palette; rewrite E; reflexivity. Qed.
End NamedPalette.

(** Six colours asked for, three names given: a key of [color_map] in
    capitals, an unknown name and another key. *)
Definition config_three_names : Config Q :=
  {| location := location config_three_colors;
     output := output config_three_colors;
     terrain :=
       {| resolution_meters := resolution_meters (terrain config_three_colors);
          vertical_exaggeration := 2%Q;
          base_thickness_mm := 2%Q;
          height_stepping := height_stepping (terrain config_three_colors);
          colors :=
            {| colors_enabled := true;
               num_colors := 6;
               color_mode := "elevation";
               color_names := Some ["Navy"; "teal"; "white"];
               layer_thickness_mm := 2%Q |} |} |}.

(** A stand-in for [colorsys.hsv_to_rgb] that answers pure red. *)
Definition hsv_always_red (h s v : Q) : Q * Q * Q := (1, 0, 0)%Q.

Lemma palette_follows_the_names_witness :
  length (_get_color_palette hsv_always_red config_three_names) =
    length ["Navy"; "teal"; "white"] /\
  forall k, k < length ["Navy"; "teal"; "white"] ->
    nth k (_get_color_palette hsv_always_red config_three_names) (0, 0, 0, 0)%Z =
    named_color hsv_always_red k (nth k ["Navy"; "teal"; "white"] "").
Proof.
  apply (palette_follows_the_names hsv_always_red config_three_names
           ["Navy"; "teal"; "white"] (0, 0, 0, 0)%Z);
    [reflexivity|discriminate|reflexivity].
Defined.

(** The unknown name gets the generated colour of position 1. *)
Example palette_of_three_names (hsv : Q -> Q -> Q -> Q * Q * Q) :
  _get_color_palette hsv config_three_names =
  [(0, 0, 128, 255)%Z; _generate_color hsv 1; (255, 255, 255, 255)%Z].
Proof. reflexivity. Qed.

(** ** Smooth height stepping ([multicolor.py]) *)

(** Level [k] of [n] equal intervals between the extrema. *)
Definition step_level (min_elev max_elev : Q) (n k : Z) : Q :=
  (min_elev + inject_Z k * ((max_elev - min_elev) / inject_Z n))%Q.

(** What the smooth branch does to one elevation [e], with [n] intervals:
    the maximum stays, every lower elevation goes to the middle of the
    interval between two levels that holds it. *)
Definition smooth_step (min_elev max_elev : Q) (n : Z) (e o : Q) : Prop :=
  (n = 0%Z -> o = e) /\
  ((1 <= n)%Z -> (max_elev <= e)%Q -> o = e) /\
  ((1 <= n)%Z -> (e < max_elev)%Q ->
   exists k, (0 <= k < n)%Z /\
     (step_level min_elev max_elev n k <= e)%Q /\
     (e < step_level min_elev max_elev n (k + 1))%Q /\
     (o == (step_level min_elev max_elev n k +
            step_level min_elev max_elev n (k + 1)) / 2)%Q).

Lemma fold_pick_none {A} (c : nat -> bool) (m : nat -> A) (l : list nat) (v : A) :
  (forall i, In i l -> c i = false) ->
  fold_left (fun v i => if c i then m i else v) l v = v.
Proof.
  revert v. induction l as [|a l IH]; intros v Hc; simpl; [reflexivity|].
  rewrite (Hc a) by (left; reflexivity). apply IH. intros i Hi. apply Hc. right. exact Hi.
Qed.

Lemma fold_pick_one {A} (c : nat -> bool) (m : nat -> A) (l : list nat) (v : A) (k : nat) :
  In k l -> c k = true -> (forall i, In i l -> c i = true -> i = k) ->
  fold_left (fun v i => if c i then m i else v) l v = m k.
Proof.
  revert v. induction l as [|a l IH]; intros v Hk Hck Huniq; [destruct Hk|].
  simpl. destruct (c a) eqn:Hca.
  - assert (a = k) by (apply Huniq; [left; reflexivity|exact Hca]). subst a.
    destruct (in_dec Nat.eq_dec k l) as [Hin|Hout].
    + apply IH; [exact Hin|exact Hck|]. intros i Hi. apply Huniq. right. exact Hi.
    + apply fold_pick_none. intros i Hi. destruct (c i) eqn:Hci; [|reflexivity].
      exfalso. apply Hout. rewrite <- (Huniq i (or_intror Hi) Hci). exact Hi.
  - destruct Hk as [->|Hk]; [congruence|].
    apply IH; [exact Hk|exact Hck|]. intros i Hi. apply Huniq. right. exact Hi.
Qed.

Lemma linspace_length (start stop : Q) (n : Z) :
  (0 <= n)%Z ->
  exists step_levels,
    np_linspace start stop (n + 1) = inr step_levels /\
    length step_levels = S (Z.to_nat n).
Proof.
  intros Hn. unfold np_linspace. destruct (Z.ltb_spec (n + 1) 0) as [Hneg|_]; [lia|].
  eexists. split; [reflexivity|]. rewrite length_map, length_py_range. lia.
Qed.

Section SmoothLevels.
Variables (min_elev max_elev : Q) (n : Z).
Hypothesis Hn : (1 <= n)%Z.
Hypothesis Hrange : (min_elev < max_elev)%Q.

Let h : Q := ((max_elev - min_elev) / inject_Z n)%Q.

Lemma inject_n_pos : (0 < inject_Z n)%Q.
Proof. change 0%Q with (inject_Z 0). rewrite <- Zlt_Qlt. lia. Qed.

Lemma level_spacing_pos : (0 < h)%Q.
Proof. unfold h. apply Qlt_shift_div_l; [apply inject_n_pos|]. lra. Qed.

Lemma step_level_monotone (a b : Z) :
  (a <= b)%Z -> (step_level min_elev max_elev n a <= step_level min_elev max_elev n b)%Q.
Proof.
  intros Hab. unfold step_level. fold h.
  assert (Hq : (inject_Z a * h <= inject_Z b * h)%Q).
  { apply Qmult_le_compat_r; [rewrite <- Zle_Qle; exact Hab|].
    apply Qlt_le_weak, level_spacing_pos. }
  lra.
Qed.

Lemma step_level_last : (step_level min_elev max_elev n n == max_elev)%Q.
Proof.
  unfold step_level. field. pose proof inject_n_pos. lra.
Qed.

Lemma step_level_next (k : Z) :
  (step_level min_elev max_elev n (k + 1) == step_level min_elev max_elev n k + h)%Q.
Proof. unfold step_level. fold h. rewrite inject_Z_plus. change (inject_Z 1) with 1%Q. ring. Qed.

(** The levels of [np.linspace(min_elev, max_elev, n + 1)]. *)
Lemma linspace_levels :
  exists step_levels,
    np_linspace min_elev max_elev (n + 1) = inr step_levels /\
    length step_levels = S (Z.to_nat n) /\
    forall i, i <= Z.to_nat n ->
      (nth i step_levels 0 == step_level min_elev max_elev n (Z.of_nat i))%Q.
Proof.
  unfold np_linspace. destruct (Z.ltb_spec (n + 1) 0) as [Hneg|_]; [lia|].
  eexists. split; [reflexivity|]. split.
  - rewrite length_map, length_py_range. lia.
  - intros i Hi.
    rewrite (nth_py_range _ (n + 1) i) by lia.
    replace (n + 1 - 1)%Z with n by lia.
    destruct (Z.ltb_spec 1 (n + 1)) as [_|Hc]; [|lia]. cbn [andb].
    destruct (Z.eqb_spec (Z.of_nat i) n) as [E|_].
    + rewrite E. symmetry. apply step_level_last.
    + reflexivity.
Qed.

(** An elevation below the maximum lies in exactly one interval. *)
Lemma interval_of_elevation (e : Q) :
  (min_elev <= e)%Q -> (e < max_elev)%Q ->
  exists k, (0 <= k < n)%Z /\
    (step_level min_elev max_elev n k <= e)%Q /\
    (e < step_level min_elev max_elev n (k + 1))%Q.
Proof.
  intros Hlo Hhi. pose proof level_spacing_pos as Hh.
  set (q := ((e - min_elev) / h)%Q).
  assert (Eq : (q * h == e - min_elev)%Q) by (unfold q; field; lra).
  assert (Hq0 : (0 <= q)%Q) by (unfold q; apply Qle_shift_div_l; [exact Hh|lra]).
  pose proof (Qfloor_le q) as Hf1. pose proof (Qlt_floor q) as Hf2.
  assert (Hk0 : (0 <= Qfloor q)%Z).
  { pose proof (Qfloor_resp_le _ _ Hq0) as Hm. change 0%Q with (inject_Z 0) in Hm.
    rewrite Qfloor_Z in Hm. exact Hm. }
  assert (H1 : (inject_Z (Qfloor q) * h <= q * h)%Q)
    by (apply Qmult_le_compat_r; [exact Hf1|lra]).
  assert (H2 : (q * h < inject_Z (Qfloor q + 1) * h)%Q)
    by (apply Qmult_lt_compat_r; [exact Hh|exact Hf2]).
  exists (Qfloor q). split; [|split].
  - split; [exact Hk0|].
    destruct (Z.lt_ge_cases (Qfloor q) n) as [Hlt|Hge]; [exact Hlt|exfalso].
    pose proof (step_level_monotone n (Qfloor q) Hge) as Hm.
    rewrite step_level_last in Hm. unfold step_level in Hm. fold h in Hm. lra.
  - unfold step_level. fold h. lra.
  - unfold step_level. fold h. lra.
Qed.
End SmoothLevels.

(** X19: the smooth branch of [_apply_height_stepping], in exact
    arithmetic with a positive step.  With n = int((max - min) / step)
    intervals between n + 1 evenly spaced levels from the minimum to the
    maximum, the maximum of the grid is kept and every lower elevation is
    replaced by the middle of the interval that holds it; with n = 0 the grid
    is returned unchanged. *)
Theorem smooth_stepping_goes_to_interval_middles
    (config : Config Q) (elevation_grid : grid Q) (min_elev max_elev : Q) :
  smooth_transitions (height_stepping (terrain config)) = true ->
  (0 < step_height_mm (height_stepping (terrain config)) /
       vertical_exaggeration (terrain config))%Q ->
  np_min elevation_grid = inr min_elev ->
  np_max elevation_grid = inr max_elev ->
  exists stepped,
    _apply_height_stepping config elevation_grid = inr stepped /\
    Forall2 (Forall2 (smooth_step min_elev max_elev
                        (Qtrunc ((max_elev - min_elev) /
                                 (step_height_mm (height_stepping (terrain config)) /
                                  vertical_exaggeration (terrain config))))))
            elevation_grid stepped.
Proof.
  intros Hsmooth Hstep Hmin Hmax.
  set (step := (step_height_mm (height_stepping (terrain config)) /
                vertical_exaggeration (terrain config))%Q) in *.
  set (n := Qtrunc ((max_elev - min_elev) / step)).
  assert (Hle : (min_elev <= max_elev)%Q)
    by exact (np_max_ge _ _ Hmax _ (np_min_in _ _ Hmin)).
  assert (Hq0 : (0 <= (max_elev - min_elev) / step)%Q)
    by (apply Qle_shift_div_l; [exact Hstep|lra]).
  assert (Hn0 : (0 <= n)%Z).
  { pose proof (Qtrunc_monotone _ _ Hq0) as Hm. change 0%Q with (inject_Z 0) in Hm.
    rewrite Qtrunc_Z in Hm. exact Hm. }
  assert (Hunfold : forall step_levels,
            np_linspace min_elev max_elev (n + 1) = inr step_levels ->
            _apply_height_stepping config elevation_grid =
            inr (grid_map (smooth_value step_levels) elevation_grid)).
  { intros sl Hsl. unfold _apply_height_stepping. cbv zeta.
    rewrite (py_truediv_pos _ _ Hstep), Hmin, Hmax. cbn [bind]. rewrite Hsmooth.
    change (trunc_int (fdiv (fsub max_elev min_elev)
                            (fdiv (step_height_mm (height_stepping (terrain config)))
                                  (vertical_exaggeration (terrain config)))))
      with n.
    rewrite Hsl. reflexivity. }
  destruct (Z.eq_dec n 0) as [E0|Hne].
  - (* a range below one step: a single level, no interval *)
    destruct (linspace_length min_elev max_elev n Hn0) as (sl & Hsl & Hlen).
    eexists. split; [apply Hunfold; exact Hsl|].
    apply Forall2_map_self_in. intros row _. apply Forall2_map_self_in. intros e _.
    unfold smooth_value. rewrite Hlen, E0. simpl.
    split; [reflexivity|]. split; intros; lia.
  - assert (Hn : (1 <= n)%Z) by lia.
    assert (Hrange : (min_elev < max_elev)%Q).
    { assert (H1 : (1 <= (max_elev - min_elev) / step)%Q).
      { assert (Hfl : (inject_Z n <= (max_elev - min_elev) / step)%Q).
        { unfold n, Qtrunc. apply Qle_bool_iff in Hq0. rewrite Hq0. apply Qfloor_le. }
        assert (H1n : (1 <= inject_Z n)%Q)
          by (change 1%Q with (inject_Z 1); rewrite <- Zle_Qle; exact Hn).
        lra. }
      assert (H2 : (1 * step <= (max_elev - min_elev) / step * step)%Q)
        by (apply Qmult_le_compat_r; [exact H1|lra]).
      assert (E : ((max_elev - min_elev) / step * step == max_elev - min_elev)%Q)
        by (field; lra).
      lra. }
    destruct (linspace_levels min_elev max_elev n Hn)
      as (sl & Hsl & Hlen & Hnth).
    eexists. split; [apply Hunfold; exact Hsl|].
    apply Forall2_map_self_in. intros row Hrow.
    apply Forall2_map_self_in. intros e He.
    assert (Hin : In e (concat elevation_grid))
      by (apply in_concat; exists row; split; assumption).
    pose proof (np_min_le _ _ Hmin _ Hin) as Hlo.
    pose proof (np_max_ge _ _ Hmax _ Hin) as Hhi.
    unfold smooth_value. rewrite Hlen.
    replace (S (Z.to_nat n) - 1) with (Z.to_nat n) by lia.
    set (c := fun i => fle (nth i sl fzero) e && flt e (nth (i + 1) sl fzero)).
    set (m := fun i => fadd (nth i sl fzero)
                         (fmul (fsub (nth (i + 1) sl fzero) (nth i sl fzero))
                               (fdiv (of_Z 1) (of_Z 2)))).
    change (fold_left _ (seq 0 (Z.to_nat n)) e)
      with (fold_left (fun v i => if c i then m i else v) (seq 0 (Z.to_nat n)) e).
    assert (Hc : forall i, i < Z.to_nat n ->
              (c i = true <->
               (step_level min_elev max_elev n (Z.of_nat i) <= e)%Q /\
               (e < step_level min_elev max_elev n (Z.of_nat i + 1))%Q)).
    { intros i Hi. unfold c. rewrite andb_true_iff, Q_fle_iff, Q_flt_iff.
      change fzero with 0%Q.
      rewrite (Hnth i) by lia. rewrite (Hnth (i + 1)) by lia.
      replace (Z.of_nat (i + 1)) with (Z.of_nat i + 1)%Z by lia. reflexivity. }
    split; [intros; lia|]. split.
    + intros _ Hmaxe. apply fold_pick_none. intros i Hi. apply in_seq in Hi.
      destruct (c i) eqn:Hci; [|reflexivity]. exfalso.
      apply (Hc i ltac:(lia)) in Hci as [_ Hlt].
      pose proof (step_level_monotone min_elev max_elev n Hn Hrange
                    (Z.of_nat i + 1) n ltac:(lia)) as Hm.
      rewrite (step_level_last min_elev max_elev n Hn) in Hm. lra.
    + intros _ Hlt.
      destruct (interval_of_elevation min_elev max_elev n Hn Hrange e Hlo Hlt)
        as (k & Hk & Hk1 & Hk2).
      exists k. split; [exact Hk|]. split; [exact Hk1|]. split; [exact Hk2|].
      rewrite (fold_pick_one c m _ e (Z.to_nat k)).
      * unfold m. change fzero with 0%Q. cbn [fadd fmul fsub fdiv of_Z Q_scalar].
        rewrite (Hnth (Z.to_nat k)) by lia. rewrite (Hnth (Z.to_nat k + 1)) by lia.
        replace (Z.of_nat (Z.to_nat k + 1)) with (k + 1)%Z by lia.
        replace (Z.of_nat (Z.to_nat k)) with k by lia. field.
      * apply in_seq. lia.
      * apply (Hc (Z.to_nat k)); [lia|].
        replace (Z.of_nat (Z.to_nat k)) with k by lia. split; assumption.
      * intros i Hi Hci. apply in_seq in Hi.
        apply (Hc i ltac:(lia)) in Hci as [Hi1 Hi2].
        destruct (Z.lt_trichotomy (Z.of_nat i) k) as [Hlt'|[E|Hgt]]; [exfalso| lia |exfalso].
        -- pose proof (step_level_monotone min_elev max_elev n Hn Hrange
                         (Z.of_nat i + 1) k ltac:(lia)) as Hm. lra.
        -- pose proof (step_level_monotone min_elev max_elev n Hn Hrange
                         (k + 1) (Z.of_nat i) ltac:(lia)) as Hm. lra.
Qed.

Definition config_smooth_10 : Config Q := example_config false 1 true true 10%Q 1%Q.

Lemma smooth_stepping_goes_to_interval_middles_witness :
  exists stepped,
    _apply_height_stepping config_smooth_10 ramp_0_95 = inr stepped /\
    Forall2 (Forall2 (smooth_step 0 95 (Qtrunc ((95 - 0) / (10 / 1)))))
            ramp_0_95 stepped.
Proof.
  apply (smooth_stepping_goes_to_interval_middles config_smooth_10 ramp_0_95 0%Q 95%Q);
    [reflexivity|reflexivity|reflexivity|reflexivity].
Defined.

(** ** Overlap of layers ([multicolor.py]) *)

Section Overlap.
Context {F : Type} `{Scalar F}.

(** [mesh.bounds]: the two corners [(min, max)] of the bounding box. *)
Definition bbox : Type := (F * F * F) * (F * F * F).

(** Python's [max(a, b)]: the first argument unless the second is larger. *)
Definition py_max (a b : F) : F := if flt a b then b else a.

Definition lo_x (b : bbox) : F := fst (fst (fst b)).
Definition lo_y (b : bbox) : F := snd (fst (fst b)).
Definition lo_z (b : bbox) : F := snd (fst b).
Definition hi_x (b : bbox) : F := fst (fst (snd b)).
Definition hi_y (b : bbox) : F := snd (fst (snd b)).
Definition hi_z (b : bbox) : F := snd (snd b).

(** [_calculate_overlap_volume]. *)
Definition _calculate_overlap_volume (bbox1 bbox2 : bbox) : F :=
  let x_overlap :=
    py_max (of_Z 0) (fsub (py_min (hi_x bbox1) (hi_x bbox2))
                          (py_max (lo_x bbox1) (lo_x bbox2))) in
  let y_overlap :=
    py_max (of_Z 0) (fsub (py_min (hi_y bbox1) (hi_y bbox2))
                          (py_max (lo_y bbox1) (lo_y bbox2))) in
  let z_overlap :=
    py_max (of_Z 0) (fsub (py_min (hi_z bbox1) (hi_z bbox2))
                          (py_max (lo_z bbox1) (lo_z bbox2))) in
  fmul (fmul x_overlap y_overlap) z_overlap.

(** [validate_layer_intersections], the test on one pair of layers: the
    bounding boxes meet on the three axes and the Z ranges overlap by more
    than a point. *)
Definition layers_intersect (bbox1 bbox2 : bbox) : bool :=
  let x_overlap := fle (lo_x bbox1) (hi_x bbox2) && fle (lo_x bbox2) (hi_x bbox1) in
  let y_overlap := fle (lo_y bbox1) (hi_y bbox2) && fle (lo_y bbox2) (hi_y bbox1) in
  let z_overlap := fle (lo_z bbox1) (hi_z bbox2) && fle (lo_z bbox2) (hi_z bbox1) in
  if x_overlap && y_overlap && z_overlap
  then flt (lo_z bbox1) (hi_z bbox2) && flt (lo_z bbox2) (hi_z bbox1)
  else false.

(** [validate_layer_intersections] over the bounds of the meshes, in the
    order of the mapping's keys: every pair [i < j] is tested, and the
    answer is whether no pair intersects. *)
Definition validate_layer_intersections (bounds : list bbox) : bool :=
  let pairs :=
    flat_map (fun i => map (fun j => (i, j)) (seq (i + 1) (length bounds - (i + 1))))
             (seq 0 (length bounds)) in
  let d := ((fzero, fzero, fzero), (fzero, fzero, fzero)) in
  let intersections_found :=
    existsb (fun p => layers_intersect (nth (fst p) bounds d) (nth (snd p) bounds d))
            pairs in
  negb intersections_found.
End Overlap.

Lemma py_max_Q (a b : Q) : (a <= py_max a b)%Q /\
  (b <= py_max a b)%Q /\ ((py_max a b == a)%Q \/ (py_max a b == b)%Q).
Proof.
  unfold py_max. destruct (flt a b) eqn:E.
  - apply Q_flt_iff in E. split; [|split]; [lra|lra|right; reflexivity].
  - apply Q_flt_false_iff in E. split; [|split]; [lra|lra|left; reflexivity].
Qed.

Lemma py_min_Q (a b : Q) : (py_min a b <= a)%Q /\ (py_min a b <= b)%Q /\
  ((py_min a b == a)%Q \/ (py_min a b == b)%Q).
Proof.
  unfold py_min. destruct (flt b a) eqn:E.
  - apply Q_flt_iff in E. split; [|split]; [lra|lra|right; reflexivity].
  - apply Q_flt_false_iff in E. split; [|split]; [lra|lra|left; reflexivity].
Qed.

(** The overlap of two intervals: its length, or 0 when they do not
    overlap. *)
Definition axis_overlap (lo1 hi1 lo2 hi2 : Q) : Q :=
  py_max (of_Z 0) (fsub (py_min hi1 hi2) (py_max lo1 lo2)).

Lemma axis_overlap_spec (lo1 hi1 lo2 hi2 : Q) :
  (0 <= axis_overlap lo1 hi1 lo2 hi2)%Q /\
  (axis_overlap lo1 hi1 lo2 hi2 == axis_overlap lo2 hi2 lo1 hi1)%Q /\
  ((0 < axis_overlap lo1 hi1 lo2 hi2)%Q <-> (lo1 < hi2)%Q /\ (lo2 < hi1)%Q /\
                                           (lo1 < hi1)%Q /\ (lo2 < hi2)%Q).
Proof.
  unfold axis_overlap. cbn [of_Z fsub Q_scalar]. change (inject_Z 0) with 0%Q.
  pose proof (py_min_Q hi1 hi2) as (A1 & A2 & A3).
  pose proof (py_min_Q hi2 hi1) as (B1 & B2 & B3).
  pose proof (py_max_Q lo1 lo2) as (C1 & C2 & C3).
  pose proof (py_max_Q lo2 lo1) as (D1 & D2 & D3).
  pose proof (py_max_Q 0%Q (py_min hi1 hi2 - py_max lo1 lo2)%Q) as (E1 & E2 & E3).
  pose proof (py_max_Q 0%Q (py_min hi2 hi1 - py_max lo2 lo1)%Q) as (G1 & G2 & G3).
  generalize dependent (py_max 0%Q (py_min hi1 hi2 - py_max lo1 lo2)%Q).
  generalize dependent (py_max 0%Q (py_min hi2 hi1 - py_max lo2 lo1)%Q).
  generalize dependent (py_min hi1 hi2). generalize dependent (py_min hi2 hi1).
  generalize dependent (py_max lo1 lo2). generalize dependent (py_max lo2 lo1).
  intros M' D1 D2 D3 M C1 C2 C3 m' B1 B2 B3 m A1 A2 A3 v' G1 G2 G3 v E1 E2 E3.
  split; [exact E1|]. split.
  - destruct A3, B3, C3, D3, E3, G3; lra.
  - destruct A3, C3, E3; split; intros; try lra; repeat split; lra.
Qed.

Lemma overlap_volume_axes (bbox1 bbox2 : bbox (F := Q)) :
  _calculate_overlap_volume bbox1 bbox2 =
  (axis_overlap (lo_x bbox1) (hi_x bbox1) (lo_x bbox2) (hi_x bbox2) *
   axis_overlap (lo_y bbox1) (hi_y bbox1) (lo_y bbox2) (hi_y bbox2) *
   axis_overlap (lo_z bbox1) (hi_z bbox1) (lo_z bbox2) (hi_z bbox2))%Q.
Proof. reflexivity. Qed.

(** Two intervals overlap by more than a point. *)
Definition overlap_strictly (lo1 hi1 lo2 hi2 : Q) : Prop :=
  (lo1 < hi2)%Q /\ (lo2 < hi1)%Q /\ (lo1 < hi1)%Q /\ (lo2 < hi2)%Q.

Lemma product_positive (x y z : Q) :
  (0 <= x)%Q -> (0 <= y)%Q -> (0 <= z)%Q ->
  ((0 < x * y * z)%Q <-> (0 < x)%Q /\ (0 < y)%Q /\ (0 < z)%Q).
Proof.
  intros X0 Y0 Z0.
  assert (XY : (0 <= x * y)%Q) by (apply Qmult_le_0_compat; assumption).
  split.
  - intros Hpos.
    assert (Hz : (0 < z)%Q).
    { destruct (Qlt_le_dec 0 z) as [Hp|Hn]; [exact Hp|].
      assert (E : (z == 0)%Q) by lra. rewrite E in Hpos. lra. }
    assert (Hxy : (0 < x * y)%Q).
    { destruct (Qlt_le_dec 0 (x * y)) as [Hp|Hn]; [exact Hp|].
      assert (E : (x * y == 0)%Q) by lra. rewrite E in Hpos. lra. }
    assert (Hy : (0 < y)%Q).
    { destruct (Qlt_le_dec 0 y) as [Hp|Hn]; [exact Hp|].
      assert (E : (y == 0)%Q) by lra. rewrite E in Hxy. lra. }
    assert (Hx : (0 < x)%Q).
    { destruct (Qlt_le_dec 0 x) as [Hp|Hn]; [exact Hp|].
      assert (E : (x == 0)%Q) by lra. rewrite E in Hxy. lra. }
    auto.
  - intros (Hx & Hy & Hz).
    assert (Hxy : (0 < x * y)%Q).
    { rewrite <- (Qmult_0_l y). apply Qmult_lt_compat_r; assumption. }
    rewrite <- (Qmult_0_l z). apply Qmult_lt_compat_r; assumption.
Qed.

Lemma overlap_volume_nonneg (bbox1 bbox2 : bbox (F := Q)) :
  (0 <= _calculate_overlap_volume bbox1 bbox2)%Q.
Proof.
  rewrite overlap_volume_axes.
  repeat apply Qmult_le_0_compat; apply axis_overlap_spec.
Qed.

Lemma overlap_volume_positive (bbox1 bbox2 : bbox (F := Q)) :
  (0 < _calculate_overlap_volume bbox1 bbox2)%Q ->
  overlap_strictly (lo_x bbox1) (hi_x bbox1) (lo_x bbox2) (hi_x bbox2) /\
  overlap_strictly (lo_y bbox1) (hi_y bbox1) (lo_y bbox2) (hi_y bbox2) /\
  overlap_strictly (lo_z bbox1) (hi_z bbox1) (lo_z bbox2) (hi_z bbox2).
Proof.
  rewrite overlap_volume_axes. unfold overlap_strictly. intros Hpos.
  apply product_positive in Hpos; [|apply axis_overlap_spec..].
  destruct Hpos as (Hx & Hy & Hz).
  split; [|split]; apply axis_overlap_spec; assumption.
Qed.

(** X20: the overlap volume of two bounding boxes is never negative, does
    not depend on the order of the two boxes, and is positive exactly when,
    on each of the three axes, the two boxes have positive extent and
    overlap by more than a point. *)
Theorem overlap_volume_positive_iff (bbox1 bbox2 : bbox (F := Q)) :
  (0 <= _calculate_overlap_volume bbox1 bbox2)%Q /\
  (_calculate_overlap_volume bbox1 bbox2 == _calculate_overlap_volume bbox2 bbox1)%Q /\
  ((0 < _calculate_overlap_volume bbox1 bbox2)%Q <->
   overlap_strictly (lo_x bbox1) (hi_x bbox1) (lo_x bbox2) (hi_x bbox2) /\
   overlap_strictly (lo_y bbox1) (hi_y bbox1) (lo_y bbox2) (hi_y bbox2) /\
   overlap_strictly (lo_z bbox1) (hi_z bbox1) (lo_z bbox2) (hi_z bbox2)).
Proof.
  rewrite !overlap_volume_axes. unfold overlap_strictly.
  destruct (axis_overlap_spec (lo_x bbox1) (hi_x bbox1) (lo_x bbox2) (hi_x bbox2))
    as (X0 & Xs & <-).
  destruct (axis_overlap_spec (lo_y bbox1) (hi_y bbox1) (lo_y bbox2) (hi_y bbox2))
    as (Y0 & Ys & <-).
  destruct (axis_overlap_spec (lo_z bbox1) (hi_z bbox1) (lo_z bbox2) (hi_z bbox2))
    as (Z0 & Zs & <-).
  rewrite <- Xs, <- Ys, <- Zs.
  split; [repeat apply Qmult_le_0_compat; assumption|]. split; [reflexivity|].
  apply product_positive; assumption.
Qed.

Lemma layers_intersect_of_overlap (bbox1 bbox2 : bbox (F := Q)) :
  overlap_strictly (lo_x bbox1) (hi_x bbox1) (lo_x bbox2) (hi_x bbox2) ->
  overlap_strictly (lo_y bbox1) (hi_y bbox1) (lo_y bbox2) (hi_y bbox2) ->
  overlap_strictly (lo_z bbox1) (hi_z bbox1) (lo_z bbox2) (hi_z bbox2) ->
  layers_intersect bbox1 bbox2 = true.
Proof.
  intros (X1 & X2 & _) (Y1 & Y2 & _) (Z1 & Z2 & _). unfold layers_intersect.
  rewrite !(proj2 (Q_fle_iff _ _)) by (apply Qlt_le_weak; assumption).
  rewrite !(proj2 (Q_flt_iff _ _)) by assumption. reflexivity.
Qed.

(** X21: when [validate_layer_intersections] answers [True], no two of the
    bounding boxes share any volume: [_calculate_overlap_volume] is 0 for
    every pair of layers. *)
Theorem validated_layers_share_no_volume (bounds : list (bbox (F := Q)))
    (i j : nat) (d : bbox (F := Q)) :
  validate_layer_intersections bounds = true ->
  i < j -> j < length bounds ->
  (_calculate_overlap_volume (nth i bounds d) (nth j bounds d) == 0)%Q.
Proof.
  intros Hval Hij Hj. unfold validate_layer_intersections in Hval.
  apply negb_true_iff in Hval.
  set (d0 := ((fzero, fzero, fzero), (fzero, fzero, fzero)) : bbox (F := Q)) in *.
  assert (Hpair : layers_intersect (nth i bounds d0) (nth j bounds d0) = false).
  { destruct (layers_intersect (nth i bounds d0) (nth j bounds d0)) eqn:E; [|reflexivity].
    exfalso. apply not_true_iff_false in Hval. apply Hval. apply existsb_exists.
    exists (i, j). split; [|exact E].
    apply in_flat_map. exists i. split; [apply in_seq; lia|].
    apply in_map_iff. exists j. split; [reflexivity|apply in_seq; lia]. }
  rewrite (nth_indep bounds d d0) by lia. rewrite (nth_indep bounds d d0 Hj).
  pose proof (overlap_volume_nonneg (nth i bounds d0) (nth j bounds d0)) as H0.
  destruct (Qlt_le_dec 0 (_calculate_overlap_volume (nth i bounds d0) (nth j bounds d0)))
    as [Hpos|Hle]; [exfalso|lra].
  apply overlap_volume_positive in Hpos as (Hx & Hy & Hz).
  rewrite (layers_intersect_of_overlap _ _ Hx Hy Hz) in Hpair. discriminate.
Qed.

Definition box_low : bbox (F := Q) := ((0, 0, 0), (10, 10, 5))%Q.
Definition box_high : bbox (F := Q) := ((0, 0, 5), (10, 10, 7))%Q.
Definition box_inside : bbox (F := Q) := ((2, 2, 4), (8, 8, 6))%Q.

Lemma validated_layers_share_no_volume_witness :
  (_calculate_overlap_volume (nth 0 [box_low; box_high] box_low)
                             (nth 1 [box_low; box_high] box_low) == 0)%Q.
Proof.
  apply (validated_layers_share_no_volume [box_low; box_high] 0 1 box_low);
    [reflexivity|lia|simpl; lia].
Defined.

(** A layer that reaches into another one is reported, with the volume the
    two boxes share; layers that only touch are not. *)
Example intersecting_layers_are_reported :
  validate_layer_intersections [box_low; box_high; box_inside] = false /\
  (_calculate_overlap_volume box_low box_inside == 36)%Q /\
  validate_layer_intersections [box_low; box_high] = true.
Proof. repeat split. Qed.
